(** * Bisection.py: a polynomial root finder by bisection

    The program has two numerical functions, [evaluate_poly] (a wrapper around
    NumPy's [polyval]) and [bisection_method] (the solver loop).  Both are
    embedded below over an arithmetic interface [Arith], with two instances:

    - [binary64]: IEEE-754 double precision, the arithmetic the Python
      program really runs on (Python [float], NumPy [float64]), given by
      Rocq's primitive floats;
    - [exact]: the rationals [Q], the exact arithmetic the mathematical
      reading of the specification refers to.

    Statements about control flow are proved once, for every [Arith].
    Statements that rest on the arithmetic are proved from a few laws of
    signs, order, equality and the midpoint, and each law is proved for both
    instances: for [binary64] from the specification of IEEE-754 arithmetic
    that comes with the primitive floats ([SpecFloat], [FloatAxioms]). *)

From Stdlib Require Import ZArith QArith Qabs Qpower List Bool Lia Lqa.
From Stdlib Require Import Floats.
From Stdlib Require String.
Import ListNotations.

Set Implicit Arguments.

(** ** The arithmetic the program uses *)

(** The operations [Bisection.py] applies to numbers: the literals [0] and
    [2], [+], [-], [*], [/], [abs], and the comparisons [<] and [>=].
    [f_eq] is Python's [==]; the program never calls it, the statements about
    an "exactly zero" value do. *)
Class Arith (F : Type) : Type := {
  f_zero : F;
  f_two : F;
  f_add : F -> F -> F;
  f_sub : F -> F -> F;
  f_mul : F -> F -> F;
  f_div : F -> F -> F;
  f_abs : F -> F;
  f_lt : F -> F -> bool;
  f_ge : F -> F -> bool;
  f_eq : F -> F -> bool
}.

(** IEEE-754 binary64.  [x >= y] is [y <= x]; every comparison with a NaN
    is false, as in Python. *)
#[export] Instance binary64 : Arith float := {|
  f_zero := 0%float;
  f_two := 2%float;
  f_add := PrimFloat.add;
  f_sub := PrimFloat.sub;
  f_mul := PrimFloat.mul;
  f_div := PrimFloat.div;
  f_abs := PrimFloat.abs;
  f_lt := PrimFloat.ltb;
  f_ge := fun x y => PrimFloat.leb y x;
  f_eq := PrimFloat.eqb
|}.

(** Exact rational arithmetic. *)
#[export] Instance exact : Arith Q := {|
  f_zero := 0%Q;
  f_two := 2%Q;
  f_add := Qplus;
  f_sub := Qminus;
  f_mul := Qmult;
  f_div := Qdiv;
  f_abs := Qabs;
  f_lt := fun x y => negb (Qle_bool y x);
  f_ge := fun x y => Qle_bool y x;
  f_eq := Qeq_bool
|}.

(** The two facts about a value that compares equal to zero which hold in
    both arithmetics (for binary64, of [+0] and [-0]). *)
Class ArithLaws {F : Type} (A : Arith F) : Prop := {
  zero_not_negative :
    forall x : F, f_eq x f_zero = true -> f_lt x f_zero = false;
  abs_zero_below :
    forall x tol : F,
      f_eq x f_zero = true -> f_lt f_zero tol = true ->
      f_lt (f_abs x) tol = true
}.

(** What the sign of a product says about its factors, in both arithmetics:
    a product below zero has one factor below and one above zero, a product
    above zero has both factors on the same side, no number is on both
    sides, a number below zero fails [>= 0], and the product of a number
    below zero and one above is below zero or a zero.  (For binary64 it can
    be a zero: a product of two non-zero factors can round to one.) *)
Class SignLaws {F : Type} (A : Arith F) : Prop := {
  negative_not_ge_zero :
    forall x : F, f_lt x f_zero = true -> f_ge x f_zero = false;
  negative_not_positive :
    forall x : F, f_lt x f_zero = true -> f_lt f_zero x = false;
  negative_product :
    forall x y : F,
      f_lt (f_mul x y) f_zero = true ->
      f_lt x f_zero = true /\ f_lt f_zero y = true \/
      f_lt f_zero x = true /\ f_lt y f_zero = true;
  positive_product :
    forall x y : F,
      f_lt f_zero (f_mul x y) = true ->
      f_lt f_zero x = true /\ f_lt f_zero y = true \/
      f_lt x f_zero = true /\ f_lt y f_zero = true;
  product_of_opposite_signs :
    forall x y : F,
      f_lt x f_zero = true -> f_lt f_zero y = true ->
      (f_lt (f_mul x y) f_zero = true \/ f_eq (f_mul x y) f_zero = true) /\
      (f_lt (f_mul y x) f_zero = true \/ f_eq (f_mul y x) f_zero = true)
}.

(** How the program can tell two values apart: [x] and [y] are the same
    value when [x == y], or when neither equals itself (in binary64: both
    are NaN). *)
Definition same_value {F : Type} {A : Arith F} (x y : F) : Prop :=
  f_eq x y = true \/ f_eq x x = false /\ f_eq y y = false.

(** [+] and [*] give the same value on the same values, in both
    arithmetics. *)
Class EqLaws {F : Type} (A : Arith F) : Prop := {
  zero_equals_zero : f_eq (@f_zero F A) f_zero = true;
  add_same_value :
    forall x x' y y' : F,
      same_value x x' -> same_value y y' ->
      same_value (f_add x y) (f_add x' y');
  mul_same_value :
    forall x x' y y' : F,
      same_value x x' -> same_value y y' ->
      same_value (f_mul x y) (f_mul x' y')
}.

(** The order of the numbers, as far as the statements need it, in both
    arithmetics: [<=] is transitive, what is below [t] is below every
    [t' >= t], and what [<=] compares is [<=] itself (a NaN is not).
    ([x <= y] is written [y >= x], the comparison the program has.) *)
Class OrderLaws {F : Type} (A : Arith F) : Prop := {
  lt_le_trans :
    forall x t t' : F,
      f_lt x t = true -> f_ge t' t = true -> f_lt x t' = true;
  le_trans :
    forall x y z : F,
      f_ge y x = true -> f_ge z y = true -> f_ge z x = true;
  le_reflexive :
    forall x y : F,
      f_ge y x = true -> f_ge x x = true /\ f_ge y y = true
}.

(** [math.isfinite]: the number is neither an infinity nor a NaN.  The
    program never calls it; the statements about a sum that overflows do. *)
Class ArithFinite (F : Type) : Type := { f_finite : F -> bool }.

#[export] Instance binary64_finite : ArithFinite float :=
  {| f_finite := PrimFloat.is_finite |}.

#[export] Instance exact_finite : ArithFinite Q :=
  {| f_finite := fun _ => true |}.

(** The midpoint [(a + b) / 2] of an ordered pair lies between its ends,
    in both arithmetics, unless the sum [a + b] overflows. *)
Class MidpointLaws {F : Type} (A : Arith F) (H : ArithFinite F) : Prop := {
  midpoint_between :
    forall a b : F,
      f_ge b a = true -> f_finite (f_add a b) = true ->
      f_ge (f_div (f_add a b) f_two) a = true /\
      f_ge b (f_div (f_add a b) f_two) = true
}.

(** ** The program *)

Section Program.
Context {F : Type} {A : Arith F}.

(** Modelled from the spec: [np.polyval] is a function of the NumPy library,
    which is not part of the repository.  The specification (4.1) has the
    evaluator use "standard Horner-style evaluation" on coefficients in
    descending order; NumPy's [polyval(p, x)] is that loop,
    [y = zeros_like(x); for pv in p: y = y * x + pv; return y],
    and starts from [0], so that its first step computes [0 * x + a_n]. *)
Definition polyval (p : list F) (x : F) : F :=
  fold_left (fun y pv => f_add (f_mul y x) pv) p f_zero.

(** [def evaluate_poly(coefficients, x):
        return np.polyval(coefficients, x)] *)
Definition evaluate_poly (coefficients : list F) (x : F) : F :=
  polyval coefficients x.

(** One line of the table [bisection_method] prints per loop pass:
    [i], [a], [b], [c], [fc], [error], as they are when [print] runs, that
    is before the pass narrows the interval. *)
Record iteration_record : Type := {
  rec_i : Z;
  rec_a : F;
  rec_b : F;
  rec_c : F;
  rec_fc : F;
  rec_error : F
}.

(** What [bisection_method] writes to the console. *)
Inductive output : Type :=
| ErrorReport (fa fb : F)
| TableHeader
| TableRow (r : iteration_record).

(** How the [for] loop ends: by its [return c, i], or by running out of
    [range(1, max_iter + 1)] with [c] as the last pass left it. *)
Inductive loop_exit : Type :=
| Return (c : F) (i : Z)
| Fallthrough (c : F).

(** The body of [for i in range(1, max_iter + 1)]: [n] passes remain, [i] is
    the loop index, [a], [b], [c] the local variables at the start of the
    pass.  ([iteration_data] is appended to and never read.) *)
Fixpoint for_loop (coeffs : list F) (tol : F) (n : nat) (i : Z) (a b c : F)
  : list iteration_record * loop_exit :=
  match n with
  | O => ([], Fallthrough c)
  | S n' =>
    let prev_c := c in
    let c := f_div (f_add a b) f_two in
    let fc := evaluate_poly coeffs c in
    let error :=
      if (i >? 1)%Z then f_abs (f_sub c prev_c) else f_abs (f_sub b a) in
    let row := {| rec_i := i; rec_a := a; rec_b := b; rec_c := c;
                  rec_fc := fc; rec_error := error |} in
    if f_lt (f_abs fc) tol || (f_lt error tol && (i >? 1)%Z) then
      ([row], Return c i)
    else if f_lt (f_mul (evaluate_poly coeffs a) fc) f_zero then
      let (rows, e) := for_loop coeffs tol n' (i + 1) a c c in
      (row :: rows, e)
    else
      let (rows, e) := for_loop coeffs tol n' (i + 1) c b c in
      (row :: rows, e)
  end.

(** [bisection_method(coeffs, a, b, tol, max_iter)]: the console output and
    the returned pair, [None] standing for Python's [(None, None)].
    [range(1, max_iter + 1)] has [max_iter] elements, none when
    [max_iter <= 0]. *)
Definition bisection_method (coeffs : list F) (a b tol : F) (max_iter : Z)
  : list output * option (F * Z) :=
  let fa := evaluate_poly coeffs a in
  let fb := evaluate_poly coeffs b in
  if f_ge (f_mul fa fb) f_zero then
    ([ErrorReport fa fb], None)
  else
    let (rows, e) := for_loop coeffs tol (Z.to_nat max_iter) 1 a b a in
    (TableHeader :: map TableRow rows,
     Some match e with
          | Return c i => (c, i)
          | Fallthrough c => (c, max_iter)
          end).

(** *** Vocabulary for the statements *)

(** The rows of the printed table, in order. *)
Definition table_rows (out : list output) : list iteration_record :=
  flat_map (fun o => match o with TableRow r => [r] | _ => [] end) out.

(** The midpoint the pass computes from the interval it starts with. *)
Definition midpoint (a b : F) : F := f_div (f_add a b) f_two.

(** The convergence test, read off a printed row. *)
Definition converged (tol : F) (r : iteration_record) : bool :=
  f_lt (f_abs (rec_fc r)) tol || (f_lt (rec_error r) tol && (rec_i r >? 1)%Z).

(** The row pass [i] prints when it starts with [a], [b] and the previous
    midpoint [c]. *)
Definition row_of (coeffs : list F) (i : Z) (a b c : F) : iteration_record :=
  {| rec_i := i; rec_a := a; rec_b := b; rec_c := midpoint a b;
     rec_fc := evaluate_poly coeffs (midpoint a b);
     rec_error := if (i >? 1)%Z then f_abs (f_sub (midpoint a b) c)
                  else f_abs (f_sub b a) |}.

(** The interval a pass leaves behind when it does not return. *)
Definition narrow (coeffs : list F) (a b : F) : F * F :=
  let c := midpoint a b in
  if f_lt (f_mul (evaluate_poly coeffs a) (evaluate_poly coeffs c)) f_zero
  then (a, c) else (c, b).

(** [x] and [y] are on opposite sides of zero: one is below, the other
    above. *)
Definition opposite_signs (x y : F) : bool :=
  (f_lt x f_zero && f_lt f_zero y) || (f_lt f_zero x && f_lt y f_zero).

(** The product [f(a) * fc] the pass of row [r] computes to narrow its
    interval, and that it is below or above zero: not a zero, and in
    binary64 not a NaN. *)
Definition narrowing_product (coeffs : list F) (r : iteration_record) : F :=
  f_mul (evaluate_poly coeffs (rec_a r)) (rec_fc r).

Definition has_sign (x : F) : bool := f_lt x f_zero || f_lt f_zero x.

(** The runs of the loop as a relation: [run coeffs tol n i a b c rows e]
    when [n] remaining passes from index [i] and variables [a], [b], [c]
    print [rows] and end in [e]. *)
Inductive run (coeffs : list F) (tol : F)
  : nat -> Z -> F -> F -> F -> list iteration_record -> loop_exit -> Prop :=
| run_exhausted i a b c :
    run coeffs tol O i a b c [] (Fallthrough c)
| run_return n i a b c :
    converged tol (row_of coeffs i a b c) = true ->
    run coeffs tol (S n) i a b c [row_of coeffs i a b c]
        (Return (midpoint a b) i)
| run_narrow n i a b c rows e :
    converged tol (row_of coeffs i a b c) = false ->
    run coeffs tol n (i + 1) (fst (narrow coeffs a b))
        (snd (narrow coeffs a b)) (midpoint a b) rows e ->
    run coeffs tol (S n) i a b c (row_of coeffs i a b c :: rows) e.

End Program.

Arguments iteration_record F : clear implicits.
Arguments output F : clear implicits.
Arguments loop_exit F : clear implicits.

(** ** Inputs of the scenarios *)

(** The tolerance [1e-4] as Python reads it: the binary64 number nearest to
    1/10000, [float.hex(1e-4)]. *)
Definition tol_1e_4 : float := 0x1.a36e2eb1c432dp-14%float.

(** The tolerance [1e-6], likewise: [float.hex(1e-6)]. *)
Definition tol_1e_6 : float := 0x1.0c6f7a0b5ed8dp-20%float.

(** The coefficients of [2^-650 * x^150 * (1 - x)], a polynomial of degree
    151: [-2^-650], [2^-650] and 150 zeros. *)
Definition steep_coefficients : list float :=
  ([-0x1p-650; 0x1p-650] ++ repeat 0 150)%float.

(** ** The polynomial as the specification writes it *)

(** [x^n], by repeated multiplication. *)
Fixpoint power (x : Q) (n : nat) : Q :=
  match n with
  | O => 1
  | S n' => x * power x n'
  end.

(** [a_n * x^n + a_(n-1) * x^(n-1) + ... + a_0] for the coefficient list
    [[a_n; ...; a_0]]: the head of a list of [n + 1] coefficients multiplies
    [x^n]. *)
Fixpoint sum_of_powers (coefficients : list Q) (x : Q) : Q :=
  match coefficients with
  | [] => 0
  | a_n :: rest => a_n * power x (length rest) + sum_of_powers rest x
  end.

(** The real number a double stands for, as a rational: [+0] and [-0] stand
    for 0, a finite double of sign [s], mantissa [m] and exponent [e] for
    [(-1)^s * m * 2^e]; the infinities and NaN stand for none. *)
Definition SF_value (x : spec_float) : option Q :=
  match x with
  | S754_zero _ => Some 0
  | S754_finite s m e => Some (inject_Z (cond_Zopp s (Zpos m)) * Qpower 2 e)
  | S754_infinity _ | S754_nan => None
  end.

Definition float_value (x : float) : option Q := SF_value (Prim2SF x).

Fixpoint float_values (xs : list float) : option (list Q) :=
  match xs with
  | [] => Some []
  | x :: rest =>
    match float_value x, float_values rest with
    | Some q, Some qs => Some (q :: qs)
    | _, _ => None
    end
  end.

(** The value [evaluate_poly] returns in binary64 stands for the sum
    [a_n * x^n + ... + a_0] over the numbers its arguments stand for. *)
Definition is_sum_of_powers (coefficients : list float) (x : float) : bool :=
  match float_values coefficients, float_value x,
        float_value (evaluate_poly coefficients x) with
  | Some qs, Some qx, Some q => Qeq_bool q (sum_of_powers qs qx)
  | _, _, _ => false
  end.

(** A step [y * x + pv] of Horner's loop that binary64 computes without a
    rounding error: the double it yields stands for the product and sum of
    the numbers [y], [x] and [pv] stand for. *)
Definition exact_step (y x pv : float) : bool :=
  match float_value y, float_value x, float_value pv,
        float_value (f_add (f_mul y x) pv) with
  | Some qy, Some qx, Some qp, Some qr => Qeq_bool qr (qy * qx + qp)
  | _, _, _, _ => false
  end.

(** All the steps of the loop on [p] from the accumulator [y] are such. *)
Fixpoint exact_steps (p : list float) (x y : float) : bool :=
  match p with
  | [] => true
  | pv :: rest => exact_step y x pv && exact_steps rest x (f_add (f_mul y x) pv)
  end.

(** The rational [q] is the value of a double. *)
Definition representable (q : Q) : Prop :=
  exists (z : float) (qz : Q), float_value z = Some qz /\ qz == q.

(** Horner's loop over the rationals, from the accumulator [qy], meets
    only values of doubles: each product [qy * qx] and each sum
    [qy * qx + qp] is one. *)
Fixpoint steps_representable (qs : list Q) (qx qy : Q) : Prop :=
  match qs with
  | [] => True
  | qp :: rest =>
    representable (qy * qx) /\ representable (qy * qx + qp) /\
    steps_representable rest qx (qy * qx + qp)
  end.

(** ** Doubles as integers *)

Section DoubleValues.
Local Open Scope Z_scope.

(** Every finite double is an integer multiple of [2^-1074], the smallest
    positive double: [scaled m e] is [m * 2^e] counted in that unit. *)
Definition scaled (m e : Z) : Z := m * 2 ^ (e + 1074).

(** [2^1024], in the same unit: larger than every finite double. *)
Definition huge : Z := 2 ^ 2098.

(** The position of a double on the integer line: its value for a zero or
    a finite double, [huge] and [- huge] for the infinities. *)
Definition SF_scaled (x : spec_float) : Z :=
  match x with
  | S754_zero _ => 0
  | S754_finite s m e => cond_Zopp s (scaled (Zpos m) e)
  | S754_infinity s => cond_Zopp s huge
  | S754_nan => 0
  end.

(** The integers a mantissa of at most 53 bits reaches, at any exponent
    from [-1074] on, and the same with a sign. *)
Definition magnitude53 (R : Z) : Prop :=
  exists mr er, 0 <= mr < 2 ^ 53 /\ -1074 <= er /\ R = scaled mr er.

Definition signed53 (R : Z) : Prop := magnitude53 R \/ magnitude53 (- R).

(** What [binary_round_aux] returns, from the mantissa and exponent its two
    shifts end with. *)
Definition rounded (s : bool) (m e : Z) : spec_float :=
  match m with
  | Z0 => S754_zero s
  | Zpos p => if e <=? 971 then S754_finite s p e else S754_infinity s
  | Zneg _ => S754_nan
  end.

(** A double that is a zero or finite. *)
Definition sf_finite (x : spec_float) : bool :=
  match x with
  | S754_zero _ | S754_finite _ _ _ => true
  | S754_infinity _ | S754_nan => false
  end.

(** The double [2.0]: mantissa [2^52], exponent [-51]. *)
Definition sf_two : spec_float := S754_finite false 4503599627370496 (-51).


End DoubleValues.

(** ** The plot and the driver *)

Unset Implicit Arguments.

(** The literal [0.5] of [plot_polynomial]. *)
Class ArithHalf (F : Type) : Type := { f_half : F }.

#[export] Instance binary64_half : ArithHalf float := {| f_half := 0.5%float |}.

#[export] Instance exact_half : ArithHalf Q := {| f_half := 1 # 2 |}.

(** What [input] asks for: the six prompt texts of [main], the one for a
    coefficient with the power [i] it names. *)
Inductive prompt : Type :=
| AskDegree
| AskCoefficient (i : Z)
| AskLowerBound
| AskUpperBound
| AskTolerance
| AskMaxIterations.

(** The exceptions [main] can meet: [ValueError] from [int] and [float],
    which its [except] clause catches, and [EOFError] from [input] at the
    end of the input, which it does not. *)
Inductive exn : Type :=
| ValueError
| EOFError.

Section Driver.
Context {F : Type} {A : Arith F} {H : ArithHalf F}.

(** Python's [int(s)] and [float(s)] on a line of input, [None] when they
    raise [ValueError]; and NumPy's [linspace(start, stop, num)].  The three
    are library functions, taken as they are. *)
Variable parse_int : String.string -> option Z.
Variable parse_float : String.string -> option F.
Variable linspace : F -> F -> nat -> list F.

(** What [plot_polynomial] draws: the curve through the points
    [(x, y)], and the marker and annotation at [(root, 0)] when [root] is
    not [None].  The axes, title, labels, grid and legend are the same in
    every figure and are left out; the calls into matplotlib are taken to
    return normally. *)
Record figure : Type := {
  fig_x : list F;
  fig_y : list F;
  fig_root : option F
}.

(** [plot_polynomial(coeffs, a, b, root)] *)
Definition plot_polynomial (coeffs : list F) (a b : F) (root : option F)
  : figure :=
  let margin := f_mul (f_abs (f_sub b a)) f_half in
  let x := linspace (f_sub a margin) (f_add b margin) 500 in
  let y := map (fun val => evaluate_poly coeffs val) x in
  {| fig_x := x; fig_y := y; fig_root := root |}.

(** What the program writes and shows, in order. *)
Inductive console : Type :=
| Banner
| Prompt (p : prompt)
| SolverPrint (o : output F)
| Rule
| ConvergenceStatus (success : bool)
| ApproximateRoot (root : F)
| IterationsUsed (iters : Z)
| PlotWindow (fig : figure)
| InputError.

(** The lines still to be read and what was written so far. *)
Record world : Type := {
  stdin : list String.string;
  stdout : list console
}.

(** A step of the program: a value or an exception, and the world after. *)
Definition io (X : Type) : Type := world -> (X + exn) * world.

Definition ret {X : Type} (x : X) : io X := fun w => (inl x, w).

Definition raise {X : Type} (e : exn) : io X := fun w => (inr e, w).

Definition bind {X Y : Type} (m : io X) (k : X -> io Y) : io Y :=
  fun w =>
    match m w with
    | (inl x, w') => k x w'
    | (inr e, w') => (inr e, w')
    end.

(** [print(...)] *)
Definition print (e : console) : io unit :=
  fun w => (inl tt, {| stdin := stdin w; stdout := stdout w ++ [e] |}).

(** [input(prompt)]: writes the prompt, then reads a line. *)
Definition input (p : prompt) : io String.string :=
  fun w =>
    let out := stdout w ++ [Prompt p] in
    match stdin w with
    | [] => (inr EOFError, {| stdin := []; stdout := out |})
    | line :: rest => (inl line, {| stdin := rest; stdout := out |})
    end.

(** [int(s)] *)
Definition int_of (s : String.string) : io Z :=
  match parse_int s with
  | Some z => ret z
  | None => raise ValueError
  end.

(** [float(s)] *)
Definition float_of (s : String.string) : io F :=
  match parse_float s with
  | Some x => ret x
  | None => raise ValueError
  end.

(** [try: body except ValueError: handler] *)
Definition except_ValueError (body handler : io unit) : io unit :=
  fun w =>
    match body w with
    | (inr ValueError, w') => handler w'
    | r => r
    end.

(** [for i in range(degree, -1, -1):
        coeffs.append(float(input(f"Enter coefficient for x^{i}: ")))],
    with [n] passes left. *)
Fixpoint read_coefficients (n : nat) (i : Z) (coeffs : list F) : io (list F) :=
  match n with
  | O => ret coeffs
  | S n' =>
    bind (input (AskCoefficient i)) (fun s =>
    bind (float_of s) (fun x =>
    read_coefficients n' (i - 1) (coeffs ++ [x])))
  end.

(** What [bisection_method] prints while [main] calls it. *)
Definition solver_prints (printed : list (output F)) : io unit :=
  fun w =>
    (inl tt, {| stdin := stdin w;
                stdout := stdout w ++ map SolverPrint printed |}).

Notation "x <- m ;; k" := (bind m (fun x => k))
  (at level 61, m at next level, right associativity).
Notation "m ;;; k" := (bind m (fun _ => k))
  (at level 61, right associativity).

(** The body of [main]'s [try]. *)
Definition read_and_solve : io unit :=
  s <- input AskDegree ;;
  degree <- int_of s ;;
  coeffs <- read_coefficients (Z.to_nat (degree + 1)) degree [] ;;
  s <- input AskLowerBound ;;
  a <- float_of s ;;
  s <- input AskUpperBound ;;
  b <- float_of s ;;
  s <- input AskTolerance ;;
  tol <- float_of s ;;
  s <- input AskMaxIterations ;;
  max_iter <- int_of s ;;
  let (printed, result) := bisection_method coeffs a b tol max_iter in
  solver_prints printed ;;;
  match result with
  | Some (root, iters) =>
    print Rule ;;;
    print (ConvergenceStatus (iters <? max_iter)%Z) ;;;
    print (ApproximateRoot root) ;;;
    print (IterationsUsed iters) ;;;
    print (PlotWindow (plot_polynomial coeffs a b (Some root)))
  | None => ret tt
  end.

(** [main()] *)
Definition main : io unit :=
  print Banner ;;;
  except_ValueError read_and_solve (print InputError).

(** [main] run on the lines of its input, nothing written yet. *)
Definition run_main (lines : list String.string) : (unit + exn) * world :=
  main {| stdin := lines; stdout := [] |}.

(** The powers [main] names in its coefficient prompts: [n] of them, down
    from [i]. *)
Fixpoint descending (n : nat) (i : Z) : list Z :=
  match n with
  | O => []
  | S n' => i :: descending n' (i - 1)
  end.

(** The banner and the prompts: all that [main] has written as long as it
    has not got past reading its inputs. *)
Definition asked (e : console) : Prop :=
  match e with
  | Banner | Prompt _ => True
  | _ => False
  end.

(** A step that, started with only banner and prompts written, leaves only
    banner and prompts written, and raises [EOFError] only with the input
    used up. *)
Definition asks_only {X : Type} (m : io X) : Prop :=
  forall w, Forall asked (stdout w) ->
    match m w with
    | (inl _, w') => Forall asked (stdout w')
    | (inr e, w') =>
        Forall asked (stdout w') /\ (e = EOFError -> stdin w' = [])
    end.

(** A step that does so when it raises, and has not written the input error
    message when it returns. *)
Definition fails_asking_only {X : Type} (m : io X) : Prop :=
  forall w, Forall asked (stdout w) ->
    match m w with
    | (inl _, w') => ~ In InputError (stdout w')
    | (inr e, w') =>
        Forall asked (stdout w') /\ (e = EOFError -> stdin w' = [])
    end.

End Driver.

Arguments figure F : clear implicits.
Arguments console F : clear implicits.
Arguments world F : clear implicits.
Arguments io F X : clear implicits.

Set Implicit Arguments.

(** ** A solve that runs out *)

(** The solve passes no convergence test: it runs every pass of
    [range(1, max_iter + 1)] and returns the count [max_iter]. *)
Definition runs_out {F : Type} {A : Arith F} (coeffs : list F) (a b tol : F)
           (max_iter : Z) : Prop :=
  let rows := table_rows (fst (bisection_method coeffs a b tol max_iter)) in
  (forall r, In r rows -> converged tol r = false) /\
  length rows = Z.to_nat max_iter /\
  exists c, snd (bisection_method coeffs a b tol max_iter)
              = Some (c, max_iter).

(** ** Sessions for the examples *)

(** A parser given by a table: the lines it reads, with what each parses
    to; any other line is a [ValueError]. *)
Fixpoint parse_by_table {X : Type} (table : list (String.string * X))
         (s : String.string) : option X :=
  match table with
  | [] => None
  | (line, x) :: rest =>
    if String.eqb s line then Some x else parse_by_table rest s
  end.

(** ** The loop and its runs *)

(** Induction on a run: no pass left, a pass that returns, a pass that
    narrows and goes on. *)
Ltac induction_on_run_of H :=
  induction H as [i a b c | n i a b c Hc | n i a b c rows e Hc Hrun IH].
Ltac induction_on_run :=
  let H := fresh "Hrun" in intros H; induction_on_run_of H.

Section Runs.
Context {F : Type} {A : Arith F}.
Variables (coeffs : list F) (tol : F).

(** One pass of the loop, in the vocabulary of the statements. *)
Lemma for_loop_pass (n : nat) (i : Z) (a b c : F) :
  for_loop coeffs tol (S n) i a b c =
  if converged tol (row_of coeffs i a b c) then
    ([row_of coeffs i a b c], Return (midpoint a b) i)
  else
    let (rows, e) :=
      for_loop coeffs tol n (i + 1) (fst (narrow coeffs a b))
               (snd (narrow coeffs a b)) (midpoint a b) in
    (row_of coeffs i a b c :: rows, e).
Proof.
  cbn [for_loop]. unfold converged, row_of, narrow, midpoint.
  cbn [rec_fc rec_error rec_i].
  destruct (_ || _); [reflexivity|].
  destruct (f_lt (f_mul _ _) f_zero); reflexivity.
Qed.

(** The function computes a run of the relation. *)
Lemma for_loop_run (n : nat) :
  forall (i : Z) (a b c : F),
    run coeffs tol n i a b c (fst (for_loop coeffs tol n i a b c))
        (snd (for_loop coeffs tol n i a b c)).
Proof.
  induction n as [|n IH]; intros i a b c.
  - apply run_exhausted.
  - rewrite for_loop_pass.
    destruct (converged tol (row_of coeffs i a b c)) eqn:Hconv.
    + now apply run_return.
    + specialize (IH (i + 1)%Z (fst (narrow coeffs a b))
                     (snd (narrow coeffs a b)) (midpoint a b)).
      destruct (for_loop coeffs tol n (i + 1) _ _ _) as [rows e].
      now apply run_narrow.
Qed.

(** A run prints at most one row per permitted pass. *)
Lemma run_length n i a b c rows e :
  run coeffs tol n i a b c rows e -> (length rows <= n)%nat.
Proof. induction 1; simpl; lia. Qed.

(** Row [k] belongs to pass [i + k]; it holds the midpoint of the interval
    it shows and the polynomial's value there. *)
Lemma run_row_shape n i a b c rows e :
  run coeffs tol n i a b c rows e ->
  forall k r, nth_error rows k = Some r ->
    rec_i r = (i + Z.of_nat k)%Z /\
    rec_c r = midpoint (rec_a r) (rec_b r) /\
    rec_fc r = evaluate_poly coeffs (rec_c r).
Proof.
  induction_on_run;
    intros k r Hk.
  - destruct k; discriminate.
  - destruct k as [|k]; [|destruct k; discriminate].
    injection Hk as <-. simpl. repeat split; lia.
  - destruct k as [|k].
    + injection Hk as <-. simpl. repeat split; lia.
    + destruct (IH k r Hk) as (Hi & Hmid & Hfc).
      repeat split; trivial; lia.
Qed.

(** The first row is the one computed from the variables the run starts
    with. *)
Lemma run_first_row n i a b c rows e :
  run coeffs tol n i a b c rows e ->
  forall r, nth_error rows 0 = Some r -> r = row_of coeffs i a b c.
Proof.
  destruct 1; simpl; intros r Hr; congruence.
Qed.

(** From one row to the next: the interval is the narrowed one, and the
    error is the distance between the two midpoints. *)
Lemma run_next_row n i a b c rows e :
  run coeffs tol n i a b c rows e -> (1 <= i)%Z ->
  forall k p r,
    nth_error rows k = Some p -> nth_error rows (S k) = Some r ->
    (rec_a r, rec_b r) = narrow coeffs (rec_a p) (rec_b p) /\
    rec_error r = f_abs (f_sub (rec_c r) (rec_c p)).
Proof.
  induction_on_run;
    intros Hi k p r Hp Hr.
  - destruct k; discriminate.
  - destruct k; discriminate.
  - destruct k as [|k].
    + injection Hp as <-. simpl in Hr.
      apply (run_first_row Hrun) in Hr. subst r. simpl.
      replace (i + 1 >? 1)%Z with true by (symmetry; apply Z.gtb_lt; lia).
      split; [symmetry; apply surjective_pairing | reflexivity].
    + apply (IH ltac:(lia) k p r); assumption.
Qed.

(** A run that ends by [return]: the last row passes the test, no earlier
    one does, and the pair returned is read off the last row. *)
Lemma run_exit_return n i a b c rows cr ir :
  run coeffs tol n i a b c rows (Return cr ir) ->
  exists front r,
    rows = front ++ [r] /\
    Forall (fun p => converged tol p = false) front /\
    converged tol r = true /\ cr = rec_c r /\ ir = rec_i r.
Proof.
  intros Hrun. remember (Return cr ir) as e eqn:He.
  induction_on_run_of Hrun.
  - discriminate.
  - injection He as <- <-.
    exists [], (row_of coeffs i a b c). simpl. auto.
  - destruct (IH He) as (front & r & -> & Hfront & Hr & Hcr & Hir).
    exists (row_of coeffs i a b c :: front), r. simpl. auto.
Qed.

(** A run that falls out of the loop: every permitted pass ran, none passed
    the test, and [c] is the last midpoint (or untouched when no pass
    ran). *)
Lemma run_exit_fallthrough n i a b c rows cf :
  run coeffs tol n i a b c rows (Fallthrough cf) ->
  length rows = n /\
  Forall (fun p => converged tol p = false) rows /\
  (rows = [] /\ cf = c \/
   exists front r, rows = front ++ [r] /\ cf = rec_c r).
Proof.
  intros Hrun. remember (Fallthrough cf) as e eqn:He.
  induction_on_run_of Hrun.
  - injection He as <-. auto.
  - discriminate.
  - destruct (IH He) as (Hlen & Hall & Hlast). simpl.
    repeat split; [lia | auto |]. right.
    destruct Hlast as [[-> ->] | (front & r & -> & ->)].
    + exists [], (row_of coeffs i a b c). auto.
    + exists (row_of coeffs i a b c :: front), r. auto.
Qed.

(** A row that is not the last fails the test. *)
Lemma run_followed_row n i a b c rows e :
  run coeffs tol n i a b c rows e ->
  forall k p, nth_error rows k = Some p -> (S k < length rows)%nat ->
    converged tol p = false.
Proof.
  induction_on_run;
    intros k p Hp Hlt; simpl in Hlt.
  - lia.
  - lia.
  - destruct k as [|k].
    + injection Hp as <-. exact Hc.
    + apply (IH k p Hp). lia.
Qed.

End Runs.

(** ** The solver *)

Section Solver.
Context {F : Type} {A : Arith F}.
Variables (coeffs : list F) (a b tol : F) (max_iter : Z).

Lemma table_rows_table (rows : list (iteration_record F)) :
  table_rows (TableHeader :: map (@TableRow F) rows) = rows.
Proof.
  unfold table_rows. cbn [flat_map app].
  induction rows as [|r rows IH]; simpl; congruence.
Qed.

Lemma nth_error_snoc (T : Type) (front : list T) (r : T) :
  nth_error (front ++ [r]) (length front) = Some r.
Proof.
  rewrite nth_error_app2 by lia. now rewrite Nat.sub_diag.
Qed.

(** Past the bracketing check, the solver prints the header and the rows
    of one run of the loop from [i = 1], [c = a], and returns what the run
    ends in. *)
Lemma solve_run :
  f_ge (f_mul (evaluate_poly coeffs a) (evaluate_poly coeffs b)) f_zero
    = false ->
  exists rows e,
    run coeffs tol (Z.to_nat max_iter) 1 a b a rows e /\
    table_rows (fst (bisection_method coeffs a b tol max_iter)) = rows /\
    snd (bisection_method coeffs a b tol max_iter) =
      Some match e with
           | Return c i => (c, i)
           | Fallthrough c => (c, max_iter)
           end.
Proof.
  intros Hcheck. unfold bisection_method. rewrite Hcheck.
  pose proof (for_loop_run coeffs tol (Z.to_nat max_iter) 1 a b a) as Hrun.
  destruct (for_loop coeffs tol (Z.to_nat max_iter) 1 a b a) as [rows e].
  exists rows, e. cbn [fst snd] in *.
  rewrite table_rows_table. auto.
Qed.

(** The rows of a solve that fails the check: there are none. *)
Lemma solve_rejected :
  f_ge (f_mul (evaluate_poly coeffs a) (evaluate_poly coeffs b)) f_zero
    = true ->
  bisection_method coeffs a b tol max_iter =
    ([ErrorReport (evaluate_poly coeffs a) (evaluate_poly coeffs b)], None).
Proof.
  intros Hcheck. unfold bisection_method. now rewrite Hcheck.
Qed.

(** Any row at all means the check was passed. *)
Lemma rows_imply_check (r : iteration_record F) :
  In r (table_rows (fst (bisection_method coeffs a b tol max_iter))) ->
  f_ge (f_mul (evaluate_poly coeffs a) (evaluate_poly coeffs b)) f_zero
    = false.
Proof.
  destruct (f_ge _ f_zero) eqn:Hcheck; [|reflexivity].
  rewrite (solve_rejected Hcheck). simpl. tauto.
Qed.

(** The last row of a solve, the pair returned, and why the loop stopped
    there. *)
Lemma solve_last_row :
  (0 < max_iter)%Z ->
  f_ge (f_mul (evaluate_poly coeffs a) (evaluate_poly coeffs b)) f_zero
    = false ->
  exists front r,
    table_rows (fst (bisection_method coeffs a b tol max_iter))
      = front ++ [r] /\
    snd (bisection_method coeffs a b tol max_iter)
      = Some (rec_c r, rec_i r) /\
    rec_i r = Z.of_nat (length (front ++ [r])) /\
    (rec_i r <= max_iter)%Z /\
    Forall (fun p => converged tol p = false) front /\
    (converged tol r = true \/ rec_i r = max_iter).
Proof.
  intros Hmax Hcheck.
  destruct (solve_run Hcheck) as (rows & e & Hrun & -> & ->).
  assert (Hidx : forall front r, rows = front ++ [r] ->
            rec_i r = Z.of_nat (length (front ++ [r]))).
  { intros front r ->.
    destruct (run_row_shape Hrun _ (nth_error_snoc front r)) as (Hi & _).
    rewrite Hi, length_app. cbn [length]. lia. }
  pose proof (run_length Hrun) as Hlen.
  destruct e as [cr ir | cf].
  - destruct (run_exit_return Hrun) as (front & r & -> & Hfront & Hr & -> & ->).
    exists front, r. repeat split; auto.
    rewrite (Hidx front r eq_refl). lia.
  - destruct (run_exit_fallthrough Hrun) as (Hn & Hall & Hlast).
    destruct Hlast as [[-> _] | (front & r & -> & ->)].
    + simpl in Hn. lia.
    + assert (Hi : rec_i r = max_iter)
        by (rewrite (Hidx front r eq_refl); lia).
      exists front, r. rewrite Hi. repeat split; auto; try lia.
      apply Forall_app in Hall. tauto.
Qed.

End Solver.

(** ** Termination and what the returned point satisfies *)





(** ** The bracketing check *)

(** C3.  When [f(a) * f(b) >= 0] the solver prints the report with [f(a)]
    and [f(b)], no table row (it runs no pass of the loop), and returns the
    "no result" value, which no solve that passes the check returns.  In
    particular for [x + 1] on [[0, 5]], where [f(0) = 1] and [f(5) = 6], in
    binary64 and in exact arithmetic, whatever [tol] and [max_iter]. *)
Theorem bracketing_failure_returns_no_result :
  (forall (F : Type) (A : Arith F) (coeffs : list F) (a b tol : F)
          (max_iter : Z),
      f_ge (f_mul (evaluate_poly coeffs a) (evaluate_poly coeffs b)) f_zero
        = true ->
      bisection_method coeffs a b tol max_iter =
        ([ErrorReport (evaluate_poly coeffs a) (evaluate_poly coeffs b)],
         None) /\
      table_rows (fst (bisection_method coeffs a b tol max_iter)) = []) /\
  (forall (F : Type) (A : Arith F) (coeffs : list F) (a b tol : F)
          (max_iter : Z),
      f_ge (f_mul (evaluate_poly coeffs a) (evaluate_poly coeffs b)) f_zero
        = false ->
      snd (bisection_method coeffs a b tol max_iter) <> None) /\
  (forall (tol : float) (max_iter : Z),
      bisection_method [1; 1]%float 0%float 5%float tol max_iter =
        ([ErrorReport 1%float 6%float], None)) /\
  (forall (tol : Q) (max_iter : Z),
      bisection_method [1; 1]%Q 0%Q 5%Q tol max_iter =
        ([ErrorReport 1%Q 6%Q], None)).
Proof.
  split; [|split; [|split]].
  - intros F A coeffs a b tol max_iter Hcheck.
    rewrite (solve_rejected coeffs a b tol max_iter Hcheck). now split.
  - intros F A coeffs a b tol max_iter Hcheck.
    destruct (solve_run coeffs a b tol max_iter Hcheck)
      as (rows & e & _ & _ & Hres).
    rewrite Hres. discriminate.
  - intros tol max_iter.
    exact (solve_rejected [1; 1]%float 0%float 5%float tol max_iter eq_refl).
  - intros tol max_iter.
    exact (solve_rejected [1; 1]%Q 0%Q 5%Q tol max_iter eq_refl).
Qed.

(** Scenario 3 in binary64. *)
Lemma bracketing_failure_scenario_3 :
  (f_ge (f_mul (evaluate_poly [1; 1] 0) (evaluate_poly [1; 1] 5)) f_zero
     = true)%float /\
  (bisection_method [1; 1] 0 5 tol_1e_4 50 =
     ([ErrorReport (evaluate_poly [1; 1] 0) (evaluate_poly [1; 1] 5)],
      None))%float /\
  table_rows (fst (bisection_method [1; 1]%float 0%float 5%float tol_1e_4 50))
    = [].
Proof.
  split; [reflexivity|].
  apply (proj1 bracketing_failure_returns_no_result float binary64).
  reflexivity.
Defined.

(** ** The laws of zero in the two arithmetics *)

Lemma exact_lt_iff (x y : Q) : f_lt x y = true <-> (x < y)%Q.
Proof.
  cbn. rewrite negb_true_iff, <- not_true_iff_false, Qle_bool_iff.
  split; [apply Qnot_le_lt | apply Qlt_not_le].
Qed.

Lemma exact_lt_false_iff (x y : Q) : f_lt x y = false <-> (y <= x)%Q.
Proof.
  cbn. now rewrite negb_false_iff, Qle_bool_iff.
Qed.

Lemma exact_ge_false_iff (x y : Q) : f_ge x y = false <-> (x < y)%Q.
Proof.
  cbn. rewrite <- not_true_iff_false, Qle_bool_iff.
  split; [apply Qnot_le_lt | apply Qlt_not_le].
Qed.

Lemma exact_eq_iff (x y : Q) : f_eq x y = true <-> (x == y)%Q.
Proof. cbn. apply Qeq_bool_iff. Qed.

#[export] Instance exact_laws : ArithLaws exact.
Proof.
  split.
  - intros x Hx. apply exact_eq_iff in Hx. apply exact_lt_false_iff.
    cbn in *. rewrite Hx. apply Qle_refl.
  - intros x tol Hx Htol. apply exact_eq_iff in Hx.
    apply exact_lt_iff in Htol. apply exact_lt_iff.
    cbn in *. now rewrite Hx.
Qed.

(** A binary64 number that compares equal to [0] is [+0] or [-0]. *)
Lemma binary64_zero (x : float) :
  PrimFloat.eqb x 0%float = true -> x = 0%float \/ x = (-0)%float.
Proof.
  rewrite eqb_spec. intros Hx.
  rewrite <- (SF2Prim_Prim2SF x).
  destruct (Prim2SF x) as [[|] | [|] | | [|] m e]; try discriminate Hx.
  - now right.
  - now left.
Qed.

#[export] Instance binary64_laws : ArithLaws binary64.
Proof.
  split.
  - intros x Hx. cbn in *. rewrite eqb_spec in Hx. rewrite ltb_spec.
    unfold SFeqb in Hx. unfold SFltb.
    now destruct (SFcompare (Prim2SF x) (Prim2SF 0)) as [[| |]|].
  - intros x tol Hx Htol. cbn in *.
    now destruct (binary64_zero Hx) as [-> | ->].
Qed.

(** ** Which pass returns *)

Lemma nth_error_snoc_inv (T : Type) (front : list T) (r' r : T) (k : nat) :
  nth_error (front ++ [r']) k = Some r ->
  (k < length front)%nat /\ nth_error front k = Some r \/
  k = length front /\ r = r'.
Proof.
  intros Hk. destruct (Nat.lt_ge_cases k (length front)) as [Hlt | Hge].
  - left. rewrite nth_error_app1 in Hk by assumption. auto.
  - right. rewrite nth_error_app2 in Hk by assumption.
    destruct (k - length front)%nat as [|j] eqn:Hj.
    + split; [lia | now injection Hk].
    + destruct j; discriminate.
Qed.

(** A solve that printed a row was allowed at least one pass. *)
Lemma rows_imply_passes (F : Type) (A : Arith F) (coeffs : list F)
      (a b tol : F) (max_iter : Z) (k : nat) (r : iteration_record F) :
  nth_error (table_rows (fst (bisection_method coeffs a b tol max_iter))) k
    = Some r ->
  f_ge (f_mul (evaluate_poly coeffs a) (evaluate_poly coeffs b)) f_zero
    = false /\ (0 < max_iter)%Z.
Proof.
  intros Hk.
  assert (Hcheck := rows_imply_check coeffs a b tol max_iter r
                      (nth_error_In _ _ Hk)).
  split; [exact Hcheck|].
  destruct (solve_run coeffs a b tol max_iter Hcheck)
    as (rows & e & Hrun & Hrows & _).
  rewrite Hrows in Hk. apply run_length in Hrun.
  assert (k < length rows)%nat by (apply nth_error_Some; congruence).
  lia.
Qed.

(** The shape of a non-empty table: its last row, and why the loop stopped
    there. *)
Lemma solve_table_shape (F : Type) (A : Arith F) (coeffs : list F)
      (a b tol : F) (max_iter : Z) (k : nat) (r : iteration_record F) :
  nth_error (table_rows (fst (bisection_method coeffs a b tol max_iter))) k
    = Some r ->
  exists front r',
    table_rows (fst (bisection_method coeffs a b tol max_iter))
      = front ++ [r'] /\
    snd (bisection_method coeffs a b tol max_iter)
      = Some (rec_c r', rec_i r') /\
    Forall (fun p => converged tol p = false) front /\
    (converged tol r' = true \/ rec_i r' = max_iter).
Proof.
  intros Hk.
  destruct (@rows_imply_passes F A coeffs a b tol max_iter k r Hk)
    as (Hcheck & Hmax).
  destruct (solve_last_row coeffs a b tol Hmax Hcheck)
    as (front & r' & H1 & H2 & _ & _ & H3 & H4).
  exists front, r'. auto.
Qed.

(** The row that passes the test is the last one, and its [(c, i)] is
    returned. *)
Lemma solve_converged_row (F : Type) (A : Arith F) (coeffs : list F)
      (a b tol : F) (max_iter : Z) (k : nat) (r : iteration_record F) :
  let rows := table_rows (fst (bisection_method coeffs a b tol max_iter)) in
  nth_error rows k = Some r -> converged tol r = true ->
  snd (bisection_method coeffs a b tol max_iter) = Some (rec_c r, rec_i r) /\
  length rows = S k /\
  forall j p, (j < k)%nat -> nth_error rows j = Some p ->
              converged tol p = false.
Proof.
  intros rows Hk Hconv.
  destruct (@solve_table_shape F A coeffs a b tol max_iter k r Hk)
    as (front & r' & Hsplit & Hret & Hfront & _).
  fold rows in Hsplit. rewrite Hsplit in Hk |- *.
  rewrite Forall_forall in Hfront.
  destruct (nth_error_snoc_inv _ _ _ Hk) as [(_ & Hin) | (-> & ->)].
  - apply nth_error_In, Hfront in Hin. congruence.
  - split; [exact Hret|].
    split; [rewrite length_app; cbn [length]; lia|].
    intros j p Hj Hp. rewrite nth_error_app1 in Hp by assumption.
    apply (Hfront p). exact (nth_error_In _ _ Hp).
Qed.

(** After a row that fails the test comes another pass, unless the row is
    that of pass [max_iter]. *)
Lemma solve_failed_row (F : Type) (A : Arith F) (coeffs : list F)
      (a b tol : F) (max_iter : Z) (k : nat) (r : iteration_record F) :
  let rows := table_rows (fst (bisection_method coeffs a b tol max_iter)) in
  nth_error rows k = Some r -> converged tol r = false ->
  (exists r', nth_error rows (S k) = Some r') \/
  (rec_i r = max_iter /\ length rows = S k /\
   snd (bisection_method coeffs a b tol max_iter) = Some (rec_c r, max_iter)).
Proof.
  intros rows Hk Hconv.
  destruct (@solve_table_shape F A coeffs a b tol max_iter k r Hk)
    as (front & r' & Hsplit & Hret & _ & Hstop).
  fold rows in Hsplit. rewrite Hsplit in Hk |- *.
  destruct (nth_error_snoc_inv _ _ _ Hk) as [(Hlt & _) | (-> & ->)].
  - left. destruct (nth_error (front ++ [r']) (S k)) as [q|] eqn:Hq.
    + now exists q.
    + apply nth_error_None in Hq. rewrite length_app in Hq.
      cbn [length] in Hq. lia.
  - right. destruct Hstop as [Hconv' | Hi]; [congruence|].
    rewrite Hret, Hi, length_app. cbn [length].
    repeat split; trivial. lia.
Qed.

(** C2.  In a solve that passes the bracketing check, row [k] of the table
    (counting from 0) belongs to pass [k + 1] and holds the midpoint [c] of
    its interval and [f(c)]; the error of pass 1 is [|b - a|] over the bounds
    given, the error of a later pass is the distance between its midpoint and
    the previous one; a pass whose row passes the convergence test is the
    last one, no earlier row passes the test, and the solver returns that
    row's [(c, i)]; a pass whose row fails the test is followed by another
    pass, unless it is pass [max_iter]. *)
Theorem bisection_returns_at_first_converged_pass :
  forall (F : Type) (A : Arith F) (coeffs : list F) (a b tol : F)
         (max_iter : Z),
    f_ge (f_mul (evaluate_poly coeffs a) (evaluate_poly coeffs b)) f_zero
      = false ->
    let rows := table_rows (fst (bisection_method coeffs a b tol max_iter)) in
    let result := snd (bisection_method coeffs a b tol max_iter) in
    (forall k r, nth_error rows k = Some r ->
       rec_i r = (Z.of_nat k + 1)%Z /\
       rec_c r = f_div (f_add (rec_a r) (rec_b r)) f_two /\
       rec_fc r = evaluate_poly coeffs (rec_c r)) /\
    (forall r, nth_error rows 0 = Some r ->
       rec_a r = a /\ rec_b r = b /\ rec_error r = f_abs (f_sub b a)) /\
    (forall k p r, nth_error rows k = Some p ->
       nth_error rows (S k) = Some r ->
       rec_error r = f_abs (f_sub (rec_c r) (rec_c p))) /\
    (forall k r, nth_error rows k = Some r -> converged tol r = true ->
       result = Some (rec_c r, rec_i r) /\
       length rows = S k /\
       forall j p, (j < k)%nat -> nth_error rows j = Some p ->
                   converged tol p = false) /\
    (forall k r, nth_error rows k = Some r -> converged tol r = false ->
       (exists r', nth_error rows (S k) = Some r') \/
       (rec_i r = max_iter /\ length rows = S k /\
        result = Some (rec_c r, max_iter))).
Proof.
  intros F A coeffs a b tol max_iter Hcheck rows result.
  destruct (solve_run coeffs a b tol max_iter Hcheck)
    as (rows' & e & Hrun & Hrows & Hres).
  fold rows in Hrows. subst rows'.
  split; [|split; [|split; [|split]]].
  - intros k r Hk.
    destruct (run_row_shape Hrun _ Hk) as (Hi & Hmid & Hfc).
    repeat split; trivial. lia.
  - intros r Hr. rewrite (run_first_row Hrun Hr). simpl. auto.
  - intros k p r Hp Hr.
    exact (proj2 (run_next_row Hrun ltac:(lia) k Hp Hr)).
  - intros k r. apply solve_converged_row.
  - intros k r. apply solve_failed_row.
Qed.

(** Scenario 1 in binary64: the check passes, and the first row to pass the
    test is that of pass 15, whose midpoint [2 - 2^-15] is returned. *)
Lemma first_converged_pass_scenario_1 :
  (f_ge (f_mul (evaluate_poly [1; 0; -4] 0) (evaluate_poly [1; 0; -4] 3))
        f_zero = false)%float /\
  (forall k r,
      nth_error
        (table_rows (fst (bisection_method [1; 0; -4] 0 3 tol_1e_4 50))) k
        = Some r ->
      converged tol_1e_4 r = true ->
      snd (bisection_method [1; 0; -4] 0 3 tol_1e_4 50)
        = Some (rec_c r, rec_i r))%float /\
  (exists r,
      nth_error
        (table_rows (fst (bisection_method [1; 0; -4] 0 3 tol_1e_4 50))) 14
        = Some r /\
      converged tol_1e_4 r = true /\ rec_i r = 15%Z /\
      rec_c r = 0x1.fffep0)%float.
Proof.
  split; [reflexivity|]. split.
  - intros k r Hk Hconv.
    apply (proj1 (proj2 (proj2 (proj2
             (@bisection_returns_at_first_converged_pass float binary64
                [1; 0; -4]%float 0%float 3%float tol_1e_4 50 eq_refl))))
             k r Hk Hconv).
  - vm_compute. eexists. repeat split.
Defined.

(** ** Exhaustion *)

(** C5.  When the solve passes the bracketing check and no row of the table
    passes the convergence test, every pass of [range(1, max_iter + 1)] runs
    and the solver returns [(c, max_iter)], [c] being the midpoint of the
    last pass, which is pass [max_iter] (and the initial [c = a] when
    [max_iter <= 0] leaves the loop no pass).  In particular [x^2 - 4] on
    [[0, 3]] with [tol = 1e-4] and [max_iter = 2] returns the midpoint [2.25]
    of pass 2 and the count 2, in binary64 and in exact arithmetic. *)
Theorem exhaustion_returns_last_midpoint :
  (forall (F : Type) (A : Arith F) (coeffs : list F) (a b tol : F)
          (max_iter : Z),
      let rows :=
        table_rows (fst (bisection_method coeffs a b tol max_iter)) in
      f_ge (f_mul (evaluate_poly coeffs a) (evaluate_poly coeffs b)) f_zero
        = false ->
      (forall r, In r rows -> converged tol r = false) ->
      length rows = Z.to_nat max_iter /\
      exists c,
        snd (bisection_method coeffs a b tol max_iter) = Some (c, max_iter) /\
        ((max_iter <= 0)%Z /\ rows = [] /\ c = a \/
         exists front r,
           rows = front ++ [r] /\ rec_i r = max_iter /\
           rec_c r = f_div (f_add (rec_a r) (rec_b r)) f_two /\
           c = rec_c r)) /\
  (bisection_method [1; 0; -4] 0 3 tol_1e_4 2 =
     ([TableHeader;
       TableRow {| rec_i := 1; rec_a := 0; rec_b := 3; rec_c := 1.5;
                   rec_fc := -1.75; rec_error := 3 |};
       TableRow {| rec_i := 2; rec_a := 1.5; rec_b := 3; rec_c := 2.25;
                   rec_fc := 1.0625; rec_error := 0.75 |}],
      Some (2.25, 2%Z)))%float /\
  (exists c, snd (bisection_method [1; 0; -4] 0 3 (1 # 10000) 2)
               = Some (c, 2%Z) /\ c == 9 # 4)%Q.
Proof.
  split; [|split].
  - intros F A coeffs a b tol max_iter rows Hcheck Hnone.
    destruct (solve_run coeffs a b tol max_iter Hcheck)
      as (rows' & e & Hrun & Hrows & Hres).
    fold rows in Hrows. subst rows'. rewrite Hres.
    destruct e as [cr ir | cf].
    + exfalso.
      destruct (run_exit_return Hrun) as (front & r & Hsplit & _ & Hr & _).
      rewrite Hnone in Hr; [discriminate|].
      rewrite Hsplit. apply in_or_app. right. now left.
    + destruct (run_exit_fallthrough Hrun) as (Hlen & _ & Hlast).
      split; [exact Hlen|]. exists cf. split; [reflexivity|].
      destruct Hlast as [(Hnil & ->) | (front & r & Hsplit & ->)].
      * left. rewrite Hnil in Hlen. cbn [length] in Hlen.
        repeat split; trivial. lia.
      * right. exists front, r.
        assert (Hk : nth_error rows (length front) = Some r)
          by (rewrite Hsplit; apply nth_error_snoc).
        destruct (run_row_shape Hrun _ Hk) as (Hi & Hmid & _).
        rewrite Hsplit, length_app in Hlen. cbn [length] in Hlen.
        repeat split; trivial. lia.
  - reflexivity.
  - eexists. split; reflexivity.
Qed.

(** Scenario 4 in binary64: both rows fail the test. *)
Lemma exhaustion_scenario_4 :
  (f_ge (f_mul (evaluate_poly [1; 0; -4] 0) (evaluate_poly [1; 0; -4] 3))
        f_zero = false)%float /\
  (forall r,
      In r (table_rows (fst (bisection_method [1; 0; -4] 0 3 tol_1e_4 2))) ->
      converged tol_1e_4 r = false)%float /\
  (length (table_rows (fst (bisection_method [1; 0; -4] 0 3 tol_1e_4 2)))
     = Z.to_nat 2 /\
   exists c,
     snd (bisection_method [1; 0; -4] 0 3 tol_1e_4 2) = Some (c, 2%Z) /\
     ((2 <= 0)%Z /\
      table_rows (fst (bisection_method [1; 0; -4] 0 3 tol_1e_4 2)) = [] /\
      c = 0 \/
      exists front r,
        table_rows (fst (bisection_method [1; 0; -4] 0 3 tol_1e_4 2))
          = front ++ [r] /\
        rec_i r = 2%Z /\
        rec_c r = f_div (f_add (rec_a r) (rec_b r)) f_two /\
        c = rec_c r))%float.
Proof.
  assert (Hnone : (forall r,
      In r (table_rows (fst (bisection_method [1; 0; -4] 0 3 tol_1e_4 2))) ->
      converged tol_1e_4 r = false)%float).
  { intros r [<- | [<- | []]]; reflexivity. }
  split; [reflexivity|]. split; [exact Hnone|].
  exact (proj1 exhaustion_returns_last_midpoint float binary64
           [1; 0; -4]%float 0%float 3%float tol_1e_4 2%Z eq_refl Hnone).
Defined.

(** ** Narrowing *)

(** C4.  A pass whose row fails the convergence test narrows the interval
    by the sign of [f(a) * f(c)], with [f(a)] evaluated at the [a] the pass
    holds: [b = c] when the product is below zero, [a = c] otherwise.  Stated
    for one pass of the loop from any state, and for two consecutive rows of
    a solve's table; when the product compares equal to zero, the next
    interval is [[c, b]].  That the value is the one at the current [a]
    shows in binary64 on [f(x) = 2^-538 * x], [[-1, 4]], [tol = 2^-600]:
    pass 2 starts with [a = 1.5] and has [c = 2.75]; [f(1.5) * f(2.75)] is
    not below zero and pass 3 starts with [a = 2.75], whereas the value
    [f(-1)] computed for the bracketing check gives [f(-1) * f(2.75) < 0]. *)
Theorem narrowing_follows_strict_sign_test :
  (forall (F : Type) (A : Arith F) (coeffs : list F) (tol : F) (n : nat)
          (i : Z) (a b prev_c : F),
      let c := f_div (f_add a b) f_two in
      let product := f_mul (evaluate_poly coeffs a) (evaluate_poly coeffs c) in
      converged tol (row_of coeffs i a b prev_c) = false ->
      for_loop coeffs tol (S n) i a b prev_c =
        (row_of coeffs i a b prev_c
           :: fst (if f_lt product f_zero
                   then for_loop coeffs tol n (i + 1) a c c
                   else for_loop coeffs tol n (i + 1) c b c),
         snd (if f_lt product f_zero
              then for_loop coeffs tol n (i + 1) a c c
              else for_loop coeffs tol n (i + 1) c b c))) /\
  (forall (F : Type) (A : Arith F) (coeffs : list F) (a b tol : F)
          (max_iter : Z) (k : nat) (p r : iteration_record F),
      let rows :=
        table_rows (fst (bisection_method coeffs a b tol max_iter)) in
      let product := f_mul (evaluate_poly coeffs (rec_a p)) (rec_fc p) in
      nth_error rows k = Some p -> nth_error rows (S k) = Some r ->
      converged tol p = false /\
      (f_lt product f_zero = true -> rec_a r = rec_a p /\ rec_b r = rec_c p) /\
      (f_lt product f_zero = false -> rec_a r = rec_c p /\ rec_b r = rec_b p) /\
      (ArithLaws A -> f_eq product f_zero = true ->
       rec_a r = rec_c p /\ rec_b r = rec_b p)) /\
  (table_rows (fst (bisection_method [0x1p-538; 0] (-1) 4 0x1p-600 3)) =
     [ {| rec_i := 1; rec_a := -1; rec_b := 4; rec_c := 1.5;
          rec_fc := 0x1.8p-538; rec_error := 5 |};
       {| rec_i := 2; rec_a := 1.5; rec_b := 4; rec_c := 2.75;
          rec_fc := 0x1.6p-537; rec_error := 1.25 |};
       {| rec_i := 3; rec_a := 2.75; rec_b := 4; rec_c := 3.375;
          rec_fc := 0x1.bp-537; rec_error := 0.625 |} ] /\
   f_lt (f_mul (evaluate_poly [0x1p-538; 0] 1.5) 0x1.6p-537) f_zero = false /\
   f_lt (f_mul (evaluate_poly [0x1p-538; 0] (-1)) 0x1.6p-537) f_zero
     = true)%float.
Proof.
  split; [|split; [|vm_compute; repeat split; reflexivity]].
  - intros F A coeffs tol n i a b prev_c c product Hconv.
    rewrite for_loop_pass, Hconv. subst c product. unfold narrow, midpoint.
    destruct (f_lt (f_mul _ _) f_zero); cbn [fst snd];
      now destruct (for_loop coeffs tol n (i + 1) _ _ _).
  - intros F A coeffs a b tol max_iter k p r rows product Hp Hr.
    destruct (@rows_imply_passes F A coeffs a b tol max_iter k p Hp)
      as (Hcheck & _).
    destruct (solve_run coeffs a b tol max_iter Hcheck)
      as (rows' & e & Hrun & Hrows & _).
    fold rows in Hrows. subst rows'.
    destruct (run_row_shape Hrun _ Hp) as (_ & Hmid & Hfc).
    destruct (run_next_row Hrun ltac:(lia) k Hp Hr) as (Hnarrow & _).
    unfold narrow in Hnarrow. rewrite <- Hmid, <- Hfc in Hnarrow.
    fold product in Hnarrow.
    assert (Hstrict :
      (f_lt product f_zero = true -> rec_a r = rec_a p /\ rec_b r = rec_c p) /\
      (f_lt product f_zero = false -> rec_a r = rec_c p /\ rec_b r = rec_b p)).
    { destruct (f_lt product f_zero); injection Hnarrow as -> ->;
        split; intros; [auto | discriminate | discriminate | auto]. }
    split; [|split; [tauto | split; [tauto|]]].
    + apply (run_followed_row Hrun Hp).
      apply nth_error_Some. congruence.
    + intros L Hzero. apply Hstrict. now apply zero_not_negative.
Qed.

(** In binary64 the product of pass 1 on [f(x) = 2^-538 * x], [[-1, 4]] is
    [-2^-538 * 1.5 * 2^-538], which rounds to [-0]: it compares equal to zero
    and pass 2 starts with [a = c = 1.5]. *)
Lemma narrowing_on_underflowing_product :
  (exists p r,
      nth_error (table_rows (fst (bisection_method [0x1p-538; 0] (-1) 4
                                                   0x1p-600 3))) 0 = Some p /\
      nth_error (table_rows (fst (bisection_method [0x1p-538; 0] (-1) 4
                                                   0x1p-600 3))) 1 = Some r /\
      f_eq (f_mul (evaluate_poly [0x1p-538; 0] (rec_a p)) (rec_fc p)) f_zero
        = true /\
      rec_c p = 1.5 /\ rec_a r = rec_c p /\ rec_b r = rec_b p)%float.
Proof.
  eexists; eexists.
  split; [reflexivity|]. split; [reflexivity|]. split; [reflexivity|].
  split; [reflexivity|].
  refine (proj2 (proj2 (proj2
            (proj1 (proj2 narrowing_follows_strict_sign_test) float binary64
               [0x1p-538; 0]%float (-1)%float 4%float 0x1p-600%float 3%Z
               0%nat _ _ eq_refl eq_refl)))
            binary64_laws eq_refl).
Defined.

(** ** A midpoint that is exactly a root *)

(** C10.  With [tol > 0], a pass whose midpoint [c] has [f(c) == 0] passes
    the convergence test and returns before it narrows: the loop, from any
    state, ends in that pass with [(c, i)]; in the table of a solve the row
    of such a pass is the one returned, and every row that fails the test, so
    that its pass goes on to narrow, has [f(c)] different from zero. *)
Theorem zero_midpoint_returns_before_narrowing :
  forall (F : Type) (A : Arith F) (coeffs : list F) (tol : F),
    ArithLaws A ->
    f_lt f_zero tol = true ->
    (forall (n : nat) (i : Z) (a b prev_c : F),
        let c := f_div (f_add a b) f_two in
        f_eq (evaluate_poly coeffs c) f_zero = true ->
        for_loop coeffs tol (S n) i a b prev_c =
          ([row_of coeffs i a b prev_c], Return c i)) /\
    (forall (a b : F) (max_iter : Z) (r : iteration_record F),
        In r (table_rows (fst (bisection_method coeffs a b tol max_iter))) ->
        (f_eq (rec_fc r) f_zero = true ->
         converged tol r = true /\
         snd (bisection_method coeffs a b tol max_iter)
           = Some (rec_c r, rec_i r)) /\
        (converged tol r = false -> f_eq (rec_fc r) f_zero = false)).
Proof.
  intros F A coeffs tol L Htol.
  assert (Hzero : forall r : iteration_record F,
            f_eq (rec_fc r) f_zero = true -> converged tol r = true).
  { intros r Hr. unfold converged.
    now rewrite (abs_zero_below _ _ Hr Htol). }
  split.
  - intros n i a b prev_c c Hc.
    rewrite for_loop_pass, (Hzero (row_of coeffs i a b prev_c) Hc).
    reflexivity.
  - intros a b max_iter r Hin.
    destruct (In_nth_error _ _ Hin) as (k & Hk). split.
    + intros Hr. split; [now apply Hzero|].
      now apply (@solve_converged_row F A coeffs a b tol max_iter k r Hk),
                Hzero.
    + intros Hconv. destruct (f_eq (rec_fc r) f_zero) eqn:Hr; [|reflexivity].
      rewrite (Hzero r Hr) in Hconv. discriminate.
Qed.

(** Scenario 2 ([x - 1] on [[0, 2]], [tol = 1e-6]) in binary64: the first
    midpoint is the root [1], and pass 1 returns it. *)
Lemma zero_midpoint_scenario_2 :
  (ArithLaws binary64 /\
   f_lt f_zero tol_1e_6 = true /\
   bisection_method [1; -1] 0 2 tol_1e_6 50 =
     ([TableHeader;
       TableRow (row_of [1; -1] 1 0 2 0)], Some (1, 1%Z)))%float.
Proof.
  split; [exact binary64_laws|]. split; [reflexivity|].
  unfold bisection_method.
  replace (f_ge _ f_zero) with false by reflexivity.
  change (Z.to_nat 50) with (S 49).
  now rewrite (proj1 (@zero_midpoint_returns_before_narrowing float binary64
                        [1; -1]%float tol_1e_6 binary64_laws eq_refl)
                     49%nat 1%Z 0%float 2%float 0%float eq_refl).
Defined.

Unset Implicit Arguments.

(** ** The arithmetic of doubles *)

Section Doubles.
Local Open Scope Z_scope.

(** *** The number of bits of a mantissa *)

(** The exponent of the grid for a number with [x - e] bits before
    exponent [e]: 53 bits are kept, and no exponent is below [-1074]. *)
Lemma fexp_eq (x : Z) : fexp prec emax x = Z.max (x - 53) (-1074).
Proof. reflexivity. Qed.

(** [digits2_pos p] is the number of bits of [p]. *)
Lemma digits2_pos_bounds (p : positive) :
  2 ^ (Zpos (digits2_pos p) - 1) <= Zpos p < 2 ^ Zpos (digits2_pos p).
Proof.
  induction p as [p IH | p IH |]; cbn [digits2_pos].
  - rewrite Pos2Z.inj_succ.
    replace (Z.succ (Zpos (digits2_pos p)) - 1)
      with (Z.succ (Zpos (digits2_pos p) - 1)) by lia.
    rewrite !Z.pow_succ_r by lia. lia.
  - rewrite Pos2Z.inj_succ.
    replace (Z.succ (Zpos (digits2_pos p)) - 1)
      with (Z.succ (Zpos (digits2_pos p) - 1)) by lia.
    rewrite !Z.pow_succ_r by lia. lia.
  - cbn. lia.
Qed.

Lemma Zdigits2_bounds (m : Z) :
  0 < m -> 2 ^ (Zdigits2 m - 1) <= m < 2 ^ Zdigits2 m.
Proof.
  destruct m as [|p|p]; try lia. intros _. apply digits2_pos_bounds.
Qed.

Lemma Zdigits2_pos (m : Z) : 0 < m -> 0 < Zdigits2 m.
Proof. destruct m; cbn; lia. Qed.

Lemma Zdigits2_nonneg (m : Z) : 0 <= Zdigits2 m.
Proof. destruct m; cbn; lia. Qed.

Lemma Zdigits2_unique (m d : Z) :
  2 ^ (d - 1) <= m < 2 ^ d -> 0 < m -> Zdigits2 m = d.
Proof.
  intros Hd Hm. pose proof (Zdigits2_bounds m Hm) as Hb.
  pose proof (Zdigits2_pos m Hm) as Hp.
  assert (0 < d).
  { destruct (Z.lt_ge_cases 0 d); trivial.
    assert (2 ^ d <= 2 ^ 0) by (destruct (Z.eq_dec d 0) as [->|]; [lia|];
       rewrite Z.pow_neg_r by lia; cbn; lia).
    cbn in *. lia. }
  destruct (Z.lt_trichotomy (Zdigits2 m) d) as [Hlt | [Heq | Hgt]]; trivial.
  - assert (2 ^ Zdigits2 m <= 2 ^ (d - 1)) by (apply Z.pow_le_mono_r; lia). lia.
  - assert (2 ^ d <= 2 ^ (Zdigits2 m - 1)) by (apply Z.pow_le_mono_r; lia). lia.
Qed.

(** A mantissa has at most [k] bits when it is below [2^k]. *)
Lemma Zdigits2_le (m k : Z) :
  0 <= m -> 0 <= k -> (Zdigits2 m <= k <-> m < 2 ^ k).
Proof.
  intros Hm Hk. destruct (Z.eq_dec m 0) as [-> | Hne].
  - cbn. split; intros; [apply Z.pow_pos_nonneg; lia | lia].
  - pose proof (Zdigits2_bounds m ltac:(lia)) as Hb.
    pose proof (Zdigits2_pos m ltac:(lia)) as Hp. split; intros H.
    + assert (2 ^ Zdigits2 m <= 2 ^ k) by (apply Z.pow_le_mono_r; lia). lia.
    + destruct (Z.le_gt_cases (Zdigits2 m) k); trivial.
      assert (2 ^ k <= 2 ^ (Zdigits2 m - 1)) by (apply Z.pow_le_mono_r; lia).
      lia.
Qed.

Lemma Zdigits2_ge (m k : Z) :
  0 <= m -> 0 <= k -> (k < Zdigits2 m <-> 2 ^ k <= m).
Proof.
  intros Hm Hk. pose proof (Zdigits2_le m k Hm Hk). lia.
Qed.

(** *** Shifting a mantissa right *)

(** One shift halves the mantissa, rounding down. *)
Lemma shr_1_m (mrs : shr_record) :
  0 <= shr_m mrs -> shr_m (shr_1 mrs) = shr_m mrs / 2.
Proof.
  destruct mrs as [m r s]. cbn [shr_m]. intros Hm.
  destruct m as [|[p|p|]|p]; cbn [shr_1 shr_m]; try lia.
  - reflexivity.
  - rewrite Pos2Z.inj_xI. apply Z.div_unique with 1; lia.
  - rewrite Pos2Z.inj_xO. apply Z.div_unique with 0; lia.
  - reflexivity.
Qed.

(** A shift of an even mantissa with no bit lost so far loses none. *)
Lemma shr_1_exact (mrs : shr_record) :
  0 <= shr_m mrs -> shr_m mrs mod 2 = 0 ->
  shr_r mrs = false -> shr_s mrs = false ->
  shr_r (shr_1 mrs) = false /\ shr_s (shr_1 mrs) = false.
Proof.
  destruct mrs as [m r s]. cbn [shr_m shr_r shr_s]. intros Hm Heven -> ->.
  destruct m as [|[p|p|]|p]; cbn [shr_1 shr_r shr_s orb]; try lia; auto.
  - rewrite Pos2Z.inj_xI in Heven.
    replace (2 * Zpos p + 1) with (1 + Zpos p * 2) in Heven by lia.
    rewrite Z.mod_add in Heven by lia. discriminate.
  - discriminate.
Qed.

(** What holds after [p] rounds of [f], by counting the rounds. *)
Lemma iter_pos_count (A : Type) (f : A -> A) (P : Z -> A -> Prop) :
  (forall k x, 0 <= k -> P k x -> P (k + 1) (f x)) ->
  forall (p : positive) (k : Z) (x : A),
    0 <= k -> P k x -> P (k + Zpos p) (iter_pos f p x).
Proof.
  intros Hstep. induction p as [p IH | p IH |]; intros k x Hk Hx;
    cbn [iter_pos].
  - rewrite Pos2Z.inj_xI.
    replace (k + (2 * Zpos p + 1)) with (k + 1 + Zpos p + Zpos p) by lia.
    apply IH; [lia|]. apply IH; [lia|]. now apply Hstep.
  - rewrite Pos2Z.inj_xO.
    replace (k + 2 * Zpos p) with (k + Zpos p + Zpos p) by lia.
    apply IH; [lia|]. now apply IH.
  - now apply Hstep.
Qed.

(** [p] shifts divide the mantissa by [2^p], rounding down, and lose no
    bit when that division is exact. *)
Lemma iter_shr_1 (mrs : shr_record) (p : positive) :
  0 <= shr_m mrs ->
  shr_m (iter_pos shr_1 p mrs) = shr_m mrs / 2 ^ Zpos p /\
  (shr_m mrs mod 2 ^ Zpos p = 0 -> shr_r mrs = false -> shr_s mrs = false ->
   shr_r (iter_pos shr_1 p mrs) = false /\
   shr_s (iter_pos shr_1 p mrs) = false).
Proof.
  intros Hm.
  pose (P := fun (k : Z) (x : shr_record) =>
    shr_m x = shr_m mrs / 2 ^ k /\
    (shr_m mrs mod 2 ^ k = 0 -> shr_r mrs = false -> shr_s mrs = false ->
     shr_r x = false /\ shr_s x = false)).
  assert (Hall : P (0 + Zpos p) (iter_pos shr_1 p mrs)).
  { apply iter_pos_count; [|lia|].
    - intros k x Hk (Hx & Hex).
      assert (Hpk : 0 < 2 ^ k) by (apply Z.pow_pos_nonneg; lia).
      assert (Hxnn : 0 <= shr_m x)
        by (rewrite Hx; apply Z.div_pos; lia).
      split.
      + rewrite shr_1_m by exact Hxnn. rewrite Hx.
        rewrite Z.pow_add_r by lia. rewrite Z.div_div by lia. reflexivity.
      + intros Hmod Hr Hs.
        rewrite Z.pow_add_r in Hmod by lia.
        assert (Hdiv : shr_m mrs
                       = 2 ^ k * 2 ^ 1 * (shr_m mrs / (2 ^ k * 2 ^ 1)))
          by (apply Z.div_exact; [lia | exact Hmod]).
        assert (Hmodk : shr_m mrs mod 2 ^ k = 0).
        { rewrite Hdiv. rewrite <- Z.mul_assoc, Z.mul_comm.
          apply Z.mod_mul. lia. }
        destruct (Hex Hmodk Hr Hs) as (Hr' & Hs').
        apply shr_1_exact; trivial.
        rewrite Hx. rewrite Hdiv at 1.
        rewrite <- Z.mul_assoc, Z.mul_comm, Z.div_mul by lia.
        rewrite Z.mul_comm. apply Z.mod_mul. lia.
    - split; [now rewrite Z.pow_0_r, Z.div_1_r | auto]. }
  exact Hall.
Qed.

(** *** What [binary_round_aux] returns *)

Lemma shr_record_of_loc_m (m : Z) (l : location) :
  shr_m (shr_record_of_loc m l) = m.
Proof. destruct l as [|[| |]]; reflexivity. Qed.

(** [shr_fexp] shifts by as many bits as the mantissa has beyond 53, or
    beyond what exponent [-1074] allows, and not at all when it has none. *)
Lemma shr_fexp_spec (m e : Z) (l : location) :
  0 <= m ->
  let n := Z.max 0 (fexp prec emax (Zdigits2 m + e) - e) in
  exists mrs,
    shr_fexp prec emax m e l = (mrs, e + n) /\
    shr_m mrs = m / 2 ^ n /\
    (l = loc_Exact -> m mod 2 ^ n = 0 -> loc_of_shr_record mrs = loc_Exact).
Proof.
  intros Hm n. unfold shr_fexp, shr. subst n.
  destruct (fexp prec emax (Zdigits2 m + e) - e) as [|p|p] eqn:Hn.
  - exists (shr_record_of_loc m l). rewrite Z.add_0_r.
    change (Z.max 0 0) with 0. rewrite Z.pow_0_r, Z.div_1_r.
    rewrite shr_record_of_loc_m. repeat split. now intros ->.
  - exists (iter_pos shr_1 p (shr_record_of_loc m l)).
    replace (Z.max 0 (Zpos p)) with (Zpos p) by lia.
    destruct (iter_shr_1 (shr_record_of_loc m l) p) as (Hshift & Hexact);
      [rewrite shr_record_of_loc_m; exact Hm|].
    rewrite shr_record_of_loc_m in *. repeat split; trivial.
    intros -> Hmod. destruct (Hexact Hmod eq_refl eq_refl) as (Hr & Hs).
    destruct (iter_pos shr_1 p _) as [m' r s]. cbn in Hr, Hs. now subst.
  - exists (shr_record_of_loc m l).
    replace (Z.max 0 (Zneg p)) with 0 by lia.
    rewrite Z.add_0_r, Z.pow_0_r, Z.div_1_r.
    rewrite shr_record_of_loc_m. repeat split. now intros ->.
Qed.

(** Rounding to nearest keeps the truncated mantissa or adds one to it,
    and keeps it when no bit was lost. *)
Lemma round_nearest_even_cases (t : Z) (l : location) :
  (round_nearest_even t l = t \/ round_nearest_even t l = t + 1) /\
  (l = loc_Exact -> round_nearest_even t l = t).
Proof.
  destruct l as [|[| |]]; cbn; try destruct (Z.even t);
    (split; [auto | try discriminate; auto]).
Qed.

Lemma scaled_shift (m e n : Z) :
  0 <= n -> -1074 <= e -> scaled (m * 2 ^ n) e = scaled m (e + n).
Proof.
  intros Hn He. unfold scaled.
  replace (e + n + 1074) with (n + (e + 1074)) by lia.
  rewrite (Z.pow_add_r 2 n (e + 1074)) by lia. ring.
Qed.

(** [binary_round_aux] on a mantissa [m >= 0] at exponent [e], not
    already on a coarser grid than its own: with [t] the mantissa truncated
    to the grid of exponent [e'], the result is [t] or [t + 1] at [e'], and
    [t] when the truncation and the input lose nothing; both are normalised:
    53 bits, or exponent [-1074]. *)
Lemma round_aux_spec (s : bool) (m e : Z) (l : location) :
  0 <= m -> e <= fexp prec emax (Zdigits2 m + e) ->
  let e' := fexp prec emax (Zdigits2 m + e) in
  let t := m / 2 ^ (e' - e) in
  exists m'' e'',
    binary_round_aux prec emax s m e l =
      match m'' with
      | Z0 => S754_zero s
      | Zpos p => if e'' <=? 971 then S754_finite s p e'' else S754_infinity s
      | Zneg _ => S754_nan
      end /\
    0 <= m'' /\ -1074 <= e'' /\
    (scaled m'' e'' = scaled t e' \/ scaled m'' e'' = scaled (t + 1) e') /\
    (l = loc_Exact -> m mod 2 ^ (e' - e) = 0 -> scaled m'' e'' = scaled t e') /\
    (-1074 < e'' -> 2 ^ 52 <= m'') /\ m'' < 2 ^ 53 /\
    0 <= t < 2 ^ 53 /\ (-1074 < e' -> 2 ^ 52 <= t).
Proof.
  intros Hm Hle e' t.
  assert (Hn : 0 <= e' - e) by (subst e'; lia).
  assert (Hpn : 0 < 2 ^ (e' - e)) by (apply Z.pow_pos_nonneg; lia).
  assert (Ht0 : 0 <= t) by (apply Z.div_pos; lia).
  (* canonical t *)
  assert (Ht53 : t < 2 ^ 53).
  { apply Z.div_lt_upper_bound; [lia|].
    rewrite <- Z.pow_add_r by lia.
    apply (Zdigits2_le m); [lia | lia |].
    subst e'. rewrite fexp_eq in *. lia. }
  assert (Ht52 : -1074 < e' -> 2 ^ 52 <= t).
  { intros He'. apply Z.div_le_lower_bound; [lia|].
    rewrite <- Z.pow_add_r by lia.
    destruct (Z.eq_dec m 0) as [-> | Hne].
    - exfalso. subst e'. cbn [Zdigits2] in *. rewrite fexp_eq in *. lia.
    - apply (Zdigits2_ge m); [lia | lia |].
      subst e'. rewrite fexp_eq in *. lia. }
  unfold binary_round_aux.
  destruct (shr_fexp_spec m e l Hm) as (mrs' & -> & Hm' & Hex').
  replace (Z.max 0 (fexp prec emax (Zdigits2 m + e) - e)) with (e' - e) in *
    by (subst e'; lia).
  replace (e + (e' - e)) with e' by lia.
  fold t in Hm'. rewrite Hm'.
  destruct (round_nearest_even_cases t (loc_of_shr_record mrs'))
    as (Hm1 & Hm1ex).
  set (m1 := round_nearest_even t (loc_of_shr_record mrs')) in *.
  assert (Hm1nn : 0 <= m1) by lia.
  destruct (shr_fexp_spec m1 e' loc_Exact Hm1nn) as (mrs'' & -> & Hm'' & _).
  assert (He'min : -1074 <= e') by (subst e'; rewrite fexp_eq; lia).
  destruct (Z.eq_dec m1 (2 ^ 53)) as [Hcarry | Hnocarry].
  - (* the mantissa rounded up to 2^53 *)
    assert (Hd : Zdigits2 m1 = 54)
      by (apply Zdigits2_unique; rewrite Hcarry; cbn; lia).
    rewrite Hd, fexp_eq in Hm'' |- *.
    replace (Z.max 0 (Z.max (54 + e' - 53) (-1074) - e')) with 1 in * by lia.
    rewrite Hcarry in Hm''. change (2 ^ 53 / 2 ^ 1) with (2 ^ 52) in Hm''.
    rewrite Hm''. exists (2 ^ 52), (e' + 1).
    split; [reflexivity|]. split; [cbn; lia|]. split; [lia|].
    assert (HW : scaled (2 ^ 52) (e' + 1) = scaled (t + 1) e').
    { rewrite <- scaled_shift by lia. f_equal. lia. }
    split; [now right|]. split.
    + intros Hl Hmod. specialize (Hex' Hl Hmod). specialize (Hm1ex Hex').
      lia.
    + repeat split; trivial; cbn; lia.
  - assert (Hm153 : m1 < 2 ^ 53) by lia.
    assert (Hd : Zdigits2 m1 <= 53) by (apply Zdigits2_le; lia).
    rewrite fexp_eq in Hm'' |- *.
    replace (Z.max 0 (Z.max (Zdigits2 m1 + e' - 53) (-1074) - e')) with 0 in *
      by lia.
    rewrite Z.pow_0_r, Z.div_1_r in Hm''. rewrite Hm'', Z.add_0_r.
    exists m1, e'. split; [reflexivity|]. split; [exact Hm1nn|].
    split; [exact He'min|].
    split; [destruct Hm1 as [-> | ->]; auto|]. split.
    + intros Hl Hmod. specialize (Hex' Hl Hmod). specialize (Hm1ex Hex').
      now rewrite Hm1ex.
    + repeat split; trivial. intros He''. specialize (Ht52 He''). lia.
Qed.

Lemma scaled_pos (m e : Z) : 0 <= m -> 0 <= scaled m e.
Proof.
  intros Hm. unfold scaled. apply Z.mul_nonneg_nonneg; [exact Hm|].
  apply Z.pow_nonneg. lia.
Qed.

Lemma scaled_le (m m' e : Z) : m <= m' -> scaled m e <= scaled m' e.
Proof.
  intros H. unfold scaled. apply Z.mul_le_mono_nonneg_r; [|exact H].
  apply Z.pow_nonneg. lia.
Qed.

Lemma scaled_lt (m m' e : Z) : -1074 <= e -> m < m' -> scaled m e < scaled m' e.
Proof.
  intros He H. unfold scaled. apply Z.mul_lt_mono_pos_r; [|exact H].
  apply Z.pow_pos_nonneg; lia.
Qed.

Lemma scaled_lt_inv (m m' e : Z) :
  -1074 <= e -> scaled m e < scaled m' e -> m < m'.
Proof.
  intros He H. destruct (Z.lt_ge_cases m m') as [|Hge]; trivial.
  apply (scaled_le _ _ e) in Hge. lia.
Qed.

(** No value of at most 53 bits lies strictly between two neighbours on
    the grid a rounding lands on. *)
Lemma no_value_inside (t e' R : Z) :
  0 <= t -> -1074 <= e' -> (-1074 < e' -> 2 ^ 52 <= t) ->
  magnitude53 R -> scaled t e' < R -> scaled (t + 1) e' <= R.
Proof.
  intros Ht He' Hnormal (mr & er & Hmr & Her & ->) Hlt.
  destruct (Z.le_gt_cases e' er) as [Hge | Hlow].
  - replace er with (e' + (er - e')) in * by lia.
    rewrite <- scaled_shift in * by lia.
    apply scaled_le. apply scaled_lt_inv in Hlt; lia.
  - exfalso. specialize (Hnormal ltac:(lia)).
    assert (scaled mr er < scaled (2 ^ 53) er) by (apply scaled_lt; lia).
    assert (scaled (2 ^ 53) er <= scaled (2 ^ 52) e').
    { replace e' with (er + 1 + (e' - er - 1)) by lia.
      rewrite <- scaled_shift by lia.
      replace (er + 1) with (er + 1) by lia.
      rewrite <- (scaled_shift _ er 1) by lia.
      apply scaled_le.
      assert (0 < 2 ^ (e' - er - 1)) by (apply Z.pow_pos_nonneg; lia).
      change (2 ^ 53) with (2 ^ 52 * 2 ^ 1). nia. }
    assert (scaled (2 ^ 52) e' <= scaled t e') by (apply scaled_le; lia).
    lia.
Qed.

(** Rounding is monotone against the values of at most 53 bits: such a
    value below the number rounded is not above the result, and one above
    it is not below the result. *)
Lemma round_aux_between (s : bool) (m e : Z) (l : location) :
  0 <= m -> -1074 <= e -> e <= fexp prec emax (Zdigits2 m + e) ->
  exists m'' e'',
    binary_round_aux prec emax s m e l =
      match m'' with
      | Z0 => S754_zero s
      | Zpos p => if e'' <=? 971 then S754_finite s p e'' else S754_infinity s
      | Zneg _ => S754_nan
      end /\
    0 <= m'' < 2 ^ 53 /\ -1074 <= e'' /\ (-1074 < e'' -> 2 ^ 52 <= m'') /\
    forall R, magnitude53 R ->
      (R < scaled (m + 1) e -> R <= scaled m'' e'') /\
      (scaled m e < R -> scaled m'' e'' <= R) /\
      (l = loc_Exact -> scaled m e <= R -> scaled m'' e'' <= R).
Proof.
  intros Hm He Hle.
  destruct (round_aux_spec s m e l Hm Hle)
    as (m'' & e'' & Hshape & Hm'' & He'' & Hval & Hexact & Hnormal & Hm53 &
        Ht & Htnormal).
  set (e' := fexp prec emax (Zdigits2 m + e)) in *.
  set (n := e' - e) in *. set (t := m / 2 ^ n) in *.
  assert (Hn : 0 <= n) by (subst n; lia).
  assert (Hpn : 0 < 2 ^ n) by (apply Z.pow_pos_nonneg; lia).
  assert (He'e : e' = e + n) by (subst n; lia).
  assert (Hdiv : m = 2 ^ n * t + m mod 2 ^ n)
    by (subst t; apply Z.div_mod; lia).
  assert (Hmod : 0 <= m mod 2 ^ n < 2 ^ n) by (apply Z.mod_pos_bound; lia).
  assert (Hlow : scaled t e' <= scaled m e).
  { rewrite He'e, <- scaled_shift by lia. apply scaled_le. nia. }
  assert (Hup : scaled (m + 1) e <= scaled (t + 1) e').
  { rewrite He'e, <- scaled_shift by lia. apply scaled_le. nia. }
  assert (He'min : -1074 <= e') by lia.
  assert (HF : scaled t e' <= scaled m'' e'' <= scaled (t + 1) e').
  { pose proof (scaled_le t (t + 1) e' ltac:(lia)). destruct Hval; lia. }
  exists m'', e''. split; [exact Hshape|]. split; [lia|].
  split; [exact He''|]. split; [exact Hnormal|].
  intros R HR.
  pose proof (no_value_inside t e' R ltac:(lia) He'min Htnormal HR) as Hinside.
  split; [|split].
  - intros HRlt. destruct (Z.lt_ge_cases (scaled t e') R); lia.
  - intros HRgt. lia.
  - intros Hl HRge. destruct (Z.lt_ge_cases (scaled t e') R) as [|Heq]; [lia|].
    assert (Hsame : scaled m e = scaled t e') by lia.
    rewrite He'e, <- scaled_shift in Hsame by lia.
    assert (Hmt : m = t * 2 ^ n).
    { unfold scaled in Hsame. apply Z.mul_reg_r in Hsame; trivial.
      assert (0 < 2 ^ (e + 1074)) by (apply Z.pow_pos_nonneg; lia). lia. }
    rewrite (Hexact Hl) by lia. lia.
Qed.

(** *** Valid doubles *)

(** A valid finite double has an exponent from [-1074] to [971] and a
    mantissa of at most 53 bits, of exactly 53 unless the exponent is
    [-1074]. *)
Lemma valid_finite (s : bool) (m : positive) (e : Z) :
  valid_binary (S754_finite s m e) = true ->
  -1074 <= e <= 971 /\ Zpos m < 2 ^ 53 /\ (-1074 < e -> 2 ^ 52 <= Zpos m).
Proof.
  cbn [SpecFloat.valid_binary]. unfold bounded, canonical_mantissa.
  rewrite andb_true_iff, Z.eqb_eq, Z.leb_le, fexp_eq.
  change (Zpos (digits2_pos m)) with (Zdigits2 (Zpos m)).
  change (emax - prec) with 971.
  intros (Hcan & Hmax).
  split; [lia|]. split.
  - apply Zdigits2_le; lia.
  - intros He. apply Zdigits2_ge; lia.
Qed.

Lemma scaled_53_le_52 (er e' : Z) :
  -1074 <= er -> er < e' -> scaled (2 ^ 53) er <= scaled (2 ^ 52) e'.
Proof.
  intros Her Hlt.
  replace e' with (er + (e' - er)) by lia.
  rewrite <- scaled_shift by lia. apply scaled_le.
  replace (e' - er) with (1 + (e' - er - 1)) by lia.
  rewrite Z.pow_add_r by lia.
  assert (0 < 2 ^ (e' - er - 1)) by (apply Z.pow_pos_nonneg; lia).
  change (2 ^ 53) with (2 ^ 52 * 2 ^ 1). nia.
Qed.

Lemma scaled_canonical_lt (m1 e1 m2 e2 : Z) :
  -1074 <= e1 -> m1 < 2 ^ 53 -> 2 ^ 52 <= m2 -> e1 < e2 ->
  scaled m1 e1 < scaled m2 e2.
Proof.
  intros He1 Hm1 Hm2 Hlt.
  assert (scaled m1 e1 < scaled (2 ^ 53) e1) by (apply scaled_lt; lia).
  pose proof (scaled_53_le_52 e1 e2 He1 Hlt).
  assert (scaled (2 ^ 52) e2 <= scaled m2 e2) by (apply scaled_le; lia).
  lia.
Qed.

(** On valid doubles, comparing exponents first and mantissas next
    compares the values. *)
Lemma scaled_compare (m1 m2 : positive) (e1 e2 : Z) :
  valid_binary (S754_finite false m1 e1) = true ->
  valid_binary (S754_finite false m2 e2) = true ->
  (scaled (Zpos m1) e1 ?= scaled (Zpos m2) e2) =
  match e1 ?= e2 with
  | Lt => Lt
  | Gt => Gt
  | Eq => Pos.compare_cont Eq m1 m2
  end.
Proof.
  intros H1 H2. apply valid_finite in H1, H2.
  destruct H1 as (He1 & Hm1 & Hn1), H2 as (He2 & Hm2 & Hn2).
  destruct (Z.compare_spec e1 e2) as [-> | Hlt | Hgt].
  - change (Pos.compare_cont Eq m1 m2) with (Zpos m1 ?= Zpos m2).
    destruct (Z.compare_spec (Zpos m1) (Zpos m2)) as [-> | Hm | Hm].
    + apply Z.compare_refl.
    + apply Z.compare_lt_iff. apply scaled_lt; lia.
    + apply Z.compare_gt_iff. apply scaled_lt; lia.
  - apply Z.compare_lt_iff. apply scaled_canonical_lt; lia.
  - apply Z.compare_gt_iff. apply scaled_canonical_lt; lia.
Qed.

(** *** The order of doubles is the order of their values *)

Lemma scaled_valid_bounds (s : bool) (m : positive) (e : Z) :
  valid_binary (S754_finite s m e) = true ->
  0 < scaled (Zpos m) e < huge.
Proof.
  intros H. apply valid_finite in H. destruct H as (He & Hm & _). split.
  - unfold scaled. apply Z.mul_pos_pos; [lia|]. apply Z.pow_pos_nonneg; lia.
  - assert (scaled (Zpos m) e < scaled (2 ^ 53) e) by (apply scaled_lt; lia).
    assert (scaled (2 ^ 53) e <= huge); [|lia].
    unfold scaled, huge. rewrite <- Z.pow_add_r by lia.
    apply Z.pow_le_mono_r; lia.
Qed.

Lemma valid_sign_irrelevant (s s' : bool) (m : positive) (e : Z) :
  valid_binary (S754_finite s m e) = valid_binary (S754_finite s' m e).
Proof. reflexivity. Qed.

(** [SFcompare] compares positions on the integer line. *)
Lemma SFcompare_scaled (x y : spec_float) :
  valid_binary x = true -> valid_binary y = true ->
  x <> S754_nan -> y <> S754_nan ->
  SFcompare x y = Some (SF_scaled x ?= SF_scaled y).
Proof.
  intros Hx Hy Hxn Hyn.
  destruct x as [sx | sx | | sx mx ex], y as [sy | sy | | sy my ey];
    try congruence; cbn [SFcompare SF_scaled].
  - reflexivity.
  - destruct sy; reflexivity.
  - pose proof (scaled_valid_bounds _ _ _ Hy).
    destruct sy; cbn [cond_Zopp]; f_equal; symmetry;
      [apply Z.compare_gt_iff | apply Z.compare_lt_iff]; lia.
  - destruct sx; reflexivity.
  - destruct sx, sy; reflexivity.
  - pose proof (scaled_valid_bounds _ _ _ Hy).
    destruct sx; cbn [cond_Zopp]; f_equal; symmetry;
      [apply Z.compare_lt_iff | apply Z.compare_gt_iff];
      destruct sy; cbn [cond_Zopp]; lia.
  - pose proof (scaled_valid_bounds _ _ _ Hx).
    destruct sx; cbn [cond_Zopp]; f_equal; symmetry;
      [apply Z.compare_lt_iff | apply Z.compare_gt_iff]; lia.
  - pose proof (scaled_valid_bounds _ _ _ Hx).
    destruct sy; cbn [cond_Zopp]; f_equal; symmetry;
      [apply Z.compare_gt_iff | apply Z.compare_lt_iff];
      destruct sx; cbn [cond_Zopp]; lia.
  - pose proof (scaled_valid_bounds _ _ _ Hx).
    pose proof (scaled_valid_bounds _ _ _ Hy).
    destruct sx, sy; cbn [cond_Zopp]; f_equal.
    + rewrite Z.compare_opp, (Z.compare_antisym (scaled (Zpos mx) ex)).
      rewrite (scaled_compare mx my ex ey Hx Hy).
      destruct (ex ?= ey); reflexivity.
    + symmetry. apply Z.compare_lt_iff. lia.
    + symmetry. apply Z.compare_gt_iff. lia.
    + symmetry. apply (scaled_compare mx my ex ey Hx Hy).
Qed.

Lemma SFleb_scaled (x y : spec_float) :
  valid_binary x = true -> valid_binary y = true ->
  x <> S754_nan -> y <> S754_nan ->
  (SFleb x y = true <-> SF_scaled x <= SF_scaled y).
Proof.
  intros Hx Hy Hxn Hyn. unfold SFleb.
  rewrite (SFcompare_scaled x y Hx Hy Hxn Hyn).
  destruct (Z.compare_spec (SF_scaled x) (SF_scaled y)); split; intros; try lia;
    try reflexivity; discriminate.
Qed.

(** *** Sums *)

Lemma pos_iter_xO (m d : positive) :
  Zpos (Pos.iter xO m d) = Zpos m * 2 ^ Zpos d.
Proof.
  induction d as [|d IH] using Pos.peano_ind.
  - cbn. lia.
  - rewrite Pos.iter_succ, Pos2Z.inj_xO, IH, Pos2Z.inj_succ.
    rewrite Z.pow_succ_r by lia. ring.
Qed.

Lemma shl_align_spec (mx : positive) (ex ex' : Z) :
  snd (shl_align mx ex ex') = Z.min ex ex' /\
  Zpos (fst (shl_align mx ex ex')) = Zpos mx * 2 ^ (ex - Z.min ex ex').
Proof.
  unfold shl_align. destruct (ex' - ex) as [|d|d] eqn:Hd; cbn [fst snd].
  - replace (Z.min ex ex') with ex by lia. rewrite Z.sub_diag. cbn. lia.
  - replace (Z.min ex ex') with ex by lia. rewrite Z.sub_diag. cbn. lia.
  - replace (Z.min ex ex') with ex' by lia.
    replace (ex - ex') with (Zpos d) by lia. split; [reflexivity|].
    apply pos_iter_xO.
Qed.

Lemma Zdigits2_shift (m k : Z) :
  0 < m -> 0 <= k -> Zdigits2 (m * 2 ^ k) = Zdigits2 m + k.
Proof.
  intros Hm Hk. pose proof (Zdigits2_bounds m Hm) as Hb.
  pose proof (Zdigits2_pos m Hm) as Hp.
  assert (Hpk : 0 < 2 ^ k) by (apply Z.pow_pos_nonneg; lia).
  apply Zdigits2_unique; [|nia].
  replace (Zdigits2 m + k - 1) with (Zdigits2 m - 1 + k) by lia.
  rewrite !Z.pow_add_r by lia. nia.
Qed.

(** A normalised result is a zero or a finite double with the value of
    its mantissa and exponent, or an infinity whose mantissa and exponent
    reach [2^1024]. *)
Lemma rounded_value (s : bool) (m e : Z) :
  0 <= m < 2 ^ 53 -> -1074 <= e -> (-1074 < e -> 2 ^ 52 <= m) ->
  rounded s m e <> S754_nan /\
  (SF_scaled (rounded s m e) = cond_Zopp s (scaled m e) /\ scaled m e < huge /\
   (forall s', rounded s m e <> S754_infinity s') \/
   rounded s m e = S754_infinity s /\ huge <= scaled m e).
Proof.
  intros Hm He Hnormal. unfold rounded.
  destruct m as [|p|p]; [| |lia].
  - split; [discriminate|]. left.
    assert (HW0 : scaled 0 e = 0) by (unfold scaled; lia).
    rewrite HW0. cbn [SF_scaled].
    split; [now destruct s|]. split; [|discriminate].
    unfold huge. apply Z.pow_pos_nonneg; lia.
  - destruct (Z.leb_spec e 971) as [Hle | Hgt].
    + split; [discriminate|]. left. repeat split; try discriminate.
      assert (scaled (Zpos p) e < scaled (2 ^ 53) e) by (apply scaled_lt; lia).
      assert (scaled (2 ^ 53) e <= huge); [|lia].
      unfold scaled, huge. rewrite <- Z.pow_add_r by lia.
      apply Z.pow_le_mono_r; lia.
    + split; [discriminate|]. right. split; [reflexivity|].
      assert (scaled (2 ^ 52) e <= scaled (Zpos p) e) by (apply scaled_le; lia).
      assert (huge <= scaled (2 ^ 52) e); [|lia].
      unfold scaled, huge. rewrite <- Z.pow_add_r by lia.
      apply Z.pow_le_mono_r; lia.
Qed.

(** [binary_round] on a positive integer multiple of a power of two. *)
Lemma binary_round_between (s : bool) (mx : positive) (ex : Z) :
  -1074 <= ex ->
  exists m'' e'',
    binary_round prec emax s mx ex = rounded s m'' e'' /\
    0 <= m'' < 2 ^ 53 /\ -1074 <= e'' /\ (-1074 < e'' -> 2 ^ 52 <= m'') /\
    forall R, magnitude53 R ->
      (R <= scaled (Zpos mx) ex -> R <= scaled m'' e'') /\
      (scaled (Zpos mx) ex <= R -> scaled m'' e'' <= R).
Proof.
  intros Hex. unfold binary_round.
  pose proof (shl_align_spec mx ex
                (fexp prec emax (Zpos (digits2_pos mx) + ex)))
    as (He & Hm).
  destruct (shl_align mx ex _) as [mz ez]. cbn [fst snd] in He, Hm.
  change (Zpos (digits2_pos mx)) with (Zdigits2 (Zpos mx)) in He, Hm.
  set (fe := fexp prec emax (Zdigits2 (Zpos mx) + ex)) in *.
  assert (Hfe : -1074 <= fe) by (subst fe; rewrite fexp_eq; lia).
  assert (Hk : 0 <= ex - ez) by lia.
  assert (Hdig : Zdigits2 (Zpos mz) + ez = Zdigits2 (Zpos mx) + ex).
  { rewrite Hm, Zdigits2_shift by lia. lia. }
  assert (HW : scaled (Zpos mz) ez = scaled (Zpos mx) ex).
  { rewrite Hm, scaled_shift by lia. f_equal. lia. }
  destruct (round_aux_between s (Zpos mz) ez loc_Exact) as
    (m'' & e'' & Hshape & Hm'' & He'' & Hnormal & Hbetween); [lia | lia | |].
  { rewrite Hdig. fold fe. lia. }
  exists m'', e''. split; [exact Hshape|]. split; [exact Hm''|].
  split; [exact He''|]. split; [exact Hnormal|].
  intros R HR. destruct (Hbetween R HR) as (Hlo & _ & Hhi). rewrite HW in *.
  split.
  - intros HRle. apply Hlo.
    assert (scaled (Zpos mz) ez < scaled (Zpos mz + 1) ez)
      by (apply scaled_lt; lia).
    lia.
  - intros HRge. now apply Hhi.
Qed.

Lemma magnitude53_nonneg (R : Z) : magnitude53 R -> 0 <= R.
Proof. intros (mr & er & Hmr & _ & ->). apply scaled_pos. lia. Qed.

Lemma scaled_opp (m e : Z) : scaled (- m) e = - scaled m e.
Proof. unfold scaled. ring. Qed.

Lemma scaled_add (m m' e : Z) : scaled (m + m') e = scaled m e + scaled m' e.
Proof. unfold scaled. ring. Qed.

Lemma scaled_cond_Zopp (s : bool) (m e : Z) :
  scaled (cond_Zopp s m) e = cond_Zopp s (scaled m e).
Proof. destruct s; cbn; [apply scaled_opp | reflexivity]. Qed.

Lemma scaled_pos_pos (m : positive) (e : Z) :
  -1074 <= e -> 0 < scaled (Zpos m) e.
Proof.
  intros He. unfold scaled. apply Z.mul_pos_pos; [lia|].
  apply Z.pow_pos_nonneg; lia.
Qed.

(** [binary_normalize], with signs: the result, when finite, is not
    below a value of at most 53 bits that the number rounded is not below,
    and not above one that the number is not above. *)
Lemma binary_normalize_between (z e : Z) :
  -1074 <= e ->
  binary_normalize prec emax z e false <> S754_nan /\
  ((forall sg, binary_normalize prec emax z e false <> S754_infinity sg) ->
   forall R, signed53 R ->
     (R <= scaled z e ->
      R <= SF_scaled (binary_normalize prec emax z e false)) /\
     (scaled z e <= R ->
      SF_scaled (binary_normalize prec emax z e false) <= R)).
Proof.
  intros He. destruct z as [|p|p]; cbn [binary_normalize].
  - split; [discriminate|]. intros _ R _. unfold scaled. cbn. lia.
  - destruct (binary_round_between false p e He)
      as (m'' & e'' & -> & Hm'' & He'' & Hnormal & Hbetween).
    destruct (rounded_value false m'' e'' Hm'' He'' Hnormal)
      as (Hnan & [(HV & _ & _) | (Hinf & _)]).
    + split; [exact Hnan|]. intros _ R HR. rewrite HV. cbn [cond_Zopp].
      pose proof (scaled_pos_pos p e He).
      pose proof (scaled_pos m'' e'' ltac:(lia)).
      destruct HR as [HR | HR].
      * destruct (Hbetween R HR). split; assumption.
      * apply magnitude53_nonneg in HR. split; lia.
    + split; [exact Hnan|]. intros Hfin. exfalso. exact (Hfin _ Hinf).
  - destruct (binary_round_between true p e He)
      as (m'' & e'' & -> & Hm'' & He'' & Hnormal & Hbetween).
    destruct (rounded_value true m'' e'' Hm'' He'' Hnormal)
      as (Hnan & [(HV & _ & _) | (Hinf & _)]).
    + split; [exact Hnan|]. intros _ R HR. rewrite HV. cbn [cond_Zopp].
      change (Zneg p) with (- Zpos p). rewrite scaled_opp.
      pose proof (scaled_pos_pos p e He).
      pose proof (scaled_pos m'' e'' ltac:(lia)).
      destruct HR as [HR | HR].
      * apply magnitude53_nonneg in HR. split; lia.
      * destruct (Hbetween _ HR). split; lia.
    + split; [exact Hnan|]. intros Hfin. exfalso. exact (Hfin _ Hinf).
Qed.

(** What [SFadd] rounds, for two finite doubles: an integer multiple of a
    power of two whose value is the exact sum. *)
Lemma SFadd_as_normalize (sa sb : bool) (ma mb : positive) (ea eb : Z) :
  valid_binary (S754_finite sa ma ea) = true ->
  valid_binary (S754_finite sb mb eb) = true ->
  exists z ez,
    SFadd prec emax (S754_finite sa ma ea) (S754_finite sb mb eb) =
      binary_normalize prec emax z ez false /\
    -1074 <= ez /\
    scaled z ez =
      SF_scaled (S754_finite sa ma ea) + SF_scaled (S754_finite sb mb eb).
Proof.
  intros Ha Hb. cbn [SFadd].
  pose proof (valid_finite _ _ _ Ha) as (Hea & _).
  pose proof (valid_finite _ _ _ Hb) as (Heb & _).
  set (ez := Z.min ea eb).
  pose proof (shl_align_spec ma ea ez) as (_ & Hma).
  pose proof (shl_align_spec mb eb ez) as (_ & Hmb).
  replace (Z.min ea ez) with ez in Hma by lia.
  replace (Z.min eb ez) with ez in Hmb by lia.
  eexists _, ez. split; [reflexivity|]. split; [lia|].
  rewrite scaled_add, !scaled_cond_Zopp, Hma, Hmb. cbn [SF_scaled].
  rewrite !scaled_shift by lia.
  replace (ez + (ea - ez)) with ea by lia.
  replace (ez + (eb - ez)) with eb by lia. reflexivity.
Qed.

(** The sum of two finite doubles is never NaN and, when finite, lies on
    the same side of every value of at most 53 bits as the exact sum. *)
Lemma SFadd_between (a b : spec_float) :
  valid_binary a = true -> valid_binary b = true ->
  sf_finite a = true -> sf_finite b = true ->
  SFadd prec emax a b <> S754_nan /\
  (sf_finite (SFadd prec emax a b) = true ->
   forall R, signed53 R ->
     (R <= SF_scaled a + SF_scaled b -> R <= SF_scaled (SFadd prec emax a b)) /\
     (SF_scaled a + SF_scaled b <= R -> SF_scaled (SFadd prec emax a b) <= R)).
Proof.
  intros Ha Hb Hfa Hfb.
  destruct a as [sa | sa | | sa ma ea], b as [sb | sb | | sb mb eb];
    try discriminate.
  - cbn [SFadd]. split; [destruct sa, sb; discriminate|].
    intros _ R _. destruct sa, sb; cbn; lia.
  - cbn [SFadd]. split; [discriminate|]. intros _ R _. cbn [SF_scaled]. lia.
  - cbn [SFadd]. split; [discriminate|]. intros _ R _. cbn [SF_scaled]. lia.
  - destruct (SFadd_as_normalize sa sb ma mb ea eb Ha Hb)
      as (z & ez & -> & Hez & HW).
    destruct (binary_normalize_between z ez Hez) as (Hnan & Hbetween).
    split; [exact Hnan|]. intros Hfin. rewrite <- HW. apply Hbetween.
    intros sg Hsg. rewrite Hsg in Hfin. discriminate.
Qed.

(** *** Halves *)

(** The quotient and remainder [SFdiv] computes for a division by [2.0]:
    the quotient, at its exponent, is half the dividend rounded down, and
    the remainder is zero exactly when it is half the dividend. *)
Lemma SFdiv_core_two (ms : positive) (es : Z) :
  valid_binary (S754_finite false ms es) = true ->
  exists q r e',
    SFdiv_core_binary prec emax (Zpos ms) es 4503599627370496 (-51) =
      (q, e', new_location 4503599627370496 r) /\
    0 <= q /\ 0 <= r /\ -1074 <= e' /\
    e' <= fexp prec emax (Zdigits2 q + e') /\
    2 * scaled q e' <= scaled (Zpos ms) es < 2 * scaled (q + 1) e' /\
    (r = 0 -> scaled (Zpos ms) es = 2 * scaled q e') /\
    (r <> 0 -> 2 * scaled q e' < scaled (Zpos ms) es).
Proof.
  intros Hs. apply valid_finite in Hs. destruct Hs as (Hes & Hms & Hnormal).
  unfold SFdiv_core_binary.
  change (Zdigits2 4503599627370496) with 53.
  set (d1 := Zdigits2 (Zpos ms)).
  assert (Hd1 : 0 < d1 <= 53).
  { split; [apply Zdigits2_pos; lia | apply Zdigits2_le; lia]. }
  assert (Hd1b := Zdigits2_bounds (Zpos ms) ltac:(lia)). fold d1 in Hd1b.
  set (e' := Z.min (fexp prec emax (d1 + es - (53 + -51))) (es - -51)).
  assert (He' : e' = Z.max (d1 + es - 55) (-1074))
    by (subst e'; rewrite fexp_eq; lia).
  assert (Hs : es - -51 - e' = 51 + es - e') by lia.
  rewrite Hs.
  destruct (51 + es - e') as [|sd|sd] eqn:Hsd; [lia| |lia].
  rewrite Z.shiftl_mul_pow2 by lia.
  pose proof (Z_div_mod (Zpos ms * 2 ^ Zpos sd) 4503599627370496 eq_refl)
    as Hdiv.
  destruct (Z.div_eucl (Zpos ms * 2 ^ Zpos sd) 4503599627370496) as [q r].
  destruct Hdiv as (Hqr & Hr).
  change 4503599627370496 with (2 ^ 52) in Hqr, Hr.
  assert (Hpsd : 0 < 2 ^ Zpos sd) by (apply Z.pow_pos_nonneg; lia).
  assert (Hq : 0 <= q) by nia.
  exists q, r, e'. split; [reflexivity|]. split; [exact Hq|].
  split; [lia|]. split; [lia|]. split.
  - rewrite fexp_eq.
    destruct (Z.eq_dec e' (-1074)) as [Heq | Hne]; [lia|].
    assert (He'' : e' = d1 + es - 55) by lia.
    assert (Hsd' : Zpos sd = 106 - d1) by lia.
    assert (2 ^ 52 <= q); [|assert (52 < Zdigits2 q)
                              by (apply Zdigits2_ge; lia); lia].
    assert (2 ^ 105 <= Zpos ms * 2 ^ Zpos sd).
    { replace 105 with (d1 - 1 + Zpos sd) by lia.
      rewrite Z.pow_add_r by lia. nia. }
    change (2 ^ 105) with (2 ^ 52 * 2 ^ 53) in *. nia.
  - set (P := 2 ^ (e' + 1074)).
    assert (HP : 0 < P) by (apply Z.pow_pos_nonneg; lia).
    assert (HS : scaled (Zpos ms) es * 2 ^ 51 = 2 ^ 52 * scaled q e' + r * P).
    { assert (Hpow : 2 ^ (es + 1074) * 2 ^ 51 = 2 ^ Zpos sd * P).
      { subst P. rewrite <- !Z.pow_add_r by lia. f_equal. lia. }
      unfold scaled. fold P.
      rewrite <- (Z.mul_assoc (Zpos ms)), Hpow, Z.mul_assoc, Hqr. ring. }
    assert (HW1 : scaled (q + 1) e' = scaled q e' + P)
      by (unfold scaled; fold P; ring).
    rewrite HW1.
    change (2 ^ 52) with (2 * 2 ^ 51) in HS, Hr.
    assert (HrP : 0 <= r * P < 2 * 2 ^ 51 * P) by nia.
    repeat split.
    + nia.
    + nia.
    + intros ->. nia.
    + intros Hr0. assert (0 < r * P) by nia. nia.
Qed.

Lemma new_location_exact (r : Z) :
  r = 0 -> new_location 4503599627370496 r = loc_Exact.
Proof. intros ->. reflexivity. Qed.

(** Half a finite double is finite and lies on the same side of every
    value of at most 53 bits as the exact half. *)
Lemma SFdiv_two_between (s : spec_float) :
  valid_binary s = true -> sf_finite s = true ->
  sf_finite (SFdiv prec emax s sf_two) = true /\
  forall R, signed53 R ->
    (2 * R <= SF_scaled s -> R <= SF_scaled (SFdiv prec emax s sf_two)) /\
    (SF_scaled s <= 2 * R -> SF_scaled (SFdiv prec emax s sf_two) <= R).
Proof.
  intros Hs Hfs.
  destruct s as [ss | ss | | ss ms es]; try discriminate.
  - unfold sf_two. cbn [SFdiv sf_finite SF_scaled].
    split; [reflexivity|]. intros R _. lia.
  - unfold sf_two. cbn [SFdiv]. rewrite xorb_false_r.
    rewrite (valid_sign_irrelevant ss false) in Hs.
    destruct (SFdiv_core_two ms es Hs)
      as (q & r & e' & -> & Hq & Hr & He' & Hfexp & Hbounds & Hr0 & Hrn0).
    destruct (round_aux_between ss q e' (new_location 4503599627370496 r)
                        Hq He' Hfexp)
      as (m'' & e'' & Hshape & Hm'' & He'' & Hnormal & Hbetween).
    change (binary_round_aux prec emax ss q e' (new_location 4503599627370496 r)
            = rounded ss m'' e'') in Hshape.
    rewrite Hshape.
    pose proof (valid_finite _ _ _ Hs) as (Hes & Hms & _).
    pose proof (scaled_valid_bounds _ _ _ Hs) as HS.
    set (S := scaled (Zpos ms) es) in *.
    assert (HS53 : magnitude53 S) by (exists (Zpos ms), es; repeat split; lia).
    assert (HWq : 0 <= scaled q e') by (now apply scaled_pos).
    assert (HFS : scaled m'' e'' <= S).
    { destruct (Hbetween S HS53) as (_ & Hhi & _). apply Hhi. lia. }
    destruct (rounded_value ss m'' e'' Hm'' He'' Hnormal)
      as (Hnan & [(HV & _ & Hfin) | (Hinf & Hhuge)]); [|lia].
    assert (HF0 : 0 <= scaled m'' e'') by (apply scaled_pos; lia).
    split.
    { destruct (rounded ss m'' e'') as [sg | sg | | sg m e]; trivial.
      - exfalso. exact (Hfin sg eq_refl).
      - congruence. }
    intros R HR. rewrite HV. cbn [SF_scaled]. fold S.
    destruct ss; cbn [cond_Zopp].
    + destruct HR as [HR | HR].
      * apply magnitude53_nonneg in HR. split; lia.
      * destruct (Hbetween _ HR) as (Hlo & Hhi & Hex). split.
        -- intros HRle. enough (scaled m'' e'' <= - R) by lia.
           destruct (Z.eq_dec r 0) as [Hz | Hnz].
           ++ apply Hex; [now apply new_location_exact|].
              specialize (Hr0 Hz). lia.
           ++ apply Hhi. specialize (Hrn0 Hnz). lia.
        -- intros HRge. enough (- R <= scaled m'' e'') by lia.
           apply Hlo. lia.
    + destruct HR as [HR | HR].
      * destruct (Hbetween _ HR) as (Hlo & Hhi & Hex). split.
        -- intros HRle. apply Hlo. lia.
        -- intros HRge.
           destruct (Z.eq_dec r 0) as [Hz | Hnz].
           ++ apply Hex; [now apply new_location_exact|].
              specialize (Hr0 Hz). lia.
           ++ apply Hhi. specialize (Hrn0 Hnz). lia.
      * apply magnitude53_nonneg in HR. split; lia.
Qed.

(** *** The midpoint *)

Lemma signed53_value (x : spec_float) :
  valid_binary x = true -> sf_finite x = true ->
  signed53 (SF_scaled x) /\ signed53 (2 * SF_scaled x).
Proof.
  intros Hx Hfx. destruct x as [s | s | | s m e]; try discriminate.
  - cbn [SF_scaled]. split; left; exists 0, 0; unfold scaled; repeat split; lia.
  - pose proof (valid_finite _ _ _ Hx) as (He & Hm & _).
    assert (H2 : 2 * scaled (Zpos m) e = scaled (Zpos m) (e + 1)).
    { rewrite <- scaled_shift by lia. unfold scaled. ring. }
    cbn [SF_scaled]. destruct s; cbn [cond_Zopp]; split.
    + right. rewrite Z.opp_involutive. exists (Zpos m), e. repeat split; lia.
    + right.
      replace (- (2 * - scaled (Zpos m) e)) with (2 * scaled (Zpos m) e)
        by lia.
      rewrite H2. exists (Zpos m), (e + 1). repeat split; lia.
    + left. exists (Zpos m), e. repeat split; lia.
    + left. rewrite H2. exists (Zpos m), (e + 1). repeat split; lia.
Qed.

Lemma SFadd_finite_inv (a b : spec_float) :
  sf_finite (SFadd prec emax a b) = true ->
  sf_finite a = true /\ sf_finite b = true.
Proof.
  destruct a as [sa | sa | | sa ma ea], b as [sb | sb | | sb mb eb];
    cbn [SFadd sf_finite]; try discriminate; auto.
  destruct sa, sb; discriminate.
Qed.

Lemma sf_finite_not_nan (x : spec_float) :
  sf_finite x = true -> x <> S754_nan.
Proof. intros H ->. discriminate. Qed.

(** The midpoint of two ordered doubles whose sum is finite lies between
    them. *)
Lemma SF_midpoint (a b : spec_float) :
  valid_binary a = true -> valid_binary b = true ->
  valid_binary (SFadd prec emax a b) = true ->
  valid_binary (SFdiv prec emax (SFadd prec emax a b) sf_two) = true ->
  SFleb a b = true ->
  sf_finite (SFadd prec emax a b) = true ->
  SFleb a (SFdiv prec emax (SFadd prec emax a b) sf_two) = true /\
  SFleb (SFdiv prec emax (SFadd prec emax a b) sf_two) b = true.
Proof.
  intros Ha Hb Hs Hc Hab Hfs.
  destruct (SFadd_finite_inv a b Hfs) as (Hfa & Hfb).
  pose proof (sf_finite_not_nan _ Hfa) as Hna.
  pose proof (sf_finite_not_nan _ Hfb) as Hnb.
  apply (SFleb_scaled a b Ha Hb Hna Hnb) in Hab.
  destruct (SFadd_between a b Ha Hb Hfa Hfb) as (_ & Hadd).
  specialize (Hadd Hfs).
  destruct (SFdiv_two_between _ Hs Hfs) as (Hfc & Hdiv).
  pose proof (sf_finite_not_nan _ Hfc) as Hnc.
  destruct (signed53_value a Ha Hfa) as (HA & HA2).
  destruct (signed53_value b Hb Hfb) as (HB & HB2).
  split.
  - apply (SFleb_scaled _ _ Ha Hc Hna Hnc).
    apply (proj1 (Hdiv _ HA)). apply (proj1 (Hadd _ HA2)). lia.
  - apply (SFleb_scaled _ _ Hc Hb Hnc Hnb).
    apply (proj2 (Hdiv _ HB)). apply (proj2 (Hadd _ HB2)). lia.
Qed.

(** [is_finite] on the specification. *)
Lemma is_finite_sf (x : float) :
  is_finite x = true -> sf_finite (Prim2SF x) = true.
Proof.
  unfold is_finite, is_nan, is_infinity.
  rewrite !eqb_spec, abs_spec.
  change (Prim2SF infinity) with (S754_infinity false).
  destruct (Prim2SF x) as [s | [|] | | s m e]; cbn [sf_finite]; intros H;
    trivial; cbn in H; discriminate.
Qed.

(** The same on the primitive doubles. *)
Lemma binary64_midpoint (a b : float) :
  (a <=? b)%float = true -> is_finite (a + b) = true ->
  (a <=? (a + b) / 2)%float = true /\ ((a + b) / 2 <=? b)%float = true.
Proof.
  intros Hab Hfin. apply is_finite_sf in Hfin.
  rewrite !leb_spec in *. rewrite div_spec. rewrite add_spec in *.
  change (Prim2SF 2) with sf_two.
  apply SF_midpoint; trivial; try apply Prim2SF_valid.
  - rewrite <- add_spec. apply Prim2SF_valid.
  - rewrite <- add_spec. change sf_two with (Prim2SF 2).
    rewrite <- div_spec. apply Prim2SF_valid.
Qed.

(** *** Products *)

(** Rounding a mantissa that is not negative never returns NaN. *)
Lemma binary_round_aux_not_nan (s : bool) (m e : Z) (l : location) :
  0 <= m -> binary_round_aux prec emax s m e l <> S754_nan.
Proof.
  intros Hm. unfold binary_round_aux.
  destruct (shr_fexp_spec m e l Hm) as (mrs' & -> & Hm' & _).
  assert (Hm'nn : 0 <= shr_m mrs').
  { rewrite Hm'. apply Z.div_pos; [lia|]. apply Z.pow_pos_nonneg; lia. }
  destruct (round_nearest_even_cases (shr_m mrs') (loc_of_shr_record mrs'))
    as (Hm1 & _).
  set (m1 := round_nearest_even (shr_m mrs') (loc_of_shr_record mrs')) in *.
  assert (Hm1nn : 0 <= m1) by lia.
  destruct (shr_fexp_spec m1 (e + Z.max 0 (fexp prec emax (Zdigits2 m + e) - e))
                          loc_Exact Hm1nn) as (mrs'' & -> & Hm'' & _).
  assert (Hm''nn : 0 <= shr_m mrs'').
  { rewrite Hm''. apply Z.div_pos; [lia|]. apply Z.pow_pos_nonneg; lia. }
  destruct (shr_m mrs'') as [|p|p]; [discriminate| |lia].
  destruct (_ <=? _); discriminate.
Qed.

(** What rounding returns has the sign it was given, whatever the
    mantissa, the exponent and the bits shifted out. *)
Lemma binary_round_aux_sign (s : bool) (m e : Z) (l : location) :
  match binary_round_aux prec emax s m e l with
  | S754_zero s' | S754_infinity s' | S754_finite s' _ _ => s' = s
  | S754_nan => True
  end.
Proof.
  unfold binary_round_aux.
  destruct (shr_fexp prec emax m e l) as [mrs' e'].
  destruct (shr_fexp prec emax _ e' loc_Exact) as [mrs'' e''].
  destruct (shr_m mrs'') as [|p|p]; trivial.
  destruct (Z.leb e'' (emax - prec)); trivial.
Qed.

(** A double times itself is not below zero, unless it is NaN. *)
Lemma SFmul_square_nonneg (x : spec_float) :
  x <> S754_nan ->
  SFleb (S754_zero false) (SFmul prec emax x x) = true.
Proof.
  destruct x as [s | s | | s m e]; intros Hx; cbn [SFmul].
  - reflexivity.
  - now destruct s.
  - congruence.
  - pose proof (binary_round_aux_sign (xorb s s) (Zpos (m * m)) (e + e)
                                      loc_Exact) as Hsign.
    pose proof (binary_round_aux_not_nan (xorb s s) (Zpos (m * m)) (e + e)
                  loc_Exact ltac:(lia)) as Hnan.
    rewrite xorb_nilpotent in *.
    destruct (binary_round_aux _ _ _ _ _ _) as [s' | s' | | s' m' e'];
      subst; try reflexivity. congruence.
Qed.

(** The product of a double below zero and one above is below zero or a
    zero, in either order. *)
Lemma SFmul_opposite (x y : spec_float) :
  SFltb x (S754_zero false) = true -> SFltb (S754_zero false) y = true ->
  (SFltb (SFmul prec emax x y) (S754_zero false) = true \/
   SFeqb (SFmul prec emax x y) (S754_zero false) = true) /\
  (SFltb (SFmul prec emax y x) (S754_zero false) = true \/
   SFeqb (SFmul prec emax y x) (S754_zero false) = true).
Proof.
  destruct x as [sx | [|] | | [|] mx ex], y as [sy | [|] | | [|] my ey];
    try discriminate; intros _ _; cbn [SFmul xorb]; auto.
  pose proof (binary_round_aux_sign true (Zpos (mx * my)) (ex + ey)
                                    loc_Exact) as Hs1.
  pose proof (binary_round_aux_not_nan true (Zpos (mx * my)) (ex + ey)
                loc_Exact ltac:(lia)) as Hn1.
  pose proof (binary_round_aux_sign true (Zpos (my * mx)) (ey + ex)
                                    loc_Exact) as Hs2.
  pose proof (binary_round_aux_not_nan true (Zpos (my * mx)) (ey + ex)
                loc_Exact ltac:(lia)) as Hn2.
  split.
  - destruct (binary_round_aux prec emax true (Zpos (mx * my)) _ _)
      as [s' | s' | | s' m' e']; subst; auto; congruence.
  - destruct (binary_round_aux prec emax true (Zpos (my * mx)) _ _)
      as [s' | s' | | s' m' e']; subst; auto; congruence.
Qed.

(** *** Comparisons *)

(** Every double but NaN compares equal to itself. *)
Lemma SFcompare_refl (x : spec_float) :
  x <> S754_nan -> SFcompare x x = Some Eq.
Proof.
  destruct x as [s | s | | s m e]; intros Hx; try reflexivity.
  - now destruct s.
  - congruence.
  - cbn. rewrite Z.compare_refl.
    change (Pos.compare_cont Eq m m) with (Pos.compare m m).
    rewrite Pos.compare_refl. now destruct s.
Qed.






(** A product below zero: one factor is below zero, the other above. *)
Lemma SFmul_negative (x y : spec_float) :
  SFltb (SFmul prec emax x y) (S754_zero false) = true ->
  SFltb x (S754_zero false) = true /\ SFltb (S754_zero false) y = true \/
  SFltb (S754_zero false) x = true /\ SFltb y (S754_zero false) = true.
Proof.
  destruct x as [sx | sx | | sx mx ex], y as [sy | sy | | sy my ey];
    try (try destruct sx; try destruct sy; cbn; intuition discriminate).
  cbn [SFmul].
  pose proof (binary_round_aux_sign (xorb sx sy) (Zpos (mx * my)) (ex + ey)
                                    loc_Exact) as H.
  destruct (binary_round_aux _ _ _ _ _ _) as [s | s | | s m e]; subst;
    destruct sx, sy; cbn; intuition discriminate.
Qed.

(** A product above zero: both factors are on the same side of zero. *)
Lemma SFmul_positive (x y : spec_float) :
  SFltb (S754_zero false) (SFmul prec emax x y) = true ->
  SFltb (S754_zero false) x = true /\ SFltb (S754_zero false) y = true \/
  SFltb x (S754_zero false) = true /\ SFltb y (S754_zero false) = true.
Proof.
  destruct x as [sx | sx | | sx mx ex], y as [sy | sy | | sy my ey];
    try (try destruct sx; try destruct sy; cbn; intuition discriminate).
  cbn [SFmul].
  pose proof (binary_round_aux_sign (xorb sx sy) (Zpos (mx * my)) (ex + ey)
                                    loc_Exact) as H.
  destruct (binary_round_aux _ _ _ _ _ _) as [s | s | | s m e]; subst;
    destruct sx, sy; cbn; intuition discriminate.
Qed.

(** The comparisons of two doubles, case by case. *)
Ltac compare_cases :=
  repeat match goal with
  | H : context [Z.compare ?a ?b] |- _ => destruct (Z.compare_spec a b)
  | |- context [Z.compare ?a ?b] => destruct (Z.compare_spec a b)
  | H : context [Pos.compare_cont Eq ?a ?b] |- _ =>
      change (Pos.compare_cont Eq a b) with (Pos.compare a b) in *;
      destruct (Pos.compare_spec a b)
  | |- context [Pos.compare_cont Eq ?a ?b] =>
      change (Pos.compare_cont Eq a b) with (Pos.compare a b) in *;
      destruct (Pos.compare_spec a b)
  end.

(** [<] and [<=] on doubles are transitive, NaN included: no comparison
    with it holds. *)
Lemma SFltb_leb_trans (x y z : spec_float) :
  SFltb x y = true -> SFleb y z = true -> SFltb x z = true.
Proof.
  unfold SFltb, SFleb.
  destruct x as [sx | sx | | sx mx ex], y as [sy | sy | | sy my ey],
           z as [sz | sz | | sz mz ez]; cbn; try discriminate;
    try destruct sx; try destruct sy; try destruct sz; cbn;
    try discriminate; try reflexivity;
    intros H1 H2; compare_cases; cbn in *; try discriminate;
    try reflexivity; lia.
Qed.

Lemma SFleb_trans (x y z : spec_float) :
  SFleb x y = true -> SFleb y z = true -> SFleb x z = true.
Proof.
  unfold SFleb.
  destruct x as [sx | sx | | sx mx ex], y as [sy | sy | | sy my ey],
           z as [sz | sz | | sz mz ez]; cbn; try discriminate;
    try destruct sx; try destruct sy; try destruct sz; cbn;
    try discriminate; try reflexivity;
    intros H1 H2; compare_cases; cbn in *; try discriminate;
    try reflexivity; lia.
Qed.

(** What is compared with [<=] compares equal to itself. *)
Lemma SFleb_refl_of_leb (x y : spec_float) :
  SFleb x y = true -> SFleb x x = true /\ SFleb y y = true.
Proof.
  intros Hxy. unfold SFleb in *.
  destruct x as [sx | sx | | sx mx ex]; try discriminate;
    destruct y as [sy | sy | | sy my ey];
    try (destruct sx; discriminate);
    rewrite !SFcompare_refl by discriminate; auto.
Qed.

(** A double that is not NaN to [is_nan] is not the NaN of the
    specification. *)
Lemma is_nan_sf (x : float) :
  PrimFloat.is_nan x = false -> Prim2SF x <> S754_nan.
Proof.
  unfold PrimFloat.is_nan. rewrite eqb_spec. intros H Hx.
  rewrite Hx in H. discriminate.
Qed.

(** *** Results that need no rounding *)

(** A normalised result below [2^1024] is a finite double. *)
Lemma rounded_finite (s : bool) (m e : Z) :
  0 <= m < 2 ^ 53 -> -1074 <= e -> (-1074 < e -> 2 ^ 52 <= m) ->
  scaled m e < huge ->
  sf_finite (rounded s m e) = true /\
  SF_scaled (rounded s m e) = cond_Zopp s (scaled m e).
Proof.
  intros Hm He Hnormal Hsmall.
  destruct (rounded_value s m e Hm He Hnormal)
    as (Hnan & [(HV & _ & Hfin) | (_ & Hhuge)]); [|lia].
  split; [|exact HV].
  destruct (rounded s m e) as [sg | sg | | sg m' e']; trivial.
  - exfalso. exact (Hfin sg eq_refl).
  - congruence.
Qed.

(** A product whose exact value is a value of at most 53 bits, below
    [2^1024], is that value: the rounding changes nothing. *)
Lemma SFmul_exact (sa sb : bool) (ma mb : positive) (ea eb R : Z) :
  valid_binary (S754_finite sa ma ea) = true ->
  valid_binary (S754_finite sb mb eb) = true ->
  magnitude53 R -> R < huge ->
  Zpos ma * Zpos mb * 2 ^ (ea + eb + 2148) = R * 2 ^ 1074 ->
  sf_finite (SFmul prec emax (S754_finite sa ma ea) (S754_finite sb mb eb))
    = true /\
  SF_scaled (SFmul prec emax (S754_finite sa ma ea) (S754_finite sb mb eb))
    = cond_Zopp (xorb sa sb) R.
Proof.
  intros Ha Hb HR Hsmall Hexact. cbn [SFmul].
  pose proof (valid_finite _ _ _ Ha) as (Hea & Hma & Hna).
  pose proof (valid_finite _ _ _ Hb) as (Heb & Hmb & Hnb).
  change (Zpos (ma * mb)) with (Zpos ma * Zpos mb).
  set (m := Zpos ma * Zpos mb) in *. set (e := ea + eb) in *.
  assert (Hm : 0 < m) by (subst m; lia).
  assert (Hle : e <= fexp prec emax (Zdigits2 m + e)).
  { rewrite fexp_eq. destruct (Z.le_gt_cases e (-1074)); [lia|].
    assert (2 ^ 52 <= m).
    { assert (1 <= Zpos ma) by lia. assert (1 <= Zpos mb) by lia.
      destruct (Z.eq_dec ea (-1074)).
      - specialize (Hnb ltac:(lia)). subst m. nia.
      - specialize (Hna ltac:(lia)). subst m. nia. }
    assert (52 < Zdigits2 m) by (apply Zdigits2_ge; lia). lia. }
  destruct (round_aux_spec (xorb sa sb) m e loc_Exact ltac:(lia) Hle)
    as (m'' & e'' & Hshape & Hm'' & He'' & Hval & Hex & Hnormal & Hm53 &
        Ht & Htnormal).
  set (e' := fexp prec emax (Zdigits2 m + e)) in *.
  set (n := e' - e) in *. set (t := m / 2 ^ n) in *.
  assert (He'min : -1074 <= e') by (subst e'; rewrite fexp_eq; lia).
  assert (Hn : 0 <= n) by (subst n; lia).
  assert (Hpn : 0 < 2 ^ n) by (apply Z.pow_pos_nonneg; lia).
  assert (Hdiv : m = 2 ^ n * t + m mod 2 ^ n)
    by (subst t; apply Z.div_mod; lia).
  assert (Hmod : 0 <= m mod 2 ^ n < 2 ^ n) by (apply Z.mod_pos_bound; lia).
  set (P := 2 ^ (e + 2148)) in *.
  assert (HP : 0 < P) by (subst P e; apply Z.pow_pos_nonneg; lia).
  assert (HK : 0 < 2 ^ 1074) by (apply Z.pow_pos_nonneg; lia).
  assert (Hunit : forall u, scaled u e' * 2 ^ 1074 = u * 2 ^ n * P).
  { intros u. unfold scaled. subst P.
    rewrite <- !Z.mul_assoc, <- !Z.pow_add_r by (subst e; lia).
    f_equal. f_equal. subst n. lia. }
  assert (Hlo : scaled t e' <= R).
  { apply (Z.mul_le_mono_pos_r _ _ (2 ^ 1074)); [lia|].
    rewrite Hunit, <- Hexact. nia. }
  assert (Hhi : R < scaled (t + 1) e').
  { apply (Z.mul_lt_mono_pos_r (2 ^ 1074)); [lia|].
    rewrite Hunit, <- Hexact. nia. }
  assert (HRt : R = scaled t e').
  { destruct (Z.lt_ge_cases (scaled t e') R) as [Hlt | Hge]; [|lia].
    pose proof (no_value_inside t e' R ltac:(lia) He'min Htnormal HR Hlt).
    lia. }
  assert (Hmt : m mod 2 ^ n = 0).
  { assert (Heq : m * P = t * 2 ^ n * P) by (rewrite <- Hunit, <- HRt; lia).
    apply Z.mul_reg_r in Heq; lia. }
  specialize (Hex eq_refl Hmt).
  change (binary_round_aux prec emax (xorb sa sb) m e loc_Exact
          = rounded (xorb sa sb) m'' e'') in Hshape.
  rewrite Hshape.
  destruct (rounded_finite (xorb sa sb) m'' e'' ltac:(lia) He'' Hnormal
              ltac:(lia)) as (Hfin & HV).
  split; [exact Hfin|]. rewrite HV. f_equal. lia.
Qed.

(** Rounding a number that is a value of at most 53 bits, below [2^1024],
    changes nothing. *)
Lemma binary_normalize_exact (z e : Z) :
  -1074 <= e -> signed53 (scaled z e) -> - huge < scaled z e < huge ->
  sf_finite (binary_normalize prec emax z e false) = true /\
  SF_scaled (binary_normalize prec emax z e false) = scaled z e.
Proof.
  intros He HR Hsmall. destruct z as [|p|p]; cbn [binary_normalize].
  - split; [reflexivity|]. unfold scaled. cbn. lia.
  - pose proof (scaled_pos_pos p e He) as Hpos.
    destruct (binary_round_between false p e He)
      as (m'' & e'' & -> & Hm'' & He'' & Hnormal & Hbetween).
    assert (HR' : magnitude53 (scaled (Zpos p) e)).
    { destruct HR as [HR | HR]; [exact HR|].
      apply magnitude53_nonneg in HR. lia. }
    destruct (Hbetween _ HR') as (Hlo & Hhi).
    specialize (Hlo (Z.le_refl _)). specialize (Hhi (Z.le_refl _)).
    destruct (rounded_finite false m'' e'' Hm'' He'' Hnormal ltac:(lia))
      as (Hfin & HV).
    split; [exact Hfin|]. rewrite HV. cbn [cond_Zopp]. lia.
  - change (Zneg p) with (- Zpos p) in *. rewrite scaled_opp in *.
    pose proof (scaled_pos_pos p e He) as Hpos.
    destruct (binary_round_between true p e He)
      as (m'' & e'' & -> & Hm'' & He'' & Hnormal & Hbetween).
    assert (HR' : magnitude53 (scaled (Zpos p) e)).
    { destruct HR as [HR | HR].
      - apply magnitude53_nonneg in HR. lia.
      - now rewrite Z.opp_involutive in HR. }
    destruct (Hbetween _ HR') as (Hlo & Hhi).
    specialize (Hlo (Z.le_refl _)). specialize (Hhi (Z.le_refl _)).
    destruct (rounded_finite true m'' e'' Hm'' He'' Hnormal ltac:(lia))
      as (Hfin & HV).
    split; [exact Hfin|]. rewrite HV. cbn [cond_Zopp]. lia.
Qed.

(** A sum whose exact value is the value of a double is that value. *)
Lemma SFadd_exact (a b z : spec_float) :
  valid_binary a = true -> valid_binary b = true -> valid_binary z = true ->
  sf_finite a = true -> sf_finite b = true -> sf_finite z = true ->
  SF_scaled z = SF_scaled a + SF_scaled b ->
  sf_finite (SFadd prec emax a b) = true /\
  SF_scaled (SFadd prec emax a b) = SF_scaled z.
Proof.
  intros Ha Hb Hz Hfa Hfb Hfz Hsum.
  destruct a as [sa | sa | | sa ma ea], b as [sb | sb | | sb mb eb];
    try discriminate.
  - cbn [SFadd]. split; [now destruct sa, sb|].
    rewrite Hsum. now destruct sa, sb.
  - cbn [SFadd]. split; [reflexivity|]. rewrite Hsum. cbn [SF_scaled]. lia.
  - cbn [SFadd]. split; [reflexivity|]. rewrite Hsum. cbn [SF_scaled]. lia.
  - destruct (SFadd_as_normalize sa sb ma mb ea eb Ha Hb)
      as (zz & ez & -> & Hez & Hval).
    rewrite <- Hsum in Hval. rewrite <- Hval.
    apply binary_normalize_exact; [exact Hez | |].
    + rewrite Hval. exact (proj1 (signed53_value z Hz Hfz)).
    + rewrite Hval. destruct z as [sz | sz | | sz mz ez']; try discriminate.
      * cbn [SF_scaled]. unfold huge.
        assert (0 < 2 ^ 2098) by (apply Z.pow_pos_nonneg; lia). lia.
      * pose proof (scaled_valid_bounds _ _ _ Hz). cbn [SF_scaled].
        destruct sz; cbn [cond_Zopp]; lia.
Qed.

End Doubles.

(** ** Values of doubles as rationals *)

Section ExactValues.

(** [2^1074] as a rational: the values of doubles are the positions on the
    integer line divided by it. *)
Lemma SF_value_scaled (x : spec_float) (q : Q) :
  valid_binary x = true -> SF_value x = Some q ->
  inject_Z (SF_scaled x) == q * inject_Z (2 ^ 1074).
Proof.
  intros Hx Hq. destruct x as [s | s | | s m e]; try discriminate.
  - injection Hq as <-. cbn [SF_scaled]. ring.
  - injection Hq as <-. cbn [SF_scaled].
    pose proof (valid_finite _ _ _ Hx) as (He & _).
    assert (Hsign : cond_Zopp s (scaled (Zpos m) e)
                    = (cond_Zopp s (Zpos m) * 2 ^ (e + 1074))%Z)
      by (unfold scaled; destruct s; cbn [cond_Zopp]; ring).
    rewrite Hsign, inject_Z_mult.
    rewrite (Zpower_Qpower 2 (e + 1074)) by lia.
    rewrite (Zpower_Qpower 2 1074) by lia.
    rewrite Qpower_plus by discriminate.
    change (inject_Z 2) with 2. ring.
Qed.

Lemma sf_finite_value (x : spec_float) :
  sf_finite x = true -> exists q, SF_value x = Some q.
Proof.
  destruct x as [s | s | | s m e]; try discriminate; intros _; cbn; eauto.
Qed.

Lemma value_sf_finite (x : spec_float) (q : Q) :
  SF_value x = Some q -> sf_finite x = true.
Proof. destruct x; try discriminate; reflexivity. Qed.

Lemma two_1074_nonzero : ~ inject_Z (2 ^ 1074) == 0.
Proof.
  rewrite (Zpower_Qpower 2 1074) by lia.
  apply Qpower_not_0. discriminate.
Qed.

(** Two finite doubles at the same position have the same value. *)
Lemma same_scaled_same_value (x y : spec_float) (qx qy : Q) :
  valid_binary x = true -> valid_binary y = true ->
  SF_value x = Some qx -> SF_value y = Some qy ->
  SF_scaled x = SF_scaled y -> qx == qy.
Proof.
  intros Hx Hy Hqx Hqy Hsame.
  pose proof (SF_value_scaled x qx Hx Hqx) as H1.
  pose proof (SF_value_scaled y qy Hy Hqy) as H2.
  rewrite Hsame, H2 in H1.
  apply (Qmult_inj_r _ _ _ two_1074_nonzero). symmetry. exact H1.
Qed.

End ExactValues.

Section ExactOperations.

(** A product whose exact value is the value of a double is that value. *)
Lemma SFmul_exact_value (a b z : spec_float) :
  valid_binary a = true -> valid_binary b = true -> valid_binary z = true ->
  sf_finite a = true -> sf_finite b = true -> sf_finite z = true ->
  (SF_scaled z * 2 ^ 1074 = SF_scaled a * SF_scaled b)%Z ->
  sf_finite (SFmul prec emax a b) = true /\
  SF_scaled (SFmul prec emax a b) = SF_scaled z.
Proof.
  intros Ha Hb Hz Hfa Hfb Hfz Hprod.
  assert (HK : (0 < 2 ^ 1074)%Z) by (apply Z.pow_pos_nonneg; lia).
  destruct a as [sa | sa | | sa ma ea]; try discriminate;
    destruct b as [sb | sb | | sb mb eb]; try discriminate;
    cbn [SFmul]; try (cbn [SF_scaled] in *; split; [reflexivity | nia]).
  pose proof (scaled_valid_bounds _ _ _ Ha) as HA.
  pose proof (scaled_valid_bounds _ _ _ Hb) as HB.
  pose proof (valid_finite _ _ _ Ha) as (Hea & _).
  pose proof (valid_finite _ _ _ Hb) as (Heb & _).
  assert (HAB : (scaled (Zpos ma) ea * scaled (Zpos mb) eb
                 = Zpos ma * Zpos mb * 2 ^ (ea + eb + 2148))%Z).
  { unfold scaled.
    replace (ea + eb + 2148)%Z with ((ea + 1074) + (eb + 1074))%Z by lia.
    rewrite (Z.pow_add_r 2 (ea + 1074) (eb + 1074)) by lia. ring. }
  cbn [SF_scaled] in Hprod.
  destruct z as [sz | sz | | sz mz ez]; try discriminate.
  - exfalso. cbn [SF_scaled] in Hprod.
    destruct sa, sb; cbn [cond_Zopp] in Hprod; nia.
  - pose proof (scaled_valid_bounds _ _ _ Hz) as HR.
    pose proof (valid_finite _ _ _ Hz) as (Hez & Hmz & _).
    cbn [SF_scaled] in Hprod |- *.
    assert (Hsign : sz = xorb sa sb /\
                    (scaled (Zpos mz) ez * 2 ^ 1074
                     = scaled (Zpos ma) ea * scaled (Zpos mb) eb)%Z).
    { destruct sz, sa, sb; cbn [cond_Zopp xorb] in *; split;
        try reflexivity; nia. }
    destruct Hsign as (-> & Hmag).
    apply (SFmul_exact sa sb ma mb ea eb (scaled (Zpos mz) ez) Ha Hb).
    + exists (Zpos mz), ez. repeat split; lia.
    + lia.
    + rewrite <- HAB. lia.
Qed.

Lemma representable_compat (q q' : Q) :
  q == q' -> representable q -> representable q'.
Proof.
  intros Heq (z & qz & Hz & Hqz). exists z, qz. split; [exact Hz|].
  now rewrite Hqz.
Qed.

(** In binary64 a product is exact when its exact value is the value of a
    double. *)
Lemma float_mul_exact (x y : float) (qx qy : Q) :
  float_value x = Some qx -> float_value y = Some qy ->
  representable (qx * qy) ->
  exists q, float_value (x * y)%float = Some q /\ q == qx * qy.
Proof.
  intros Hx Hy (z & qz & Hz & Hqz). unfold float_value in *.
  pose proof (SF_value_scaled _ _ (Prim2SF_valid x) Hx) as Sx.
  pose proof (SF_value_scaled _ _ (Prim2SF_valid y) Hy) as Sy.
  pose proof (SF_value_scaled _ _ (Prim2SF_valid z) Hz) as Sz.
  assert (Hprod : (SF_scaled (Prim2SF z) * 2 ^ 1074
                   = SF_scaled (Prim2SF x) * SF_scaled (Prim2SF y))%Z).
  { apply inject_Z_injective. rewrite !inject_Z_mult, Sx, Sy, Sz, Hqz.
    ring. }
  destruct (SFmul_exact_value _ _ _ (Prim2SF_valid x) (Prim2SF_valid y)
              (Prim2SF_valid z) (value_sf_finite _ _ Hx)
              (value_sf_finite _ _ Hy) (value_sf_finite _ _ Hz) Hprod)
    as (Hfin & Hsame).
  pose proof (Prim2SF_valid (x * y)) as Hvalid. rewrite mul_spec in *.
  destruct (sf_finite_value _ Hfin) as (q & Hq).
  exists q. split; [exact Hq|].
  rewrite <- Hqz.
  exact (same_scaled_same_value _ _ _ _ Hvalid (Prim2SF_valid z) Hq Hz Hsame).
Qed.

(** And so is a sum. *)
Lemma float_add_exact (x y : float) (qx qy : Q) :
  float_value x = Some qx -> float_value y = Some qy ->
  representable (qx + qy) ->
  exists q, float_value (x + y)%float = Some q /\ q == qx + qy.
Proof.
  intros Hx Hy (z & qz & Hz & Hqz). unfold float_value in *.
  pose proof (SF_value_scaled _ _ (Prim2SF_valid x) Hx) as Sx.
  pose proof (SF_value_scaled _ _ (Prim2SF_valid y) Hy) as Sy.
  pose proof (SF_value_scaled _ _ (Prim2SF_valid z) Hz) as Sz.
  assert (Hsum : (SF_scaled (Prim2SF z)
                  = SF_scaled (Prim2SF x) + SF_scaled (Prim2SF y))%Z).
  { apply inject_Z_injective. rewrite inject_Z_plus, Sx, Sy, Sz, Hqz.
    ring. }
  destruct (SFadd_exact _ _ _ (Prim2SF_valid x) (Prim2SF_valid y)
              (Prim2SF_valid z) (value_sf_finite _ _ Hx)
              (value_sf_finite _ _ Hy) (value_sf_finite _ _ Hz) Hsum)
    as (Hfin & Hsame).
  pose proof (Prim2SF_valid (x + y)) as Hvalid. rewrite add_spec in *.
  destruct (sf_finite_value _ Hfin) as (q & Hq).
  exists q. split; [exact Hq|].
  rewrite <- Hqz.
  exact (same_scaled_same_value _ _ _ _ Hvalid (Prim2SF_valid z) Hq Hz Hsame).
Qed.

(** Horner's loop in binary64 has no rounding error when the exact value
    of every step is the value of a double. *)
Lemma representable_steps_exact (x : float) (qx : Q) :
  float_value x = Some qx ->
  forall (p : list float) (qs : list Q) (y : float) (qy qy' : Q),
    float_values p = Some qs -> float_value y = Some qy' -> qy' == qy ->
    steps_representable qs qx qy -> exact_steps p x y = true.
Proof.
  intros Hx. induction p as [|pv rest IH]; intros qs y qy qy' Hqs Hy Heq Hrep.
  - reflexivity.
  - cbn [float_values] in Hqs.
    destruct (float_value pv) as [qp|] eqn:Hpv; [|discriminate].
    destruct (float_values rest) as [qs'|] eqn:Hrest; [|discriminate].
    injection Hqs as <-. cbn [steps_representable] in Hrep.
    destruct Hrep as (Hmul & Hadd & Hrep).
    destruct (float_mul_exact y x qy' qx Hy Hx) as (qm & Hqm & Hm).
    { apply (representable_compat (qy * qx)); [now rewrite Heq | exact Hmul]. }
    destruct (float_add_exact (y * x) pv qm qp Hqm Hpv) as (qr & Hqr & Hr).
    { apply (representable_compat (qy * qx + qp)); [|exact Hadd].
      now rewrite Hm, Heq. }
    cbn [exact_steps]. apply andb_true_iff. split.
    + unfold exact_step. cbn [f_add f_mul binary64].
      rewrite Hy, Hx, Hpv, Hqr. apply Qeq_bool_iff. now rewrite Hr, Hm.
    + apply (IH qs' _ (qy * qx + qp) qr eq_refl Hqr); [|exact Hrep].
      now rewrite Hr, Hm, Heq.
Qed.

End ExactOperations.

Set Implicit Arguments.

(** ** The laws, in both arithmetics *)

(** *** Signs *)

#[export] Instance exact_sign_laws : SignLaws exact.
Proof.
  split.
  - intros x Hx. apply exact_lt_iff in Hx. apply exact_ge_false_iff.
    exact Hx.
  - intros x Hx. apply exact_lt_iff in Hx. apply exact_lt_false_iff.
    cbn in *. lra.
  - intros x y Hxy. apply exact_lt_iff in Hxy. cbn in Hxy.
    rewrite !exact_lt_iff. cbn.
    destruct (Q_dec x 0) as [[Hx|Hx]|Hx].
    + left. split; [exact Hx|].
      destruct (Qlt_le_dec 0 y); [assumption | exfalso; nra].
    + right. split; [exact Hx|].
      destruct (Qlt_le_dec y 0); [assumption | exfalso; nra].
    + rewrite Hx in Hxy. lra.
  - intros x y Hxy. apply exact_lt_iff in Hxy. cbn in Hxy.
    rewrite !exact_lt_iff. cbn.
    destruct (Q_dec x 0) as [[Hx|Hx]|Hx].
    + right. split; [exact Hx|].
      destruct (Qlt_le_dec y 0); [assumption | exfalso; nra].
    + left. split; [exact Hx|].
      destruct (Qlt_le_dec 0 y); [assumption | exfalso; nra].
    + rewrite Hx in Hxy. lra.
  - intros x y Hx Hy. apply exact_lt_iff in Hx, Hy.
    rewrite !exact_lt_iff. cbn in *. split; left; nra.
Qed.

(** For binary64, from the specification of [*], [<], [<=] and [==] on
    doubles. *)
#[export] Instance binary64_sign_laws : SignLaws binary64.
Proof.
  split; cbn.
  - intros x. rewrite ltb_spec, leb_spec.
    change (Prim2SF 0) with (S754_zero false).
    now destruct (Prim2SF x) as [[|] | [|] | | [|] m e].
  - intros x. rewrite !ltb_spec.
    change (Prim2SF 0) with (S754_zero false).
    now destruct (Prim2SF x) as [[|] | [|] | | [|] m e].
  - intros x y. rewrite !ltb_spec, mul_spec.
    change (Prim2SF 0) with (S754_zero false). apply SFmul_negative.
  - intros x y. rewrite !ltb_spec, mul_spec.
    change (Prim2SF 0) with (S754_zero false). apply SFmul_positive.
  - intros x y. rewrite !ltb_spec, !eqb_spec, !mul_spec.
    change (Prim2SF 0) with (S754_zero false). apply SFmul_opposite.
Qed.

(** *** Values that are the same *)

(** In [Q] the same values are the equal rationals. *)
Lemma exact_same_value (x y : Q) : same_value x y <-> x == y.
Proof.
  unfold same_value. rewrite exact_eq_iff. split; [|now left].
  intros [H | (H & _)]; [exact H|].
  apply not_true_iff_false in H. exfalso. apply H.
  apply exact_eq_iff. reflexivity.
Qed.

#[export] Instance exact_eq_laws : EqLaws exact.
Proof.
  split.
  - reflexivity.
  - intros x x' y y'. rewrite !exact_same_value. cbn.
    now intros -> ->.
  - intros x x' y y'. rewrite !exact_same_value. cbn.
    now intros -> ->.
Qed.



(** *** Order *)

#[export] Instance exact_order_laws : OrderLaws exact.
Proof.
  split.
  - intros x t t' Hx Ht. apply exact_lt_iff in Hx. apply exact_lt_iff.
    cbn in Ht. apply Qle_bool_iff in Ht. lra.
  - intros x y z Hxy Hyz. cbn in *. apply Qle_bool_iff in Hxy, Hyz.
    apply Qle_bool_iff. lra.
  - intros x y _. cbn. split; apply Qle_bool_iff; apply Qle_refl.
Qed.

#[export] Instance binary64_order_laws : OrderLaws binary64.
Proof.
  split; cbn.
  - intros x t t'. rewrite !ltb_spec, leb_spec. apply SFltb_leb_trans.
  - intros x y z. rewrite !leb_spec. apply SFleb_trans.
  - intros x y. rewrite !leb_spec. apply SFleb_refl_of_leb.
Qed.

(** *** The midpoint *)

#[export] Instance exact_midpoint_laws : MidpointLaws exact exact_finite.
Proof.
  split. intros a b Hab _. cbn in *. apply Qle_bool_iff in Hab.
  unfold Qdiv. change (/ 2) with (1 # 2).
  split; apply Qle_bool_iff; lra.
Qed.

(** For binary64, from the specification of [+] and [/] on doubles: the
    sum is rounded once, the half once more, and both roundings are
    monotone. *)
#[export] Instance binary64_midpoint_laws :
  MidpointLaws binary64 binary64_finite.
Proof.
  split. intros a b Hab Hfin. cbn in *.
  destruct (binary64_midpoint a b Hab Hfin). now split.
Qed.

(** ** The evaluator *)

(** Horner's loop from any accumulator [y]: the accumulator ends up
    multiplied by [x^n], [n] the number of coefficients consumed. *)
Lemma horner_from (coefficients : list Q) (x : Q) :
  forall y : Q,
    fold_left (fun acc pv => f_add (f_mul acc x) pv) coefficients y ==
    y * power x (length coefficients) + sum_of_powers coefficients x.
Proof.
  induction coefficients as [|a_n rest IH]; intros y.
  - cbn. ring.
  - cbn [fold_left length power sum_of_powers]. rewrite IH. cbn. ring.
Qed.

(** Horner's loop in binary64, as long as no step has a rounding error,
    follows the loop over the rationals. *)
Lemma exact_steps_sound (p : list float) (x : float) (qx : Q) :
  float_value x = Some qx ->
  forall (y : float) (qy : Q),
    float_value y = Some qy -> exact_steps p x y = true ->
    exists qs q,
      float_values p = Some qs /\
      float_value (fold_left (fun acc pv => f_add (f_mul acc x) pv) p y)
        = Some q /\
      q == qy * power qx (length qs) + sum_of_powers qs qx.
Proof.
  intros Hx. induction p as [|pv rest IH]; intros y qy Hy Hsteps.
  - exists [], qy. split; [reflexivity|]. split; [exact Hy|]. cbn. ring.
  - cbn [exact_steps] in Hsteps. apply andb_true_iff in Hsteps.
    destruct Hsteps as (Hstep & Hrest). unfold exact_step in Hstep.
    rewrite Hy, Hx in Hstep.
    destruct (float_value pv) as [qp|] eqn:Hpv; [|discriminate].
    destruct (float_value (f_add (f_mul y x) pv)) as [qr|] eqn:Hr;
      [|discriminate].
    apply Qeq_bool_iff in Hstep.
    destruct (IH _ qr Hr Hrest) as (qs & q & Hqs & Hq & Heq).
    exists (qp :: qs), q. cbn [float_values fold_left].
    rewrite Hpv, Hqs. split; [reflexivity|]. split; [exact Hq|].
    rewrite Heq, Hstep. cbn [length power sum_of_powers]. ring.
Qed.

(** C7 (as amended).  In binary64, [evaluate_poly] on finite coefficients
    [[a_n; ...; a_0]] (highest degree first) and a finite point [x] returns
    the number [a_n * x^n + ... + a_0] whenever Horner's loop, run without
    rounding, meets only values of doubles: every product [y * x] and every
    sum [y * x + a_k] on its way is one.  So it does whenever no step
    [y * x + pv] of the loop in binary64 has a rounding error.  In exact
    arithmetic it is that sum for every coefficient list and point.  In any
    arithmetic it is Horner's rule: [0] on no coefficient, and one more
    coefficient [a] at the low end turns the value [v] into [v * x + a]. *)
Theorem evaluate_poly_is_sum_of_powers :
  (forall (coefficients : list float) (x : float) (qs : list Q) (qx : Q),
      float_values coefficients = Some qs -> float_value x = Some qx ->
      steps_representable qs qx 0 ->
      is_sum_of_powers coefficients x = true) /\
  (forall (coefficients : list float) (x : float) (qx : Q),
      float_value x = Some qx ->
      exact_steps coefficients x 0 = true ->
      is_sum_of_powers coefficients x = true) /\
  (forall (coefficients : list Q) (x : Q),
      evaluate_poly coefficients x == sum_of_powers coefficients x) /\
  (forall (F : Type) (A : Arith F) (coefficients : list F) (a x : F),
      evaluate_poly [] x = f_zero /\
      evaluate_poly (coefficients ++ [a]) x =
        f_add (f_mul (evaluate_poly coefficients x) x) a).
Proof.
  assert (Hexact : forall (coefficients : list float) (x : float) (qx : Q),
    float_value x = Some qx -> exact_steps coefficients x 0 = true ->
    is_sum_of_powers coefficients x = true).
  { intros coefficients x qx Hx Hsteps.
    destruct (@exact_steps_sound coefficients x qx Hx 0%float 0 eq_refl Hsteps)
      as (qs & q & Hqs & Hq & Heq).
    unfold is_sum_of_powers, evaluate_poly, polyval. cbn [f_zero binary64].
    rewrite Hqs, Hx, Hq. apply Qeq_bool_iff. rewrite Heq. ring. }
  split; [|split; [exact Hexact|split]].
  - intros coefficients x qs qx Hqs Hx Hrep.
    apply (Hexact coefficients x qx Hx).
    apply (representable_steps_exact x qx Hx coefficients qs 0%float 0 0
             Hqs eq_refl (Qeq_refl 0) Hrep).
  - intros coefficients x. unfold evaluate_poly, polyval.
    rewrite horner_from. cbn. ring.
  - intros F A coefficients a x. unfold evaluate_poly, polyval.
    now rewrite fold_left_app.
Qed.

(** [x^2 - 4] at [2.25] in binary64: Horner's loop without rounding goes
    through [0], [1], [2.25], [2.25], [5.0625] and [1.0625], all values of
    doubles, and the value [1.0625] returned is [(9/4)^2 - 4]. *)
Lemma evaluate_poly_exact_at_2_25 :
  exists (qs : list Q) (qx : Q),
    (float_values [1; 0; -4] = Some qs /\
     float_value 2.25 = Some qx /\
     Forall2 Qeq qs [1%Q; 0%Q; (-4)%Q] /\ (qx == 9 # 4)%Q /\
     steps_representable qs qx 0 /\
     evaluate_poly [1; 0; -4] 2.25 = 1.0625 /\
     is_sum_of_powers [1; 0; -4] 2.25 = true)%float.
Proof.
  eexists; eexists.
  split; [vm_compute; reflexivity|]. split; [vm_compute; reflexivity|].
  split; [repeat constructor|]. split; [reflexivity|].
  assert (Hrep : forall (z : float) (qz q : Q),
            float_value z = Some qz -> Qeq_bool qz q = true ->
            representable q).
  { intros z qz q Hz Hq. exists z, qz. split; [exact Hz|].
    now apply Qeq_bool_iff. }
  match goal with
  | |- steps_representable ?qs ?qx 0 /\ _ =>
    assert (Hsteps : steps_representable qs qx 0)
  end.
  { cbn [steps_representable]. repeat split.
    - apply (Hrep 0%float _ _ eq_refl). vm_compute. reflexivity.
    - apply (Hrep 1%float _ _ eq_refl). vm_compute. reflexivity.
    - apply (Hrep 2.25%float _ _ eq_refl). vm_compute. reflexivity.
    - apply (Hrep 2.25%float _ _ eq_refl). vm_compute. reflexivity.
    - apply (Hrep 5.0625%float _ _ eq_refl). vm_compute. reflexivity.
    - apply (Hrep 1.0625%float _ _ eq_refl). vm_compute. reflexivity. }
  split; [exact Hsteps|]. split; [reflexivity|].
  refine (proj1 evaluate_poly_is_sum_of_powers _ _ _ _ _ _ Hsteps);
    vm_compute; reflexivity.
Defined.

(** C7 (as stated) fails in binary64 where a step rounds.  At
    [x = 1 + 2^-52] the polynomial [x^2] has the value
    [1 + 2^-51 + 2^-104], which no double stands for: [evaluate_poly] returns
    [1 + 2^-51].  On the doubles nearest to [0.1], [0.2], [0.3] and the point
    nearest to [0.7] it returns [0x1.f4bc6a7ef9db2p-2], which is not the sum
    [a_2 * x^2 + a_1 * x + a_0] of the four numbers either.  All the values
    are finite. *)
Lemma rounding_breaks_sum_of_powers :
  (evaluate_poly [1; 0; 0] 0x1.0000000000001p0 = 0x1.0000000000002p0 /\
   is_sum_of_powers [1; 0; 0] 0x1.0000000000001p0 = false /\
   evaluate_poly [0x1.999999999999ap-4; 0x1.999999999999ap-3;
                  0x1.3333333333333p-2] 0x1.6666666666666p-1
     = 0x1.f4bc6a7ef9db2p-2 /\
   is_sum_of_powers [0x1.999999999999ap-4; 0x1.999999999999ap-3;
                     0x1.3333333333333p-2] 0x1.6666666666666p-1 = false /\
   PrimFloat.is_finite 0x1.0000000000002p0 = true /\
   PrimFloat.is_finite 0x1.f4bc6a7ef9db2p-2 = true)%float.
Proof.
  vm_compute. repeat split; reflexivity.
Qed.

(** ** The evaluator and [==] *)





(** ** The bracket *)

Section Bracket.
Context {F : Type} {A : Arith F} {L : SignLaws A}.
Variables (coeffs : list F) (tol : F).

(** Two numbers on opposite sides of zero, spelled out. *)
Lemma opposite_signs_iff (x y : F) :
  opposite_signs x y = true <->
  f_lt x f_zero = true /\ f_lt f_zero y = true \/
  f_lt f_zero x = true /\ f_lt y f_zero = true.
Proof.
  unfold opposite_signs. now rewrite orb_true_iff, !andb_true_iff.
Qed.

(** Their product is below zero or a zero. *)
Lemma opposite_signs_product (x y : F) :
  opposite_signs x y = true ->
  f_lt (f_mul x y) f_zero = true \/ f_eq (f_mul x y) f_zero = true.
Proof.
  intros Hxy. apply opposite_signs_iff in Hxy.
  destruct Hxy as [(Hx & Hy) | (Hx & Hy)].
  - exact (proj1 (@product_of_opposite_signs F A L x y Hx Hy)).
  - exact (proj2 (@product_of_opposite_signs F A L y x Hy Hx)).
Qed.

(** Narrowing keeps the end points on opposite sides of zero when the
    product it tests is below or above zero. *)
Lemma narrow_keeps_opposite_signs (a b : F) :
  opposite_signs (evaluate_poly coeffs a) (evaluate_poly coeffs b) = true ->
  has_sign (f_mul (evaluate_poly coeffs a)
                  (evaluate_poly coeffs (midpoint a b))) = true ->
  opposite_signs (evaluate_poly coeffs (fst (narrow coeffs a b)))
                 (evaluate_poly coeffs (snd (narrow coeffs a b))) = true.
Proof.
  intros Hab Hsign. unfold narrow. apply opposite_signs_iff in Hab.
  destruct (f_lt (f_mul _ _) f_zero) eqn:Hneg; cbn [fst snd];
    apply opposite_signs_iff.
  - now apply negative_product.
  - unfold has_sign in Hsign. rewrite Hneg in Hsign. cbn [orb] in Hsign.
    apply positive_product in Hsign.
    destruct Hab as [(Ha & Hb) | (Ha & Hb)],
             Hsign as [(Ha' & Hc) | (Ha' & Hc)].
    + rewrite (@negative_not_positive F A L _ Ha) in Ha'. discriminate.
    + now left.
    + now right.
    + rewrite (@negative_not_positive F A L _ Ha') in Ha. discriminate.
Qed.

(** The invariant of the loop: a row shows an interval with end points on
    opposite sides of zero, as long as the products of the passes before it
    were below or above zero. *)
Lemma run_keeps_opposite_signs n i a b c rows e :
  run coeffs tol n i a b c rows e ->
  opposite_signs (evaluate_poly coeffs a) (evaluate_poly coeffs b) = true ->
  forall k r, nth_error rows k = Some r ->
    (forall j p, (j < k)%nat -> nth_error rows j = Some p ->
       has_sign (narrowing_product coeffs p) = true) ->
    opposite_signs (evaluate_poly coeffs (rec_a r))
                   (evaluate_poly coeffs (rec_b r)) = true.
Proof.
  induction_on_run;
    intros Hab k r Hk Hbefore.
  - destruct k; discriminate.
  - destruct k as [|k]; [|destruct k; discriminate].
    injection Hk as <-. exact Hab.
  - destruct k as [|k]; [injection Hk as <-; exact Hab|].
    apply (IH (@narrow_keeps_opposite_signs a b Hab
                 (Hbefore 0%nat _ ltac:(lia) eq_refl)) k r Hk).
    intros j p Hj Hp. apply (Hbefore (S j) p); [lia | exact Hp].
Qed.

End Bracket.

(** C6 (as amended).  When [f(a) * f(b) < 0] for the bounds given, the solve
    passes the bracketing check, and every pass starts with an interval
    [(a, b)] where [f(a)] and [f(b)] are on opposite sides of zero, so that
    [f(a) * f(b)] is below zero or a zero, as long as in no earlier pass the
    product [f(a) * f(c)] of the narrowing step was a zero or a NaN; a pass
    whose own product is neither narrows to such an interval again.  Proved
    from the sign laws, which hold for binary64. *)
Theorem solve_keeps_opposite_signs :
  forall (F : Type) (A : Arith F) (coeffs : list F) (a b tol : F)
         (max_iter : Z),
    SignLaws A ->
    f_lt (f_mul (evaluate_poly coeffs a) (evaluate_poly coeffs b)) f_zero
      = true ->
    let rows := table_rows (fst (bisection_method coeffs a b tol max_iter)) in
    f_ge (f_mul (evaluate_poly coeffs a) (evaluate_poly coeffs b)) f_zero
      = false /\
    forall k r, nth_error rows k = Some r ->
      (forall j p, (j < k)%nat -> nth_error rows j = Some p ->
         has_sign (narrowing_product coeffs p) = true) ->
      opposite_signs (evaluate_poly coeffs (rec_a r))
                     (evaluate_poly coeffs (rec_b r)) = true /\
      (f_lt (f_mul (evaluate_poly coeffs (rec_a r))
                   (evaluate_poly coeffs (rec_b r))) f_zero = true \/
       f_eq (f_mul (evaluate_poly coeffs (rec_a r))
                   (evaluate_poly coeffs (rec_b r))) f_zero = true) /\
      (has_sign (narrowing_product coeffs r) = true ->
       opposite_signs
         (evaluate_poly coeffs (fst (narrow coeffs (rec_a r) (rec_b r))))
         (evaluate_poly coeffs (snd (narrow coeffs (rec_a r) (rec_b r))))
         = true).
Proof.
  intros F A coeffs a b tol max_iter L Hneg rows.
  pose proof (@negative_not_ge_zero F A L _ Hneg) as Hcheck.
  split; [exact Hcheck|]. intros k r Hk Hbefore.
  destruct (solve_run coeffs a b tol max_iter Hcheck)
    as (rows' & e & Hrun & Hrows & _).
  fold rows in Hrows. subst rows'.
  assert (Hab : opposite_signs (evaluate_poly coeffs (rec_a r))
                               (evaluate_poly coeffs (rec_b r)) = true).
  { apply (@run_keeps_opposite_signs F A L coeffs tol _ _ _ _ _ _ _ Hrun)
      with (k := k); trivial.
    apply opposite_signs_iff. now apply negative_product. }
  split; [exact Hab|].
  split; [exact (@opposite_signs_product F A L _ _ Hab)|]. intros Hsign.
  destruct (run_row_shape Hrun _ Hk) as (_ & Hmid & Hfc).
  apply (@narrow_keeps_opposite_signs F A L coeffs _ _ Hab).
  unfold narrowing_product in Hsign. now rewrite <- Hmid, <- Hfc.
Qed.

(** Scenario 4 in binary64: pass 1 computes [f(0) * f(1.5) = 7], above zero,
    and pass 2 starts with [(1.5, 3)], where [f] is [-1.75] and [5]. *)
Lemma opposite_signs_scenario_4 :
  (SignLaws binary64 /\
   f_lt (f_mul (evaluate_poly [1; 0; -4] 0) (evaluate_poly [1; 0; -4] 3))
        f_zero = true /\
   (forall j p, (j < 1)%nat ->
      nth_error (table_rows (fst (bisection_method [1; 0; -4] 0 3
                                                   tol_1e_4 2))) j = Some p ->
      has_sign (narrowing_product [1; 0; -4] p) = true) /\
   exists r,
     nth_error (table_rows (fst (bisection_method [1; 0; -4] 0 3
                                                  tol_1e_4 2))) 1 = Some r /\
     rec_a r = 1.5 /\ rec_b r = 3 /\
     evaluate_poly [1; 0; -4] (rec_a r) = -1.75 /\
     evaluate_poly [1; 0; -4] (rec_b r) = 5 /\
     opposite_signs (evaluate_poly [1; 0; -4] (rec_a r))
                    (evaluate_poly [1; 0; -4] (rec_b r)) = true)%float.
Proof.
  assert (Hbefore : (forall j p, (j < 1)%nat ->
      nth_error (table_rows (fst (bisection_method [1; 0; -4] 0 3
                                                   tol_1e_4 2))) j = Some p ->
      has_sign (narrowing_product [1; 0; -4] p) = true)%float).
  { intros j p Hj Hp. destruct j as [|j]; [|lia].
    vm_compute in Hp. injection Hp as <-. reflexivity. }
  split; [exact binary64_sign_laws|]. split; [reflexivity|].
  split; [exact Hbefore|].
  eexists. split; [vm_compute; reflexivity|].
  split; [reflexivity|]. split; [reflexivity|]. split; [reflexivity|].
  split; [reflexivity|].
  refine (proj1 (proj2 (@solve_keeps_opposite_signs float binary64
                   [1; 0; -4]%float 0%float 3%float tol_1e_4 2%Z
                   binary64_sign_laws eq_refl) 1%nat _ _ Hbefore)).
  vm_compute. reflexivity.
Defined.

(** C6 (as stated) fails in binary64, in two ways.  For [f(x) = 2^-538 * x]
    on [[-1, 4]] with [tol = 2^-600 > 0] the check passes: [f(-1) * f(4)] is
    [-2^-1074 < 0].  Pass 1 has [c = 1.5] and [|f(c)| >= tol]; the product
    [f(-1) * f(1.5)] underflows to [-0], which is not below zero, so the pass
    sets [a = 1.5].  Pass 2 starts with the interval [(1.5, 4)], where [f] is
    positive at both ends and [f(1.5) * f(4) < 0] is false.  For
    [f(x) = 2^-650 * x^150 * (1 - x)] on [[-4, 2]] with [tol = 2^-1000] the
    check passes and the product of pass 1, [f(-4) * f(-1) = 5 * 2^-999], is
    above zero; pass 2 starts with [(-1, 2)], where [f] is [2^-649] and
    [-2^-500], on opposite sides of zero, but the product [f(-1) * f(2)]
    underflows to [-0], and [f(a) * f(b) < 0] is false again. *)
Lemma underflow_loses_bracket :
  (f_lt f_zero 0x1p-600 = true /\
   f_ge (f_mul (evaluate_poly [0x1p-538; 0] (-1))
               (evaluate_poly [0x1p-538; 0] 4)) f_zero = false /\
   f_lt (f_mul (evaluate_poly [0x1p-538; 0] (-1))
               (evaluate_poly [0x1p-538; 0] 4)) f_zero = true /\
   table_rows (fst (bisection_method [0x1p-538; 0] (-1) 4 0x1p-600 2)) =
     [ {| rec_i := 1; rec_a := -1; rec_b := 4; rec_c := 1.5;
          rec_fc := 0x1.8p-538; rec_error := 5 |};
       {| rec_i := 2; rec_a := 1.5; rec_b := 4; rec_c := 2.75;
          rec_fc := 0x1.6p-537; rec_error := 1.25 |} ] /\
   f_mul (evaluate_poly [0x1p-538; 0] (-1)) (evaluate_poly [0x1p-538; 0] 1.5)
     = -0 /\
   f_lt (f_mul (evaluate_poly [0x1p-538; 0] 1.5)
               (evaluate_poly [0x1p-538; 0] 4)) f_zero = false /\
   f_lt f_zero (evaluate_poly [0x1p-538; 0] 1.5) = true /\
   f_lt f_zero (evaluate_poly [0x1p-538; 0] 4) = true)%float /\
  (f_lt f_zero 0x1p-1000 = true /\
   f_lt (f_mul (evaluate_poly steep_coefficients (-4))
               (evaluate_poly steep_coefficients 2)) f_zero = true /\
   map (fun r => (rec_i r, rec_a r, rec_b r, rec_c r))
       (table_rows (fst (bisection_method steep_coefficients (-4) 2
                                          0x1p-1000 2))) =
     [ (1%Z, -4, 2, -1); (2%Z, -1, 2, 0.5) ] /\
   evaluate_poly steep_coefficients (-4) = 0x1.4p-348 /\
   evaluate_poly steep_coefficients (-1) = 0x1p-649 /\
   evaluate_poly steep_coefficients 2 = -0x1p-500 /\
   f_mul (evaluate_poly steep_coefficients (-4))
         (evaluate_poly steep_coefficients (-1)) = 0x1.4p-997 /\
   f_mul (evaluate_poly steep_coefficients (-1))
         (evaluate_poly steep_coefficients 2) = -0 /\
   f_lt (f_mul (evaluate_poly steep_coefficients (-1))
               (evaluate_poly steep_coefficients 2)) f_zero = false)%float.
Proof.
  vm_compute. repeat split; reflexivity.
Qed.

(** ** Where the midpoints lie *)

Section Inside.
Context {F : Type} {A : Arith F} {H : ArithFinite F}.
Context {LO : OrderLaws A} {LM : MidpointLaws A H}.
Variables (coeffs : list F) (tol : F).

(** The interval a pass narrows to lies inside the one it starts with, and
    is ordered as that one is, when the sum of the end points does not
    overflow. *)
Lemma narrow_inside (a b : F) :
  f_ge b a = true -> f_finite (f_add a b) = true ->
  f_ge (fst (narrow coeffs a b)) a = true /\
  f_ge (snd (narrow coeffs a b)) (fst (narrow coeffs a b)) = true /\
  f_ge b (snd (narrow coeffs a b)) = true.
Proof.
  intros Hab Hfin.
  destruct (@midpoint_between F A H LM a b Hab Hfin) as (Hlo & Hhi).
  destruct (@le_reflexive F A LO a b Hab) as (Haa & Hbb).
  unfold narrow, midpoint.
  destruct (f_lt (f_mul _ _) f_zero); cbn [fst snd]; auto.
Qed.

(** Every row of a run from an ordered interval shows an ordered interval
    inside it, with its midpoint in between, as long as no sum of end
    points has overflowed up to that row. *)
Lemma run_stays_inside n i a b c rows e :
  run coeffs tol n i a b c rows e ->
  f_ge b a = true ->
  forall k r, nth_error rows k = Some r ->
    (forall j p, (j <= k)%nat -> nth_error rows j = Some p ->
       f_finite (f_add (rec_a p) (rec_b p)) = true) ->
    f_ge (rec_a r) a = true /\ f_ge (rec_c r) (rec_a r) = true /\
    f_ge (rec_b r) (rec_c r) = true /\ f_ge b (rec_b r) = true.
Proof.
  assert (Hfirst : forall j x y z,
    f_ge y x = true -> f_finite (f_add x y) = true ->
    f_ge (rec_a (row_of coeffs j x y z)) x = true /\
    f_ge (rec_c (row_of coeffs j x y z)) (rec_a (row_of coeffs j x y z))
      = true /\
    f_ge (rec_b (row_of coeffs j x y z)) (rec_c (row_of coeffs j x y z))
      = true /\
    f_ge y (rec_b (row_of coeffs j x y z)) = true).
  { intros j x y z Hxy Hfin. cbn [row_of rec_a rec_b rec_c].
    destruct (@midpoint_between F A H LM x y Hxy Hfin) as (Hlo & Hhi).
    destruct (@le_reflexive F A LO x y Hxy) as (Hxx & Hyy).
    unfold midpoint. auto. }
  induction_on_run;
    intros Hab k r Hk Hfin.
  - destruct k; discriminate.
  - destruct k as [|k]; [|destruct k; discriminate].
    injection Hk as <-. apply Hfirst; [exact Hab|].
    exact (Hfin 0%nat _ (Nat.le_refl 0) eq_refl).
  - assert (Hsum : f_finite (f_add a b) = true)
      by exact (Hfin 0%nat _ (Nat.le_0_l _) eq_refl).
    destruct k as [|k]; [injection Hk as <-; now apply Hfirst|].
    destruct (@narrow_inside a b Hab Hsum) as (Hlo & Hord & Hhi).
    destruct (IH Hord k r Hk) as (H1 & H2 & H3 & H4).
    { intros j p Hj Hp. apply (Hfin (S j) p); [lia | exact Hp]. }
    split; [exact (@le_trans F A LO _ _ _ Hlo H1)|].
    split; [exact H2|]. split; [exact H3|].
    exact (@le_trans F A LO _ _ _ H4 Hhi).
Qed.

End Inside.

(** C9 (as amended).  A solve that passes the bracketing check with
    [max_iter >= 1] returns a pair [(c, i)] with [1 <= i <= max_iter].  With
    [a <= b], every pass up to which no sum [a + b] of the end points has
    overflowed starts with an interval inside [[a, b]] and computes a
    midpoint between its end points, so inside [[a, b]]; when no sum
    overflows in the whole solve, the point returned lies in [[a, b]].
    Proved from the laws of the order and of the midpoint, which hold for
    binary64. *)
Theorem midpoints_stay_in_interval :
  forall (F : Type) (A : Arith F) (H : ArithFinite F) (coeffs : list F)
         (a b tol : F) (max_iter : Z),
    OrderLaws A -> MidpointLaws A H ->
    (0 < max_iter)%Z ->
    f_ge (f_mul (evaluate_poly coeffs a) (evaluate_poly coeffs b)) f_zero
      = false ->
    let rows := table_rows (fst (bisection_method coeffs a b tol max_iter)) in
    (exists c i,
        snd (bisection_method coeffs a b tol max_iter) = Some (c, i) /\
        (1 <= i <= max_iter)%Z) /\
    (f_ge b a = true ->
     (forall k r, nth_error rows k = Some r ->
        (forall j p, (j <= k)%nat -> nth_error rows j = Some p ->
           f_finite (f_add (rec_a p) (rec_b p)) = true) ->
        f_ge (rec_a r) a = true /\ f_ge (rec_c r) (rec_a r) = true /\
        f_ge (rec_b r) (rec_c r) = true /\ f_ge b (rec_b r) = true /\
        f_ge (rec_c r) a = true /\ f_ge b (rec_c r) = true) /\
     ((forall p, In p rows ->
         f_finite (f_add (rec_a p) (rec_b p)) = true) ->
      forall c i,
        snd (bisection_method coeffs a b tol max_iter) = Some (c, i) ->
        f_ge c a = true /\ f_ge b c = true)).
Proof.
  intros F A H coeffs a b tol max_iter LO LM Hmax Hcheck rows.
  destruct (solve_last_row coeffs a b tol Hmax Hcheck)
    as (front & r & Hrows & Hres & Hi & Hle & _).
  fold rows in Hrows.
  destruct (solve_run coeffs a b tol max_iter Hcheck)
    as (rows' & e & Hrun & Hrows' & _).
  fold rows in Hrows'. subst rows'.
  split.
  - exists (rec_c r), (rec_i r). split; [exact Hres|].
    rewrite Hi, length_app in *. cbn [length] in *. lia.
  - intros Hab.
    assert (Hin : forall k r, nth_error rows k = Some r ->
      (forall j p, (j <= k)%nat -> nth_error rows j = Some p ->
         f_finite (f_add (rec_a p) (rec_b p)) = true) ->
      f_ge (rec_a r) a = true /\ f_ge (rec_c r) (rec_a r) = true /\
      f_ge (rec_b r) (rec_c r) = true /\ f_ge b (rec_b r) = true /\
      f_ge (rec_c r) a = true /\ f_ge b (rec_c r) = true).
    { intros k p Hk Hfin.
      destruct (@run_stays_inside F A H LO LM coeffs tol _ _ _ _ _ _ _
                  Hrun Hab k p Hk Hfin) as (H1 & H2 & H3 & H4).
      repeat split; trivial.
      - exact (@le_trans F A LO _ _ _ H1 H2).
      - exact (@le_trans F A LO _ _ _ H3 H4). }
    split; [exact Hin|]. intros Hall c i Hci.
    rewrite Hres in Hci. injection Hci as <- <-.
    destruct (Hin (length front) r) as (_ & _ & _ & _ & Hlo & Hhi).
    + rewrite Hrows. apply nth_error_snoc.
    + intros j p _ Hp. apply Hall. exact (nth_error_In _ _ Hp).
    + now split.
Qed.

(** Scenario 4 in binary64: the sums [0 + 3] and [1.5 + 3] do not overflow,
    and the point [2.25] returned lies in [[0, 3]]. *)
Lemma midpoints_scenario_4 :
  (OrderLaws binary64 /\ MidpointLaws binary64 binary64_finite /\
   (0 < 2)%Z /\
   f_ge (f_mul (evaluate_poly [1; 0; -4] 0) (evaluate_poly [1; 0; -4] 3))
        f_zero = false /\
   f_ge 3 0 = true /\
   (forall p,
      In p (table_rows (fst (bisection_method [1; 0; -4] 0 3 tol_1e_4 2))) ->
      f_finite (f_add (rec_a p) (rec_b p)) = true) /\
   snd (bisection_method [1; 0; -4] 0 3 tol_1e_4 2) = Some (2.25, 2%Z) /\
   f_ge 2.25 0 = true /\ f_ge 3 2.25 = true)%float.
Proof.
  assert (Hall : (forall p,
      In p (table_rows (fst (bisection_method [1; 0; -4] 0 3 tol_1e_4 2))) ->
      f_finite (f_add (rec_a p) (rec_b p)) = true)%float).
  { intros p [<- | [<- | []]]; reflexivity. }
  split; [exact binary64_order_laws|].
  split; [exact binary64_midpoint_laws|].
  split; [lia|]. split; [reflexivity|]. split; [reflexivity|].
  split; [exact Hall|]. split; [reflexivity|].
  exact (proj2 (proj2 (@midpoints_stay_in_interval float binary64
                  binary64_finite [1; 0; -4]%float 0%float 3%float tol_1e_4
                  2%Z binary64_order_laws binary64_midpoint_laws
                  eq_refl eq_refl) eq_refl)
               Hall 2.25%float 2%Z eq_refl).
Defined.

(** C9 (as stated) fails in binary64 where a sum of end points overflows.
    For [f(x) = 2^-1000 * x - 1.25 * 2^23] on [[2^1023, 1.5 * 2^1023]] the
    check passes ([f(a) = -2^21], [f(b) = 2^21]) and [a <= b], but [a + b]
    overflows: the midpoint of pass 1 is [infinity], above [b], and with
    [max_iter = 1] it is the point returned.  On [[-max, max]], [max] the
    largest double, the sum of the bounds is [0]; passes 1 and 2 have the
    midpoints [0] and [max / 2] and move [a] there, and in pass 3 the sum
    [max / 2 + max] overflows: the midpoint, returned with [max_iter = 3],
    is [infinity]. *)
Lemma overflow_leaves_interval :
  (f_ge 0x1.8p1023 0x1p1023 = true /\
   evaluate_poly [0x1p-1000; -0x1.4p23] 0x1p1023 = -0x1p21 /\
   evaluate_poly [0x1p-1000; -0x1.4p23] 0x1.8p1023 = 0x1p21 /\
   f_ge (f_mul (evaluate_poly [0x1p-1000; -0x1.4p23] 0x1p1023)
               (evaluate_poly [0x1p-1000; -0x1.4p23] 0x1.8p1023)) f_zero
     = false /\
   snd (bisection_method [0x1p-1000; -0x1.4p23] 0x1p1023 0x1.8p1023
                         tol_1e_4 1) = Some (infinity, 1%Z) /\
   f_ge 0x1.8p1023 infinity = false /\
   f_finite (f_add 0x1p1023 0x1.8p1023) = false)%float /\
  (f_ge 0x1.fffffffffffffp1023 (-0x1.fffffffffffffp1023) = true /\
   f_ge (f_mul (evaluate_poly [0x1p-1000; -0x1.4p23]
                              (-0x1.fffffffffffffp1023))
               (evaluate_poly [0x1p-1000; -0x1.4p23] 0x1.fffffffffffffp1023))
        f_zero = false /\
   f_finite (f_add (-0x1.fffffffffffffp1023) 0x1.fffffffffffffp1023) = true /\
   map (fun r => (rec_i r, rec_a r, rec_b r, rec_c r))
       (table_rows (fst (bisection_method [0x1p-1000; -0x1.4p23]
                           (-0x1.fffffffffffffp1023) 0x1.fffffffffffffp1023
                           tol_1e_4 3))) =
     [ (1%Z, -0x1.fffffffffffffp1023, 0x1.fffffffffffffp1023, 0);
       (2%Z, 0, 0x1.fffffffffffffp1023, 0x1.fffffffffffffp1022);
       (3%Z, 0x1.fffffffffffffp1022, 0x1.fffffffffffffp1023, infinity) ] /\
   snd (bisection_method [0x1p-1000; -0x1.4p23]
          (-0x1.fffffffffffffp1023) 0x1.fffffffffffffp1023 tol_1e_4 3)
     = Some (infinity, 3%Z) /\
   f_ge 0x1.fffffffffffffp1023 infinity = false)%float.
Proof.
  vm_compute. repeat split; reflexivity.
Qed.

Unset Implicit Arguments.

(** ** More passes than needed *)

(** A loop that returns keeps its rows and its exit when it is allowed more
    passes. *)
Lemma for_loop_returns_regardless (F : Type) (A : Arith F) (coeffs : list F)
      (tol : F) (n : nat) :
  forall (k : nat) (i : Z) (a b c : F) rows cr ir,
    for_loop coeffs tol n i a b c = (rows, Return cr ir) ->
    for_loop coeffs tol (n + k) i a b c = (rows, Return cr ir).
Proof.
  induction n as [|n IH]; intros k i a b c rows cr ir Hloop.
  - discriminate.
  - cbn [Nat.add]. rewrite for_loop_pass in *.
    destruct (converged tol (row_of coeffs i a b c)); [exact Hloop|].
    destruct (for_loop coeffs tol n (i + 1) _ _ _) as [rows' e'] eqn:Hrest.
    injection Hloop as <- ->.
    now rewrite (IH k _ _ _ _ _ _ _ Hrest).
Qed.

(** The pair a solve returns, when its count is below [max_iter], comes from
    the loop's [return]. *)
Lemma early_count_is_a_return (F : Type) (A : Arith F) (coeffs : list F)
      (a b tol : F) (max_iter : Z) (c : F) (i : Z) :
  snd (bisection_method coeffs a b tol max_iter) = Some (c, i) ->
  (i < max_iter)%Z ->
  f_ge (f_mul (evaluate_poly coeffs a) (evaluate_poly coeffs b)) f_zero
    = false /\
  exists rows,
    for_loop coeffs tol (Z.to_nat max_iter) 1 a b a = (rows, Return c i).
Proof.
  unfold bisection_method. intros Hres Hlt.
  destruct (f_ge _ f_zero); [discriminate|]. split; [reflexivity|].
  destruct (for_loop coeffs tol (Z.to_nat max_iter) 1 a b a) as [rows e].
  exists rows. destruct e as [cr ir | cf]; injection Hres as <- <-.
  - reflexivity.
  - lia.
Qed.

(** X1.  A solve that returns with a count below [max_iter] (what the driver
    reports as success) prints the same table and returns the same pair
    under any larger [max_iter], in any arithmetic. *)
Theorem larger_max_iter_changes_nothing :
  forall (F : Type) (A : Arith F) (coeffs : list F) (a b tol : F)
         (max_iter more : Z) (c : F) (i : Z),
    snd (bisection_method coeffs a b tol max_iter) = Some (c, i) ->
    (i < max_iter)%Z ->
    (max_iter <= more)%Z ->
    bisection_method coeffs a b tol more =
    bisection_method coeffs a b tol max_iter.
Proof.
  intros F A coeffs a b tol max_iter more c i Hres Hlt Hmore.
  destruct (early_count_is_a_return F A coeffs a b tol max_iter c i Hres Hlt)
    as (Hcheck & rows & Hloop).
  unfold bisection_method. rewrite Hcheck, Hloop.
  replace (Z.to_nat more)
    with (Z.to_nat max_iter + (Z.to_nat more - Z.to_nat max_iter))%nat by lia.
  now rewrite (for_loop_returns_regardless F A coeffs tol _ _ _ _ _ _ _ _ _
                 Hloop).
Qed.

(** Scenario 1 in binary64 returns after 15 of its 50 passes; 1000 passes
    give the same. *)
Lemma larger_max_iter_scenario_1 :
  (snd (bisection_method [1; 0; -4] 0 3 tol_1e_4 50)
     = Some (0x1.fffep0, 15%Z) /\
   (15 < 50)%Z /\ (50 <= 1000)%Z /\
   bisection_method [1; 0; -4] 0 3 tol_1e_4 1000 =
   bisection_method [1; 0; -4] 0 3 tol_1e_4 50)%float.
Proof.
  assert (H : (snd (bisection_method [1; 0; -4] 0 3 tol_1e_4 50)
               = Some (0x1.fffep0, 15%Z))%float) by (vm_compute; reflexivity).
  split; [exact H|]. split; [lia|]. split; [lia|].
  apply (larger_max_iter_changes_nothing float binary64 _ _ _ _ 50 1000
           _ 15 H); lia.
Defined.

(** ** A looser tolerance *)

(** A row that passes the test passes it for any larger tolerance. *)
Lemma converged_for_looser (F : Type) (A : Arith F) (L : OrderLaws A)
      (tol tol' : F) (r : iteration_record F) :
  f_ge tol' tol = true -> converged tol r = true -> converged tol' r = true.
Proof.
  unfold converged. intros Hle Hconv.
  apply orb_true_iff in Hconv. apply orb_true_iff.
  destruct Hconv as [Hfc | Herr].
  - left. exact (lt_le_trans _ _ _ Hfc Hle).
  - right. apply andb_true_iff in Herr. destruct Herr as (Herr & Hi).
    apply andb_true_iff. split; [|exact Hi].
    exact (lt_le_trans _ _ _ Herr Hle).
Qed.

(** The rows the loop prints under a tolerance start with the rows it
    prints under a larger one. *)
Lemma for_loop_looser (F : Type) (A : Arith F) (L : OrderLaws A)
      (coeffs : list F) (tol tol' : F) (n : nat) :
  f_ge tol' tol = true ->
  forall (i : Z) (a b c : F),
    exists rest,
      fst (for_loop coeffs tol n i a b c) =
      fst (for_loop coeffs tol' n i a b c) ++ rest.
Proof.
  intros Hle. induction n as [|n IH]; intros i a b c.
  - exists []. reflexivity.
  - rewrite !for_loop_pass.
    destruct (converged tol' (row_of coeffs i a b c)) eqn:Hloose.
    + destruct (converged tol (row_of coeffs i a b c)).
      * exists []. reflexivity.
      * destruct (for_loop coeffs tol n (i + 1) _ _ _) as [rows e].
        exists rows. reflexivity.
    + destruct (converged tol (row_of coeffs i a b c)) eqn:Htight.
      * apply (converged_for_looser F A L tol tol' _ Hle) in Htight.
        congruence.
      * destruct (IH (i + 1)%Z (fst (narrow coeffs a b))
                     (snd (narrow coeffs a b)) (midpoint a b))
          as (rest & Hrest).
        destruct (for_loop coeffs tol n (i + 1) _ _ _) as [rows e].
        destruct (for_loop coeffs tol' n (i + 1) _ _ _) as [rows' e'].
        cbn [fst] in *. exists rest. now rewrite Hrest.
Qed.

(** X5.  A looser tolerance never costs passes: for [tol <= tol'] and
    [max_iter >= 1], the table printed under [tol'] is the beginning of the
    table printed under [tol], and the count returned under [tol'] is at
    most the count returned under [tol].  Proved from the order laws, which
    hold for binary64. *)
Theorem looser_tolerance_returns_no_later :
  forall (F : Type) (A : Arith F) (coeffs : list F) (a b tol tol' : F)
         (max_iter : Z),
    OrderLaws A ->
    f_ge tol' tol = true -> (0 < max_iter)%Z ->
    f_ge (f_mul (evaluate_poly coeffs a) (evaluate_poly coeffs b)) f_zero
      = false ->
    exists rest c i c' i',
      table_rows (fst (bisection_method coeffs a b tol max_iter)) =
      table_rows (fst (bisection_method coeffs a b tol' max_iter)) ++ rest /\
      snd (bisection_method coeffs a b tol max_iter) = Some (c, i) /\
      snd (bisection_method coeffs a b tol' max_iter) = Some (c', i') /\
      (i' <= i)%Z.
Proof.
  intros F A coeffs a b tol tol' max_iter L Hle Hmax Hcheck.
  destruct (solve_last_row coeffs a b tol Hmax Hcheck)
    as (front & r & Hrows & Hres & Hi & _).
  destruct (solve_last_row coeffs a b tol' Hmax Hcheck)
    as (front' & r' & Hrows' & Hres' & Hi' & _).
  destruct (for_loop_looser F A L coeffs tol tol' (Z.to_nat max_iter) Hle
                            1 a b a)
    as (rest & Hrest).
  assert (Hprefix :
    table_rows (fst (bisection_method coeffs a b tol max_iter)) =
    table_rows (fst (bisection_method coeffs a b tol' max_iter)) ++ rest).
  { unfold bisection_method. rewrite Hcheck.
    destruct (for_loop coeffs tol (Z.to_nat max_iter) 1 a b a) as [rows e].
    destruct (for_loop coeffs tol' (Z.to_nat max_iter) 1 a b a) as [rows' e'].
    cbn [fst] in *. now rewrite !table_rows_table. }
  exists rest, (rec_c r), (rec_i r), (rec_c r'), (rec_i r').
  split; [exact Hprefix|]. split; [exact Hres|]. split; [exact Hres'|].
  rewrite Hi, Hi', <- Hrows, <- Hrows', Hprefix, length_app. lia.
Qed.

(** Scenario 1 in binary64 under the tolerances [1e-4] and [2]: 15 passes
    under the first, one under the second, where [|f(1.5)| = 1.75 < 2]. *)
Lemma looser_tolerance_scenario_1 :
  (OrderLaws binary64 /\
   f_ge 2 tol_1e_4 = true /\ (0 < 50)%Z /\
   f_ge (f_mul (evaluate_poly [1; 0; -4] 0) (evaluate_poly [1; 0; -4] 3))
        f_zero = false /\
   snd (bisection_method [1; 0; -4] 0 3 tol_1e_4 50)
     = Some (0x1.fffep0, 15%Z) /\
   snd (bisection_method [1; 0; -4] 0 3 2 50) = Some (1.5, 1%Z) /\
   exists rest c i c' i',
     table_rows (fst (bisection_method [1; 0; -4] 0 3 tol_1e_4 50)) =
     table_rows (fst (bisection_method [1; 0; -4] 0 3 2 50)) ++ rest /\
     snd (bisection_method [1; 0; -4] 0 3 tol_1e_4 50) = Some (c, i) /\
     snd (bisection_method [1; 0; -4] 0 3 2 50) = Some (c', i') /\
     (i' <= i)%Z)%float.
Proof.
  split; [exact binary64_order_laws|]. split; [reflexivity|].
  split; [lia|]. split; [reflexivity|].
  split; [vm_compute; reflexivity|]. split; [vm_compute; reflexivity|].
  apply (looser_tolerance_returns_no_later float binary64
           [1; 0; -4]%float 0%float 3%float tol_1e_4 2%float 50
           binary64_order_laws); [reflexivity | lia | reflexivity].
Defined.

(** ** The driver *)

Section DriverFacts.
Context {F : Type} {A : Arith F} {H : ArithHalf F}.
Variable parse_int : String.string -> option Z.
Variable parse_float : String.string -> option F.
Variable linspace : F -> F -> nat -> list F.

Lemma asked_is_not_the_error (l : list (console F)) :
  Forall asked l -> ~ In InputError l.
Proof.
  intros Hl Hin. rewrite Forall_forall in Hl. exact (Hl _ Hin).
Qed.

Lemma asks_only_bind (X Y : Type) (m : io F X) (k : X -> io F Y) :
  asks_only m -> (forall x, asks_only (k x)) -> asks_only (bind m k).
Proof.
  intros Hm Hk w Hw. unfold bind. specialize (Hm w Hw).
  destruct (m w) as [[x | e] w']; [|exact Hm].
  exact (Hk x w' Hm).
Qed.

Lemma fails_asking_only_bind (X Y : Type) (m : io F X) (k : X -> io F Y) :
  asks_only m -> (forall x, fails_asking_only (k x)) ->
  fails_asking_only (bind m k).
Proof.
  intros Hm Hk w Hw. unfold bind. specialize (Hm w Hw).
  destruct (m w) as [[x | e] w']; [|exact Hm].
  exact (Hk x w' Hm).
Qed.

Lemma input_asks_only (p : prompt) : asks_only (@input F p).
Proof.
  intros w Hw. unfold input.
  assert (Hout : Forall asked (stdout w ++ [Prompt p])).
  { apply Forall_app. split; [exact Hw|]. now repeat constructor. }
  destruct (stdin w); cbn; auto.
Qed.

Lemma int_of_asks_only (s : String.string) :
  asks_only (@int_of F parse_int s).
Proof.
  intros w Hw. unfold int_of. destruct (parse_int s); cbn.
  - exact Hw.
  - split; [exact Hw | discriminate].
Qed.

Lemma float_of_asks_only (s : String.string) :
  asks_only (float_of parse_float s).
Proof.
  intros w Hw. unfold float_of. destruct (parse_float s); cbn.
  - exact Hw.
  - split; [exact Hw | discriminate].
Qed.

Lemma read_float_asks_only (p : prompt) :
  asks_only (bind (input p) (float_of parse_float)).
Proof.
  apply asks_only_bind; [apply input_asks_only|].
  intros s. apply float_of_asks_only.
Qed.

Lemma read_coefficients_asks_only (n : nat) :
  forall (i : Z) (coeffs : list F),
    asks_only (read_coefficients parse_float n i coeffs).
Proof.
  induction n as [|n IH]; intros i coeffs.
  - intros w Hw. exact Hw.
  - cbn [read_coefficients].
    apply asks_only_bind; [apply input_asks_only|]. intros s.
    apply asks_only_bind; [apply float_of_asks_only|]. intros x.
    apply IH.
Qed.

(** Past its inputs, [main] raises nothing and does not write the input
    error message. *)
Lemma report_fails_asking_only (coeffs : list F) (a b tol : F) (max_iter : Z) :
  fails_asking_only
    (let (printed, result) := bisection_method coeffs a b tol max_iter in
     bind (solver_prints printed) (fun _ =>
     match result with
     | Some (root, iters) =>
       bind (print Rule) (fun _ =>
       bind (print (ConvergenceStatus (iters <? max_iter)%Z)) (fun _ =>
       bind (print (ApproximateRoot root)) (fun _ =>
       bind (print (IterationsUsed iters)) (fun _ =>
       print (PlotWindow (plot_polynomial linspace coeffs a b (Some root)))))))
     | None => ret tt
     end)).
Proof.
  intros w Hw. apply asked_is_not_the_error in Hw.
  destruct (bisection_method coeffs a b tol max_iter) as [printed result].
  assert (Hsolver : ~ In InputError (map (@SolverPrint F) printed)).
  { intros Hin. apply in_map_iff in Hin. destruct Hin as (o & Ho & _).
    discriminate. }
  destruct result as [[root iters]|]; cbn; intros Hin;
    repeat (apply in_app_or in Hin; destruct Hin as [Hin | Hin]);
    try (destruct Hin as [Hin | []]; discriminate); auto.
Qed.

Lemma read_and_solve_fails_asking_only :
  fails_asking_only (read_and_solve parse_int parse_float linspace).
Proof.
  unfold read_and_solve.
  apply fails_asking_only_bind; [apply input_asks_only|]. intros sd.
  apply fails_asking_only_bind; [apply int_of_asks_only|]. intros degree.
  apply fails_asking_only_bind; [apply read_coefficients_asks_only|].
  intros coeffs.
  apply fails_asking_only_bind; [apply input_asks_only|]. intros sa.
  apply fails_asking_only_bind; [apply float_of_asks_only|]. intros a.
  apply fails_asking_only_bind; [apply input_asks_only|]. intros sb.
  apply fails_asking_only_bind; [apply float_of_asks_only|]. intros b.
  apply fails_asking_only_bind; [apply input_asks_only|]. intros st.
  apply fails_asking_only_bind; [apply float_of_asks_only|]. intros tol.
  apply fails_asking_only_bind; [apply input_asks_only|]. intros sm.
  apply fails_asking_only_bind; [apply int_of_asks_only|]. intros max_iter.
  apply report_fails_asking_only.
Qed.

End DriverFacts.

(** X6.  [main] ends in one of three ways, whatever its input.  It runs out
    of input: [EOFError] escapes (the [except] clause catches [ValueError]
    only) with nothing but the banner and prompts written.  Or a line does
    not parse: it has written the banner, prompts and then the input error
    message, nothing of the solver and no plot, and returns.  Or it returns
    without having written the input error message.  It never lets a
    [ValueError] escape. *)
Theorem main_ends_in_one_of_three_ways :
  forall (F : Type) (A : Arith F) (H : ArithHalf F)
         (parse_int : String.string -> option Z)
         (parse_float : String.string -> option F)
         (linspace : F -> F -> nat -> list F) (lines : list String.string),
    let r := fst (run_main parse_int parse_float linspace lines) in
    let w := snd (run_main parse_int parse_float linspace lines) in
    (r = inr EOFError /\ stdin w = [] /\ Forall asked (stdout w)) \/
    (r = inl tt /\
     exists l, Forall asked l /\ stdout w = l ++ [InputError]) \/
    (r = inl tt /\ ~ In InputError (stdout w)).
Proof.
  intros F A H parse_int parse_float linspace lines.
  unfold run_main, main, bind, print, except_ValueError.
  cbn [stdin stdout app].
  pose proof (read_and_solve_fails_asking_only parse_int parse_float linspace
                {| stdin := lines; stdout := [Banner] |}) as Hbody.
  cbn [stdout] in Hbody. specialize (Hbody ltac:(now repeat constructor)).
  destruct (read_and_solve parse_int parse_float linspace
              {| stdin := lines; stdout := [Banner] |}) as [[[] | e] w'].
  - right; right. cbn. auto.
  - destruct Hbody as (Hasked & Heof). destruct e; cbn.
    + right; left. split; [reflexivity|]. now exists (stdout w').
    + left. auto.
Qed.

Section DriverRuns.
Context {F : Type} {A : Arith F} {H : ArithHalf F}.
Variable parse_int : String.string -> option Z.
Variable parse_float : String.string -> option F.
Variable linspace : F -> F -> nat -> list F.

(** The coefficient loop on lines that parse: it asks for the powers in
    descending order and appends the numbers in the order they are typed. *)
Lemma read_coefficients_parsed (cs : list String.string) (xs : list F) :
  Forall2 (fun s x => parse_float s = Some x) cs xs ->
  forall (i : Z) (coeffs : list F) (rest : list String.string)
         (out : list (console F)),
    read_coefficients parse_float (length cs) i coeffs
                      {| stdin := cs ++ rest; stdout := out |} =
    (inl (coeffs ++ xs),
     {| stdin := rest;
        stdout := out ++ map (fun j => Prompt (AskCoefficient j))
                             (descending (length cs) i) |}).
Proof.
  induction 1 as [|s x cs xs Hs Hrest IH]; intros i coeffs rest out.
  - cbn. now rewrite !app_nil_r.
  - cbn [length read_coefficients descending map app].
    unfold bind at 1. cbn [input stdin stdout].
    unfold bind at 1. unfold float_of at 1. rewrite Hs. cbn [ret].
    rewrite IH, <- !app_assoc. reflexivity.
Qed.

(** What [main] does with lines that parse. *)
Lemma main_on_parsed_input (degree : Z) (coeffs : list F) (a b tol : F)
      (max_iter : Z) (sd sa sb st sm : String.string)
      (cs rest : list String.string) :
  parse_int sd = Some degree ->
  length cs = Z.to_nat (degree + 1) ->
  Forall2 (fun s x => parse_float s = Some x) cs coeffs ->
  parse_float sa = Some a -> parse_float sb = Some b ->
  parse_float st = Some tol -> parse_int sm = Some max_iter ->
  run_main parse_int parse_float linspace
           (sd :: cs ++ sa :: sb :: st :: sm :: rest) =
  (inl tt,
   {| stdin := rest;
      stdout :=
        [Banner; Prompt AskDegree]
        ++ map (fun j => Prompt (AskCoefficient j))
               (descending (length cs) degree)
        ++ [Prompt AskLowerBound; Prompt AskUpperBound; Prompt AskTolerance;
            Prompt AskMaxIterations]
        ++ map SolverPrint (fst (bisection_method coeffs a b tol max_iter))
        ++ match snd (bisection_method coeffs a b tol max_iter) with
           | Some (root, iters) =>
               [Rule; ConvergenceStatus (iters <? max_iter)%Z;
                ApproximateRoot root; IterationsUsed iters;
                PlotWindow (plot_polynomial linspace coeffs a b (Some root))]
           | None => []
           end |}).
Proof.
  intros Hsd Hlen Hcs Hsa Hsb Hst Hsm.
  unfold run_main, main, except_ValueError, read_and_solve.
  unfold bind at 1. cbn [print stdin stdout app].
  unfold bind at 1. cbn [input stdin stdout app].
  unfold bind at 1. unfold int_of at 1. rewrite Hsd. cbn [ret].
  unfold bind at 1. rewrite <- Hlen.
  rewrite (read_coefficients_parsed cs coeffs Hcs). cbn [app].
  unfold bind at 1. cbn [input stdin stdout].
  unfold bind at 1. unfold float_of at 1. rewrite Hsa. cbn [ret].
  unfold bind at 1. cbn [input stdin stdout].
  unfold bind at 1. unfold float_of at 1. rewrite Hsb. cbn [ret].
  unfold bind at 1. cbn [input stdin stdout].
  unfold bind at 1. unfold float_of at 1. rewrite Hst. cbn [ret].
  unfold bind at 1. cbn [input stdin stdout].
  unfold bind at 1. unfold int_of at 1. rewrite Hsm. cbn [ret].
  destruct (bisection_method coeffs a b tol max_iter) as [printed result].
  cbn [fst snd]. unfold bind at 1. cbn [solver_prints stdin stdout].
  destruct result as [[root iters]|].
  - unfold bind, print. cbn [stdin stdout]. f_equal. f_equal.
    cbn [app]. rewrite <- !app_assoc. reflexivity.
  - cbn [ret]. f_equal. f_equal.
    cbn [app]. rewrite <- !app_assoc, app_nil_r. reflexivity.
Qed.

End DriverRuns.

(** X7.  On input lines that parse, [main] asks for the degree, then for
    [degree + 1] coefficients from the power [degree] down to [0] (for none
    when [degree < 0]), then for the bounds, the tolerance and the iteration
    limit; it calls [bisection_method] with the coefficients in the order
    typed and with the other four values, writes what the solver prints,
    and, exactly when the solver returns a root, the rule, the status
    ([Success] iff the count is below [max_iter]), the root, the count, and
    shows the plot of the same coefficients and bounds with that root.  It
    leaves further lines unread and raises nothing. *)
Theorem main_solves_what_was_typed :
  forall (F : Type) (A : Arith F) (H : ArithHalf F)
         (parse_int : String.string -> option Z)
         (parse_float : String.string -> option F)
         (linspace : F -> F -> nat -> list F)
         (degree : Z) (coeffs : list F) (a b tol : F) (max_iter : Z)
         (sd sa sb st sm : String.string) (cs rest : list String.string),
    parse_int sd = Some degree ->
    length cs = Z.to_nat (degree + 1) ->
    Forall2 (fun s x => parse_float s = Some x) cs coeffs ->
    parse_float sa = Some a -> parse_float sb = Some b ->
    parse_float st = Some tol -> parse_int sm = Some max_iter ->
    run_main parse_int parse_float linspace
             (sd :: cs ++ sa :: sb :: st :: sm :: rest) =
    (inl tt,
     {| stdin := rest;
        stdout :=
          [Banner; Prompt AskDegree]
          ++ map (fun j => Prompt (AskCoefficient j))
                 (descending (length cs) degree)
          ++ [Prompt AskLowerBound; Prompt AskUpperBound;
              Prompt AskTolerance; Prompt AskMaxIterations]
          ++ map SolverPrint (fst (bisection_method coeffs a b tol max_iter))
          ++ match snd (bisection_method coeffs a b tol max_iter) with
             | Some (root, iters) =>
                 [Rule; ConvergenceStatus (iters <? max_iter)%Z;
                  ApproximateRoot root; IterationsUsed iters;
                  PlotWindow
                    (plot_polynomial linspace coeffs a b (Some root))]
             | None => []
             end |}).
Proof.
  intros F A H parse_int parse_float linspace degree coeffs a b tol max_iter
         sd sa sb st sm cs rest.
  apply main_on_parsed_input.
Qed.

Section Sessions.
Import String.StringSyntax.
Local Open Scope string_scope.

(** Scenario 4 typed in: degree 2, coefficients 1, 0, -4, bounds 0 and 3,
    tolerance 0.0001, two iterations, and one more line. *)
Lemma main_on_scenario_4 :
  let parse_int := parse_by_table [("2", 2%Z)] in
  let parse_float :=
    parse_by_table [("1", 1%float); ("0", 0%float); ("-4", (-4)%float);
                    ("3", 3%float); ("0.0001", tol_1e_4)] in
  let linspace := fun (start stop : float) (num : nat) => [start; stop] in
  run_main parse_int parse_float linspace
           ("2" :: (["1"; "0"; "-4"] ++ "0" :: "3" :: "0.0001" :: "2"
                    :: ["more"])%list) =
  (inl tt,
   {| stdin := ["more"];
      stdout :=
        [Banner; Prompt AskDegree; Prompt (AskCoefficient 2);
         Prompt (AskCoefficient 1); Prompt (AskCoefficient 0);
         Prompt AskLowerBound; Prompt AskUpperBound; Prompt AskTolerance;
         Prompt AskMaxIterations; SolverPrint TableHeader;
         SolverPrint (TableRow
           {| rec_i := 1; rec_a := 0; rec_b := 3; rec_c := 1.5;
              rec_fc := -1.75; rec_error := 3 |}%float);
         SolverPrint (TableRow
           {| rec_i := 2; rec_a := 1.5; rec_b := 3; rec_c := 2.25;
              rec_fc := 1.0625; rec_error := 0.75 |}%float);
         Rule; ConvergenceStatus false; ApproximateRoot 2.25%float;
         IterationsUsed 2;
         PlotWindow {| fig_x := [-1.5; 4.5]%float;
                       fig_y := [-1.75; 16.25]%float;
                       fig_root := Some 2.25%float |}] |}).
Proof.
  intros parse_int parse_float linspace.
  rewrite (main_solves_what_was_typed float binary64 binary64_half
             parse_int parse_float linspace 2
             [1; 0; -4]%float 0%float 3%float tol_1e_4 2
             "2" "0" "3" "0.0001" "2" ["1"; "0"; "-4"] ["more"]);
    try reflexivity.
  repeat constructor.
Defined.

End Sessions.

(** ** Polynomials too short to bracket *)

(** With no coefficient the polynomial is zero, and the check fails as soon
    as [0 * 0 >= 0] holds in the arithmetic. *)
Lemma no_coefficient_is_rejected (F : Type) (A : Arith F) (a b tol : F)
      (max_iter : Z) :
  f_ge (f_mul f_zero f_zero) f_zero = true ->
  bisection_method [] a b tol max_iter = ([ErrorReport f_zero f_zero], None).
Proof.
  intros Hzero. exact (solve_rejected [] a b tol max_iter Hzero).
Qed.

(** The value Horner's loop gives a constant [c] at a finite point: [c],
    or a zero when [c] is a zero. *)
Lemma SF_constant (a c : spec_float) :
  sf_finite a = true -> c <> S754_nan ->
  SFadd prec emax (SFmul prec emax (S754_zero false) a) c = c \/
  exists s s',
    SFadd prec emax (SFmul prec emax (S754_zero false) a) c = S754_zero s /\
    c = S754_zero s'.
Proof.
  intros Ha Hc.
  destruct a as [sa | sa | | sa ma ea]; try discriminate; cbn [SFmul];
    destruct c as [sc | sc | | sc mc ec]; try congruence; cbn [SFadd];
    auto; right; destruct (xorb false sa), sc; eauto.
Qed.

(** The product the bracketing check tests, for a constant that is not NaN
    and finite bounds, is not below zero. *)
Lemma SF_constant_check (a b c : spec_float) :
  sf_finite a = true -> sf_finite b = true -> c <> S754_nan ->
  SFleb (S754_zero false)
        (SFmul prec emax
           (SFadd prec emax (SFmul prec emax (S754_zero false) a) c)
           (SFadd prec emax (SFmul prec emax (S754_zero false) b) c))
    = true.
Proof.
  intros Ha Hb Hc.
  destruct (SF_constant a c Ha Hc) as [-> | (s & s' & -> & Hzero)];
    destruct (SF_constant b c Hb Hc) as [-> | (t & t' & -> & Hzero')].
  - now apply SFmul_square_nonneg.
  - subst c. reflexivity.
  - subst c. reflexivity.
  - reflexivity.
Qed.

(** X8.  A polynomial given by fewer than two coefficients does not pass
    the bracketing check in binary64, whatever the tolerance and the limit,
    when the bounds are finite and the constant, if there is one, is not
    NaN: [bisection_method] reports the failure and returns no result.
    Both conditions are needed: the constant NaN on [[0, 3]], and the
    constant [5] on [[0, infinity]], pass the check. *)
Theorem short_polynomial_is_rejected :
  (forall (coeffs : list float) (a b tol : float) (max_iter : Z),
      (length coeffs <= 1)%nat ->
      PrimFloat.is_finite a = true -> PrimFloat.is_finite b = true ->
      (forall c, In c coeffs -> PrimFloat.is_nan c = false) ->
      bisection_method coeffs a b tol max_iter =
        ([ErrorReport (evaluate_poly coeffs a) (evaluate_poly coeffs b)],
         None)) /\
  (f_ge (f_mul (evaluate_poly [nan] 0) (evaluate_poly [nan] 3)) f_zero
     = false /\
   f_ge (f_mul (evaluate_poly [5] 0) (evaluate_poly [5] infinity)) f_zero
     = false /\
   snd (bisection_method [5] 0 infinity tol_1e_4 1)
     = Some (infinity, 1%Z))%float.
Proof.
  split; [|vm_compute; repeat split; reflexivity].
  intros coeffs a b tol max_iter Hlen Ha Hb Hnan.
  apply solve_rejected.
  destruct coeffs as [|c [|c' coeffs]]; cbn in Hlen; try lia.
  - reflexivity.
  - unfold evaluate_poly, polyval. cbn.
    rewrite leb_spec, mul_spec, !add_spec, !mul_spec.
    change (Prim2SF 0) with (S754_zero false).
    apply SF_constant_check.
    + now apply is_finite_sf.
    + now apply is_finite_sf.
    + apply is_nan_sf. apply Hnan. now left.
Qed.

(** The constant [5] on [[0, 3]] in binary64. *)
Lemma constant_polynomial_is_rejected :
  ((length [5] <= 1)%nat /\
   PrimFloat.is_finite 0 = true /\ PrimFloat.is_finite 3 = true /\
   (forall c, In c [5] -> PrimFloat.is_nan c = false) /\
   bisection_method [5] 0 3 tol_1e_4 50 = ([ErrorReport 5 5], None))%float.
Proof.
  assert (Hnan : (forall c, In c [5] -> PrimFloat.is_nan c = false)%float).
  { intros c [<- | []]. reflexivity. }
  split; [cbn; lia|]. split; [reflexivity|]. split; [reflexivity|].
  split; [exact Hnan|].
  apply (proj1 short_polynomial_is_rejected [5]%float 0%float 3%float tol_1e_4
               50%Z); [cbn; lia | reflexivity | reflexivity | exact Hnan].
Defined.

(** X9.  [main] does not reject a negative degree: it asks for no
    coefficient, calls the solver with the empty list, and, in an arithmetic
    where [0 * 0 >= 0], the session ends with the solver's report of a
    bracketing failure with [f(a) = f(b) = 0], no table and no plot,
    whatever bounds, tolerance and limit were typed. *)
Theorem negative_degree_ends_in_bracketing_failure :
  forall (F : Type) (A : Arith F) (H : ArithHalf F)
         (parse_int : String.string -> option Z)
         (parse_float : String.string -> option F)
         (linspace : F -> F -> nat -> list F)
         (degree : Z) (a b tol : F) (max_iter : Z)
         (sd sa sb st sm : String.string) (rest : list String.string),
    f_ge (f_mul f_zero f_zero) f_zero = true ->
    parse_int sd = Some degree -> (degree < 0)%Z ->
    parse_float sa = Some a -> parse_float sb = Some b ->
    parse_float st = Some tol -> parse_int sm = Some max_iter ->
    run_main parse_int parse_float linspace
             (sd :: sa :: sb :: st :: sm :: rest) =
    (inl tt,
     {| stdin := rest;
        stdout :=
          [Banner; Prompt AskDegree; Prompt AskLowerBound;
           Prompt AskUpperBound; Prompt AskTolerance;
           Prompt AskMaxIterations;
           SolverPrint (ErrorReport f_zero f_zero)] |}).
Proof.
  intros F A H parse_int parse_float linspace degree a b tol max_iter
         sd sa sb st sm rest Hzero Hsd Hneg Hsa Hsb Hst Hsm.
  assert (Hnone : length (@nil String.string) = Z.to_nat (degree + 1))
    by (cbn; lia).
  pose proof (main_on_parsed_input parse_int parse_float linspace
                degree [] a b tol max_iter sd sa sb st sm [] rest
                Hsd Hnone (Forall2_nil _) Hsa Hsb Hst Hsm) as Hmain.
  rewrite (no_coefficient_is_rejected F A a b tol max_iter Hzero) in Hmain.
  exact Hmain.
Qed.

Section NegativeDegree.
Import String.StringSyntax.
Local Open Scope string_scope.

(** Degree -1 typed in, in binary64. *)
Lemma main_on_degree_minus_1 :
  let parse_int := parse_by_table [("-1", (-1)%Z); ("50", 50%Z)] in
  let parse_float :=
    parse_by_table [("0", 0%float); ("3", 3%float); ("0.0001", tol_1e_4)] in
  let linspace := fun (start stop : float) (num : nat) => [start; stop] in
  (f_ge (f_mul f_zero f_zero) f_zero = true)%float /\
  (-1 < 0)%Z /\
  run_main parse_int parse_float linspace ["-1"; "0"; "3"; "0.0001"; "50"] =
  (inl tt,
   {| stdin := [];
      stdout :=
        [Banner; Prompt AskDegree; Prompt AskLowerBound;
         Prompt AskUpperBound; Prompt AskTolerance; Prompt AskMaxIterations;
         SolverPrint (ErrorReport 0%float 0%float)] |}).
Proof.
  intros parse_int parse_float linspace.
  split; [reflexivity|]. split; [lia|].
  exact (negative_degree_ends_in_bracketing_failure float binary64
           binary64_half parse_int parse_float linspace (-1)
           0%float 3%float tol_1e_4 50 "-1" "0" "3" "0.0001" "50" []
           eq_refl eq_refl ltac:(lia) eq_refl eq_refl eq_refl eq_refl).
Defined.

End NegativeDegree.

(** ** The status line *)

(** X10.  The status [main] prints is sound but not complete.  When the
    count returned is below [max_iter], where [main] prints [Success], the
    solver returned from the loop on a row that passes the convergence test,
    in any arithmetic.  But a solve whose last permitted pass passes the test
    is reported as [Max Iterations Reached]: scenario 1 with [max_iter = 15]
    in binary64 returns from pass 15 with an error below [tol]. *)
Theorem success_is_reported_only_when_converged :
  (forall (F : Type) (A : Arith F) (coeffs : list F) (a b tol : F)
          (max_iter : Z) (c : F) (i : Z),
      snd (bisection_method coeffs a b tol max_iter) = Some (c, i) ->
      (i <? max_iter)%Z = true ->
      exists front r,
        table_rows (fst (bisection_method coeffs a b tol max_iter))
          = front ++ [r] /\
        converged tol r = true /\ c = rec_c r /\ i = rec_i r) /\
  (exists r,
      nth_error
        (table_rows (fst (bisection_method [1; 0; -4] 0 3 tol_1e_4 15))) 14
        = Some r /\
      length (table_rows (fst (bisection_method [1; 0; -4] 0 3 tol_1e_4 15)))
        = 15%nat /\
      snd (bisection_method [1; 0; -4] 0 3 tol_1e_4 15)
        = Some (rec_c r, 15%Z) /\
      converged tol_1e_4 r = true /\
      f_lt (rec_error r) tol_1e_4 = true /\
      (15 <? 15)%Z = false)%float.
Proof.
  split.
  - intros F A coeffs a b tol max_iter c i Hres Hlt.
    apply Z.ltb_lt in Hlt.
    destruct (early_count_is_a_return F A coeffs a b tol max_iter c i Hres Hlt)
      as (Hcheck & rows & Hloop).
    pose proof (for_loop_run coeffs tol (Z.to_nat max_iter) 1 a b a) as Hrun.
    rewrite Hloop in Hrun. cbn [fst snd] in Hrun.
    destruct (run_exit_return Hrun)
      as (front & r & Hrows & _ & Hconv & Hc & Hi).
    exists front, r. repeat split; trivial.
    unfold bisection_method. rewrite Hcheck, Hloop. cbn [fst].
    now rewrite table_rows_table.
  - vm_compute. eexists. split; [reflexivity|].
    repeat split; reflexivity.
Qed.

(** Scenario 1 in binary64 with [max_iter = 50]. *)
Lemma success_on_scenario_1 :
  (snd (bisection_method [1; 0; -4] 0 3 tol_1e_4 50)
     = Some (0x1.fffep0, 15%Z) /\
   (15 <? 50)%Z = true /\
   exists front r,
     table_rows (fst (bisection_method [1; 0; -4] 0 3 tol_1e_4 50))
       = (front ++ [r])%list /\
     converged tol_1e_4 r = true /\ 0x1.fffep0 = rec_c r /\
     15%Z = rec_i r)%float.
Proof.
  assert (Hres : (snd (bisection_method [1; 0; -4] 0 3 tol_1e_4 50)
                  = Some (0x1.fffep0, 15%Z))%float)
    by (vm_compute; reflexivity).
  split; [exact Hres|]. split; [reflexivity|].
  exact (proj1 success_is_reported_only_when_converged float binary64
           _ _ _ _ _ _ _ Hres eq_refl).
Defined.

(** ** Coefficient lists of the same polynomial *)

(** The loop reads the coefficients only through the values of the
    polynomial. *)
Lemma for_loop_depends_on_values (F : Type) (A : Arith F)
      (cs1 cs2 : list F) (tol : F) :
  (forall x, evaluate_poly cs1 x = evaluate_poly cs2 x) ->
  forall (n : nat) (i : Z) (a b c : F),
    for_loop cs1 tol n i a b c = for_loop cs2 tol n i a b c.
Proof.
  intros Hval. induction n as [|n IH]; intros i a b c.
  - reflexivity.
  - cbn [for_loop]. rewrite !Hval, !IH. reflexivity.
Qed.

(** In binary64, one step of Horner's loop from [+0] with the coefficient
    [+0] leaves the next step as it would be from [+0]. *)
Lemma leading_zero_step (x a : float) :
  ((0 * x + 0) * x + a = 0 * x + a)%float.
Proof.
  rewrite <- (SF2Prim_Prim2SF ((0 * x + 0) * x + a)%float).
  rewrite <- (SF2Prim_Prim2SF (0 * x + a)%float).
  f_equal. rewrite !add_spec, !mul_spec, !add_spec, !mul_spec.
  change (Prim2SF 0) with (S754_zero false).
  destruct (Prim2SF x) as [[|] | [|] | | [|] m e];
    destruct (Prim2SF a) as [[|] | [|] | | [|] m' e']; reflexivity.
Qed.

(** X12.  [bisection_method] depends on the coefficient list only through
    the values [evaluate_poly] gives: two lists with the same values at
    every point give the same output and result, in any arithmetic.  In
    binary64 a leading coefficient [0] in front of a non-empty list changes
    no value, not even at an infinite or NaN point, so a polynomial typed
    with one degree more and a zero leading coefficient is solved in exactly
    the same way. *)
Theorem leading_zero_changes_nothing :
  (forall (F : Type) (A : Arith F) (cs1 cs2 : list F),
      (forall x, evaluate_poly cs1 x = evaluate_poly cs2 x) ->
      forall (a b tol : F) (max_iter : Z),
        bisection_method cs1 a b tol max_iter =
        bisection_method cs2 a b tol max_iter) /\
  (forall (k : float) (coeffs : list float) (x : float),
      evaluate_poly (0%float :: k :: coeffs) x =
      evaluate_poly (k :: coeffs) x) /\
  (forall (k : float) (coeffs : list float) (a b tol : float)
          (max_iter : Z),
      bisection_method (0%float :: k :: coeffs) a b tol max_iter =
      bisection_method (k :: coeffs) a b tol max_iter).
Proof.
  assert (Hsolve : forall (F : Type) (A : Arith F) (cs1 cs2 : list F),
    (forall x, evaluate_poly cs1 x = evaluate_poly cs2 x) ->
    forall (a b tol : F) (max_iter : Z),
      bisection_method cs1 a b tol max_iter =
      bisection_method cs2 a b tol max_iter).
  { intros F A cs1 cs2 Hval a b tol max_iter. unfold bisection_method.
    now rewrite !Hval,
      (for_loop_depends_on_values F A cs1 cs2 tol Hval). }
  assert (Hzero : forall (k : float) (coeffs : list float) (x : float),
    evaluate_poly (0%float :: k :: coeffs) x = evaluate_poly (k :: coeffs) x).
  { intros k coeffs x. unfold evaluate_poly, polyval.
    cbn [fold_left f_add f_mul f_zero binary64].
    now rewrite leading_zero_step. }
  split; [exact Hsolve|]. split; [exact Hzero|].
  intros k coeffs a b tol max_iter.
  apply Hsolve. intros x. apply Hzero.
Qed.

(** [0 x^3 + x^2 - 4] and [x^2 - 4] in binary64. *)
Lemma leading_zero_scenario_1 :
  (forall x : float,
      evaluate_poly [0; 1; 0; -4]%float x = evaluate_poly [1; 0; -4]%float x)
  /\
  (bisection_method [0; 1; 0; -4] 0 3 tol_1e_4 50 =
   bisection_method [1; 0; -4] 0 3 tol_1e_4 50)%float.
Proof.
  assert (Hval : forall x : float,
    evaluate_poly [0; 1; 0; -4]%float x = evaluate_poly [1; 0; -4]%float x)
    by (intros x;
        exact (proj1 (proj2 leading_zero_changes_nothing) 1%float
                 [0; -4]%float x)).
  split; [exact Hval|].
  exact (proj1 leading_zero_changes_nothing float binary64 _ _ Hval
           0%float 3%float tol_1e_4 50%Z).
Defined.

(** ** A tolerance that is not positive *)

(** The error of every row of a run is an absolute value. *)
Lemma run_error_is_abs (F : Type) (A : Arith F) (coeffs : list F) (tol : F)
      n i a b c rows e :
  run coeffs tol n i a b c rows e ->
  forall r, In r rows ->
    rec_fc r = evaluate_poly coeffs (rec_c r) /\
    exists y, rec_error r = f_abs y.
Proof.
  induction_on_run; intros r Hr.
  - destruct Hr.
  - destruct Hr as [<- | []]. split; [reflexivity|]. cbn.
    destruct (i >? 1)%Z; eexists; reflexivity.
  - destruct Hr as [<- | Hr]; [|now apply IH].
    split; [reflexivity|]. cbn.
    destruct (i >? 1)%Z; eexists; reflexivity.
Qed.

(** A solve none of whose rows passes the test runs out. *)
Lemma solve_without_converged_row_runs_out (F : Type) (A : Arith F)
      (coeffs : list F) (a b tol : F) (max_iter : Z) :
  f_ge (f_mul (evaluate_poly coeffs a) (evaluate_poly coeffs b)) f_zero
    = false ->
  (forall r,
      In r (table_rows (fst (bisection_method coeffs a b tol max_iter))) ->
      converged tol r = false) ->
  runs_out coeffs a b tol max_iter.
Proof.
  intros Hcheck Hnone. unfold runs_out. split; [exact Hnone|].
  destruct (solve_run coeffs a b tol max_iter Hcheck)
    as (rows & e & Hrun & Hrows & Hres).
  rewrite Hrows in *. rewrite Hres.
  destruct e as [cr ir | cf].
  - exfalso.
    destruct (run_exit_return Hrun) as (front & r & Hsplit & _ & Hr & _).
    rewrite Hnone in Hr; [discriminate|].
    rewrite Hsplit. apply in_or_app. right. now left.
  - split; [exact (proj1 (run_exit_fallthrough Hrun))|].
    now exists cf.
Qed.

Lemma exact_abs_not_below_nonpositive (x t : Q) :
  f_ge f_zero t = true -> f_lt (f_abs x) t = false.
Proof.
  intros Ht. apply exact_lt_false_iff.
  change (Qle_bool t 0 = true) in Ht. apply Qle_bool_iff in Ht.
  pose proof (Qabs_nonneg x). cbn. lra.
Qed.

Lemma binary64_abs_not_below_nonpositive (x t : float) :
  f_ge f_zero t = true -> f_lt (f_abs x) t = false.
Proof.
  cbn. rewrite leb_spec, ltb_spec, abs_spec.
  change (Prim2SF 0) with (S754_zero false).
  destruct (Prim2SF x) as [[|] | [|] | | [|] m e];
    destruct (Prim2SF t) as [[|] | [|] | | [|] m' e'];
    cbn; congruence.
Qed.

(** X14.  A tolerance that is zero or negative, which [main] accepts, can
    never be met: in an arithmetic where no absolute value is below a
    non-positive number, every solve that passes the bracketing check fails
    the convergence test in every pass, runs all [max_iter] passes and
    returns the count [max_iter], even when a midpoint is exactly a root.
    This holds in binary64 and in exact arithmetic. *)
Theorem nonpositive_tolerance_runs_out :
  (forall (F : Type) (A : Arith F),
      (forall x t : F, f_ge f_zero t = true -> f_lt (f_abs x) t = false) ->
      forall (coeffs : list F) (a b tol : F) (max_iter : Z),
        f_ge f_zero tol = true ->
        f_ge (f_mul (evaluate_poly coeffs a) (evaluate_poly coeffs b)) f_zero
          = false ->
        runs_out coeffs a b tol max_iter) /\
  (forall (coeffs : list float) (a b tol : float) (max_iter : Z),
      f_ge f_zero tol = true ->
      f_ge (f_mul (evaluate_poly coeffs a) (evaluate_poly coeffs b)) f_zero
        = false ->
      runs_out coeffs a b tol max_iter) /\
  (forall (coeffs : list Q) (a b tol : Q) (max_iter : Z),
      f_ge f_zero tol = true ->
      f_ge (f_mul (evaluate_poly coeffs a) (evaluate_poly coeffs b)) f_zero
        = false ->
      runs_out coeffs a b tol max_iter).
Proof.
  assert (Hany : forall (F : Type) (A : Arith F),
    (forall x t : F, f_ge f_zero t = true -> f_lt (f_abs x) t = false) ->
    forall (coeffs : list F) (a b tol : F) (max_iter : Z),
      f_ge f_zero tol = true ->
      f_ge (f_mul (evaluate_poly coeffs a) (evaluate_poly coeffs b)) f_zero
        = false ->
      runs_out coeffs a b tol max_iter).
  { intros F A Habs coeffs a b tol max_iter Htol Hcheck.
    apply solve_without_converged_row_runs_out; [exact Hcheck|].
    intros r Hr.
    destruct (solve_run coeffs a b tol max_iter Hcheck)
      as (rows & e & Hrun & Hrows & _).
    rewrite Hrows in Hr.
    destruct (run_error_is_abs F A coeffs tol _ _ _ _ _ _ _ Hrun r Hr)
      as (_ & y & Hy).
    unfold converged. now rewrite Hy, !(Habs _ tol Htol). }
  split; [exact Hany|]. split.
  - exact (Hany float binary64 binary64_abs_not_below_nonpositive).
  - exact (Hany Q exact exact_abs_not_below_nonpositive).
Qed.

(** Scenario 2 with the tolerance [0] in binary64: the midpoint of pass 1
    is the root [1], and the solve still runs its 3 passes. *)
Lemma zero_tolerance_scenario_2 :
  (f_ge f_zero 0 = true /\
   f_ge (f_mul (evaluate_poly [1; -1] 0) (evaluate_poly [1; -1] 2)) f_zero
     = false /\
   evaluate_poly [1; -1] 1 = 0 /\
   runs_out [1; -1] 0 2 0 3 /\
   snd (bisection_method [1; -1] 0 2 0 3) = Some (1.75, 3%Z))%float.
Proof.
  split; [reflexivity|]. split; [reflexivity|]. split; [reflexivity|].
  split; [|vm_compute; reflexivity].
  exact (proj1 (proj2 nonpositive_tolerance_runs_out)
           [1; -1]%float 0%float 2%float 0%float 3%Z eq_refl eq_refl).
Defined.
